(** * mame.c: session lifecycle, partial screen updates, graphics decode

    A shallow embedding of the parts of [src/mame.c] that carry invariants:
    the partial-update scheduler ([set_visible_area], [force_partial_update]),
    the graphics-layout resolution of [decode_graphics], the hard-disk open
    callback [mame_chd_open], [compute_aspect_ratio], and the start-up
    sequence [run_game] / [init_machine] / [run_machine] / [vh_open].

    C [int] values are integers of [Z] kept in the 32-bit two's-complement
    range by [CInt.to_int]; calls into other translation units are recorded
    as events in a log, in the order the C code makes them. *)

From Stdlib Require Import Ascii String ZArith List Lia Bool Permutation.
#[local] Set Warnings "-register-all".
Import ListNotations.
Local Open Scope Z_scope.

(* ------------------------------------------------------------------ *)
(** ** C integers *)

Module CInt.

Definition INT_MIN : Z := -2147483648.
Definition INT_MAX : Z := 2147483647.

(** The value an [int] object holds after storing the mathematical
    result [z] (two's-complement wrap-around). *)
Definition to_int (z : Z) : Z := (z + 2147483648) mod 4294967296 - 2147483648.

Definition in_int (z : Z) : Prop := INT_MIN <= z <= INT_MAX.

Definition int_add (a b : Z) : Z := to_int (a + b).
Definition int_sub (a b : Z) : Z := to_int (a - b).
Definition int_mul (a b : Z) : Z := to_int (a * b).
(** C division truncates toward zero. *)
Definition int_div (a b : Z) : Z := to_int (Z.quot a b).

End CInt.

(* ------------------------------------------------------------------ *)
(** ** Screen rendering and management *)

Module Video.
Import CInt.

(** [struct rectangle] *)
Record rectangle : Type := mkRect {
  min_x : Z;
  max_x : Z;
  min_y : Z;
  max_y : Z
}.

Definition set_min_y (r : rectangle) (v : Z) : rectangle :=
  mkRect (min_x r) (max_x r) v (max_y r).
Definition set_max_y (r : rectangle) (v : Z) : rectangle :=
  mkRect (min_x r) (max_x r) (min_y r) v.

Definition rect_eqb (r : rectangle) (a b c d : Z) : bool :=
  (min_x r =? a) && (max_x r =? b) && (min_y r =? c) && (max_y r =? d).

Variant profiler_tag : Type := PROFILER_VIDEO | PROFILER_END.

(** Calls that leave this file, in program order. *)
Variant event : Type :=
  | EvFillBitmapBlack                  (* fillbitmap(Machine->scrbitmap, get_black_pen(), NULL) *)
  | EvVideoUpdate (clip : rectangle)   (* Machine->drv->video_update(Machine->scrbitmap, &clip) *)
  | EvProfilerMark (t : profiler_tag)  (* profiler_mark(t) *)
  | EvComputeScanlineTiming.           (* cpu_compute_scanline_timing() *)

(** The statics and [Machine] fields the rendering functions touch. *)
Record state : Type := mkState {
  visible_area : rectangle;            (* Machine->visible_area *)
  absolute_visible_area : rectangle;   (* Machine->absolute_visible_area *)
  visible_area_changed : Z;            (* static UINT8 *)
  full_refresh_pending : Z;            (* static UINT8 *)
  last_partial_scanline : Z;           (* static int *)
  partial_updates_this_frame : Z;      (* performance.partial_updates_this_frame *)
  log : list event
}.

(** Static storage is zero-initialised. *)
Definition initial_state : state :=
  mkState (mkRect 0 0 0 0) (mkRect 0 0 0 0) 0 0 0 0 [].

Definition emit (e : list event) (st : state) : state :=
  mkState (visible_area st) (absolute_visible_area st) (visible_area_changed st)
          (full_refresh_pending st) (last_partial_scanline st)
          (partial_updates_this_frame st) (log st ++ e).

Definition set_visible_area (a b c d : Z) (st : state) : state :=
  if rect_eqb (visible_area st) a b c d then st
  else
    let va := mkRect a b c d in
    emit [EvComputeScanlineTiming]
      (mkState va va 1
               (full_refresh_pending st) (last_partial_scanline st)
               (partial_updates_this_frame st) (log st)).

Definition schedule_full_refresh (st : state) : state :=
  mkState (visible_area st) (absolute_visible_area st) (visible_area_changed st)
          1 (last_partial_scanline st) (partial_updates_this_frame st) (log st).

Definition reset_partial_updates (st : state) : state :=
  mkState (visible_area st) (absolute_visible_area st) (visible_area_changed st)
          (full_refresh_pending st) 0 0 (log st).

Definition set_full_refresh_pending (v : Z) (st : state) : state :=
  mkState (visible_area st) (absolute_visible_area st) (visible_area_changed st)
          v (last_partial_scanline st) (partial_updates_this_frame st) (log st).

Definition set_last_partial_scanline (v : Z) (st : state) : state :=
  mkState (visible_area st) (absolute_visible_area st) (visible_area_changed st)
          (full_refresh_pending st) v (partial_updates_this_frame st) (log st).

Definition incr_partial_updates (st : state) : state :=
  mkState (visible_area st) (absolute_visible_area st) (visible_area_changed st)
          (full_refresh_pending st) (last_partial_scanline st)
          (int_add (partial_updates_this_frame st) 1) (log st).

(** [force_partial_update(scanline)]; [skip] is what [osd_skip_this_frame()]
    answers in this call. *)
Definition force_partial_update (skip : bool) (scanline : Z) (st : state) : state :=
  let clip := visible_area st in
  if skip then st
  else if scanline <? last_partial_scanline st then st
  else
    let st1 :=
      if negb (full_refresh_pending st =? 0) && (last_partial_scanline st =? 0)
      then set_full_refresh_pending 0 (emit [EvFillBitmapBlack] st)
      else st in
    let clip1 :=
      if last_partial_scanline st1 >? min_y clip
      then set_min_y clip (last_partial_scanline st1) else clip in
    let clip2 :=
      if scanline <? max_y clip1 then set_max_y clip1 scanline else clip1 in
    let st2 :=
      if min_y clip2 <=? max_y clip2
      then emit [EvProfilerMark PROFILER_END]
             (incr_partial_updates
                (emit [EvProfilerMark PROFILER_VIDEO; EvVideoUpdate clip2] st1))
      else st1 in
    set_last_partial_scanline (int_add scanline 1) st2.

(** [draw_screen], without the priority-bitmap housekeeping. *)
Definition draw_screen (skip : bool) (st : state) : state :=
  force_partial_update skip (max_y (visible_area st)) st.

Definition is_render (e : event) : bool :=
  match e with EvVideoUpdate _ => true | _ => false end.
Definition is_recompute (e : event) : bool :=
  match e with EvComputeScanlineTiming => true | _ => false end.

(** Number of [video_update] callbacks made so far. *)
Definition renders (st : state) : nat := length (filter is_render (log st)).
(** Number of scanline-timing recomputations made so far. *)
Definition recomputations (st : state) : nat := length (filter is_recompute (log st)).

(** A run of [force_partial_update] calls, each with its frame-skip answer. *)
Fixpoint run_updates (calls : list (bool * Z)) (st : state) : state :=
  match calls with
  | [] => st
  | (skip, s) :: rest => run_updates rest (force_partial_update skip s st)
  end.

(** A run of [set_visible_area] calls. *)
Fixpoint run_set_visible_area (calls : list (Z * Z * Z * Z)) (st : state) : state :=
  match calls with
  | [] => st
  | (a, b, c, d) :: rest => run_set_visible_area rest (set_visible_area a b c d st)
  end.

(** The range [force_partial_update] redraws, in the words of its
    header comment: from the last scanline up to and including the
    requested one, inside the visible area. *)
Definition update_range (st : state) (s : Z) : rectangle :=
  mkRect (min_x (visible_area st)) (max_x (visible_area st))
         (Z.max (last_partial_scanline st) (min_y (visible_area st)))
         (Z.min s (max_y (visible_area st))).

Definition refresh_due (st : state) : bool :=
  negb (full_refresh_pending st =? 0) && (last_partial_scanline st =? 0).

Definition range_nonempty (r : rectangle) : bool := min_y r <=? max_y r.

(** A scanline whose successor is still an [int]. *)
Definition valid_scanline (s : Z) : Prop := INT_MIN <= s < INT_MAX.

Fixpoint strictly_decreasing (l : list Z) : Prop :=
  match l with
  | [] => True
  | a :: rest =>
      match rest with
      | [] => True
      | b :: _ => b < a /\ strictly_decreasing rest
      end
  end.

End Video.

(* ------------------------------------------------------------------ *)
(** ** Graphics layouts and their resolution in [decode_graphics] *)

Module Gfx.
Import CInt.

(** What [decode_graphics] takes from [drawgfx.h], which is not part of
    this translation unit: the array bounds, the fraction macros, the
    raw-mode marker, and [fld], the conversion to the integer type the
    [struct GfxLayout] members are declared with (an arithmetic
    expression with such a member as operand is evaluated in that type). *)
Record drawgfx_h : Type := mkHeader {
  MAX_GFX_PLANES : nat;
  MAX_GFX_SIZE : nat;
  IS_FRAC : Z -> bool;
  FRAC_NUM : Z -> Z;
  FRAC_DEN : Z -> Z;
  FRAC_OFFSET : Z -> Z;
  GFX_RAW : Z;
  fld : Z -> Z
}.

(** [struct GfxLayout] *)
Record GfxLayout : Type := mkLayout {
  width : Z;
  height : Z;
  total : Z;
  planes : Z;
  planeoffset : list Z;
  xoffset : list Z;
  yoffset : list Z;
  charincrement : Z
}.

(** [struct GfxDecodeInfo] *)
Record GfxDecodeInfo : Type := mkDecodeInfo {
  memory_region : Z;
  gfxlayout : GfxLayout;
  start : Z;
  color_codes_start : Z;
  total_color_codes : Z
}.

Definition set_total (gl : GfxLayout) (v : Z) : GfxLayout :=
  mkLayout (width gl) (height gl) v (planes gl) (planeoffset gl)
           (xoffset gl) (yoffset gl) (charincrement gl).
Definition set_planeoffset (gl : GfxLayout) (v : list Z) : GfxLayout :=
  mkLayout (width gl) (height gl) (total gl) (planes gl) v
           (xoffset gl) (yoffset gl) (charincrement gl).
Definition set_xoffset (gl : GfxLayout) (v : list Z) : GfxLayout :=
  mkLayout (width gl) (height gl) (total gl) (planes gl) (planeoffset gl)
           v (yoffset gl) (charincrement gl).
Definition set_yoffset (gl : GfxLayout) (v : list Z) : GfxLayout :=
  mkLayout (width gl) (height gl) (total gl) (planes gl) (planeoffset gl)
           (xoffset gl) v (charincrement gl).

(** [for (j = 0; j < n; j++) a[j] = f(a[j]);] on an array held as a list. *)
Definition update_first {A : Type} (n : nat) (f : A -> A) (a : list A) : list A :=
  map f (firstn n a) ++ skipn n a.

Section Decode.
Context (h : drawgfx_h).

(** [int region_length = 8 * memory_region_length(...)] *)
Definition region_bit_length (byte_length : Z) : Z := to_int (8 * byte_length).

(** [region_length / glcopy.charincrement * FRAC_NUM(glcopy.total) / FRAC_DEN(glcopy.total)],
    evaluated left to right in the members' type. *)
Definition frac_total (region_length : Z) (gl : GfxLayout) : Z :=
  let q := fld h (Z.quot (fld h region_length) (charincrement gl)) in
  let m := fld h (q * fld h (FRAC_NUM h (total gl))) in
  fld h (Z.quot m (fld h (FRAC_DEN h (total gl)))).

Definition resolve_total (region_length : Z) (gl : GfxLayout) : GfxLayout :=
  if IS_FRAC h (total gl) then set_total gl (frac_total region_length gl) else gl.

(** [FRAC_OFFSET(value) + region_length * FRAC_NUM(value) / FRAC_DEN(value)] on
    the [int] local [value]. *)
Definition frac_offset (region_length : Z) (value : Z) : Z :=
  int_add (FRAC_OFFSET h value)
          (int_div (int_mul region_length (FRAC_NUM h value)) (FRAC_DEN h value)).

(** One array slot: [int value = a[j]; if (IS_FRAC(value)) a[j] = ...;] *)
Definition resolve_offset (region_length : Z) (slot : Z) : Z :=
  let value := to_int slot in
  if IS_FRAC h value then fld h (frac_offset region_length value) else slot.

Definition resolve_planes (region_length : Z) (gl : GfxLayout) : GfxLayout :=
  set_planeoffset gl
    (update_first (MAX_GFX_PLANES h) (resolve_offset region_length) (planeoffset gl)).

Definition resolve_xy (region_length : Z) (gl : GfxLayout) : GfxLayout :=
  set_yoffset
    (set_xoffset gl
       (update_first (MAX_GFX_SIZE h) (resolve_offset region_length) (xoffset gl)))
    (update_first (MAX_GFX_SIZE h) (resolve_offset region_length) (yoffset gl)).

(** [int elementbase = base + (glcopy.total - 1) * glcopy.charincrement / 8;] *)
Definition elementbase (base : Z) (gl : GfxLayout) (count : Z) : Z :=
  to_int (fld h (fld h base
                 + fld h (Z.quot (fld h (fld h (count - 1) * charincrement gl)) 8))).

(** [int lastpixelbase = elementbase + glcopy.height * glcopy.yoffset[0] / 8 - 1;] *)
Definition lastpixelbase (base : Z) (gl : GfxLayout) (count : Z) : Z :=
  to_int (fld h (fld h (fld h (elementbase base gl count)
                        + fld h (Z.quot (fld h (fld h (height gl) * nth 0 (yoffset gl) 0)) 8))
                 - 1)).

(** The last element's highest byte lies inside the region:
    [lastpixelbase < end]. *)
Definition fits (base region_end : Z) (gl : GfxLayout) (count : Z) : bool :=
  lastpixelbase base gl count <? region_end.

(** [while (glcopy.total > 0) { ...; if (lastpixelbase < end) break; glcopy.total--; }]
    The count drops by one per turn, so [fuel] turns are enough when
    [fuel] is at least the count; [truncate_total] gives that many. *)
Fixpoint truncate_loop (fuel : nat) (base region_end : Z) (gl : GfxLayout) (count : Z) : Z :=
  match fuel with
  | O => count
  | S fuel' =>
      if 0 <? count then
        if fits base region_end gl count then count
        else truncate_loop fuel' base region_end gl (fld h (count - 1))
      else count
  end.

Definition truncate_total (base region_end : Z) (gl : GfxLayout) : Z :=
  truncate_loop (Z.to_nat (total gl)) base region_end gl (total gl).

Definition resolve_raw (region_length : Z) (base : Z) (gl : GfxLayout) : GfxLayout :=
  if nth 0 (planeoffset gl) 0 =? GFX_RAW h
  then set_total gl (truncate_total base (int_div region_length 8) gl)
  else gl.

(** The body of the element loop up to the call of [decodegfx]: the
    layout handed to the decoder for [info], given the byte length of
    its region. *)
Definition resolve_layout (byte_length : Z) (info : GfxDecodeInfo) : GfxLayout :=
  let region_length := region_bit_length byte_length in
  let glcopy := gfxlayout info in
  let glcopy := resolve_total region_length glcopy in
  let glcopy := resolve_planes region_length glcopy in
  let glcopy := resolve_xy region_length glcopy in
  resolve_raw region_length (start info) glcopy.

End Decode.

(** The members' type holds every non-negative [int] unchanged. *)
Definition members_hold_ints (h : drawgfx_h) : Prop :=
  forall z, 0 <= z <= INT_MAX -> fld h z = z.

(** The count fraction [v] of a layout with stride [inc], over a region
    of [L] bits, stays inside the [int] range. *)
Definition count_in_range (h : drawgfx_h) (L inc v : Z) : Prop :=
  0 < inc /\ 0 <= FRAC_NUM h v <= INT_MAX /\ 0 < FRAC_DEN h v <= INT_MAX
  /\ L / inc * FRAC_NUM h v <= INT_MAX.

(** The offset fraction [v] over a region of [L] bits stays inside the
    [int] range. *)
Definition offset_in_range (h : drawgfx_h) (L v : Z) : Prop :=
  0 <= FRAC_OFFSET h v /\ 0 <= FRAC_NUM h v /\ 0 < FRAC_DEN h v
  /\ FRAC_OFFSET h v + L * FRAC_NUM h v <= INT_MAX.

(** A header instance to run the model on: fraction tag in bit 31,
    numerator and denominator in four bits each above a 23-bit offset,
    unsigned 32-bit members. *)
Definition RGN_FRAC (num den : Z) : Z :=
  Z.lor 2147483648
        (Z.lor (Z.shiftl (Z.land num 15) 27) (Z.shiftl (Z.land den 15) 23)).

Definition sample_header : drawgfx_h :=
  mkHeader 8 64
    (fun v => negb (Z.land v 2147483648 =? 0))
    (fun v => Z.land (Z.shiftr v 27) 15)
    (fun v => Z.land (Z.shiftr v 23) 15)
    (fun v => Z.land v 8388607)
    305419896
    (fun z => z mod 4294967296).

End Gfx.

(* ------------------------------------------------------------------ *)
(** ** Drivers *)

Module Driver.

(** The members of [struct InternalMachineDriver] that [mame.c] reads. *)
Record InternalMachineDriver : Type := mkMachineDriver {
  video_attributes : Z;
  aspect_x : Z;
  aspect_y : Z;
  screen_width : Z;
  screen_height : Z;
  default_visible_area : Video.rectangle;
  gfxdecodeinfo : option (list Gfx.GfxDecodeInfo);   (* NULL or the array *)
  video_start : bool;                                (* callback present *)
  video_stop : bool
}.

(** A buffer after [memset(output, 0, sizeof( *output))]. *)
Definition zeroed_machine_driver : InternalMachineDriver :=
  mkMachineDriver 0 0 0 0 0 (Video.mkRect 0 0 0 0) None false false.

(** The members of [struct GameDriver] that [mame.c] reads.  Pointers
    to the constant tables a driver names are integers, [0] for NULL;
    [drv] is the machine-driver constructor. *)
Inductive GameDriver : Type := mkGameDriver {
  name : string;
  clone_of : option GameDriver;
  drv : InternalMachineDriver -> InternalMachineDriver;
  driver_init : bool;
  rom : Z;
  input_ports : Z
}.

(** [expand_machine_driver(constructor, output)] *)
Definition expand_machine_driver
    (constructor : InternalMachineDriver -> InternalMachineDriver)
    (output : InternalMachineDriver) : InternalMachineDriver :=
  let output := zeroed_machine_driver in
  constructor output.

(** A driver followed by its parents, nearest first. *)
Fixpoint ancestry (d : GameDriver) : list GameDriver :=
  d :: match clone_of d with
       | None => []
       | Some p => ancestry p
       end.

End Driver.

(* ------------------------------------------------------------------ *)
(** ** Hard disk interface *)

Module Chd.
Import Driver.

Variant filetype : Type := FILETYPE_IMAGE | FILETYPE_IMAGE_DIFF.

(** One call [mame_fopen(gamename, filename, filetype, openforwrite)]. *)
Record fopen_call : Type := mkFopen {
  gamename : option string;          (* None for NULL *)
  filename : string;
  ftype : filetype;
  openforwrite : Z
}.

(** [strchr(s, c) != NULL] for a character [c] other than the terminator. *)
Fixpoint strchr (s : string) (c : Ascii.ascii) : bool :=
  match s with
  | EmptyString => false
  | String a rest => Ascii.eqb a c || strchr rest c
  end.

(** [mode[0] == 'r' && !strchr(mode, '+')] *)
Definition read_only_mode (mode : string) : bool :=
  match mode with
  | EmptyString => false
  | String a _ => Ascii.eqb a "r"%char && negb (strchr mode "+"%char)
  end.

Section Open.
(** The file layer: the handle a call yields, [0] for NULL. *)
Variable mame_fopen : fopen_call -> Z.

Definition image_call (file : string) (d : GameDriver) : fopen_call :=
  mkFopen (Some (name d)) file FILETYPE_IMAGE 0.
Definition diff_call (file : string) : fopen_call :=
  mkFopen None file FILETYPE_IMAGE_DIFF 1.

(** The ROM path of driver [d] has no such image. *)
Definition yields_null (file : string) (d : GameDriver) : Prop :=
  mame_fopen (image_call file d) = 0.

(** [for (drv = ...; drv != NULL; drv = drv->clone_of)]: the handle
    returned and the calls made, in order. *)
Fixpoint open_up_the_chain (file : string) (d : GameDriver) : Z * list fopen_call :=
  let c := image_call file d in
  let f := mame_fopen c in
  if negb (f =? 0) then (f, [c])
  else match clone_of d with
       | None => (0, [c])
       | Some p => let (r, calls) := open_up_the_chain file p in (r, c :: calls)
       end.

(** [mame_chd_open(filename, mode)] with [Machine->gamedrv]. *)
Definition mame_chd_open (gamedrv : option GameDriver) (file mode : string)
  : Z * list fopen_call :=
  if read_only_mode mode then
    match gamedrv with
    | None => (0, [])
    | Some d => open_up_the_chain file d
    end
  else
    let c := diff_call file in (mame_fopen c, [c]).

End Open.

(** The call asks the ROM path of some driver. *)
Definition consults_chain (c : fopen_call) : bool :=
  match gamename c with Some _ => true | None => false end.

End Chd.

(* ------------------------------------------------------------------ *)
(** ** Aspect ratio *)

Module Aspect.
Import Driver.

Section Compute.
(** The flag bit of [driver.h]. *)
Variable VIDEO_DUAL_MONITOR : Z.

(** [compute_aspect_ratio(drv, &aspect_x, &aspect_y)]: [out] is what the
    two pointed-to [int]s hold at the call, the result what they hold at
    the return. *)
Definition compute_aspect_ratio (d : InternalMachineDriver) (out : Z * Z) : Z * Z :=
  if negb (aspect_x d =? 0) && negb (aspect_y d =? 0) then
    (aspect_x d, aspect_y d)
  else if Z.land (video_attributes d) VIDEO_DUAL_MONITOR =? 0 then
    (4, if negb (Z.land (video_attributes d) VIDEO_DUAL_MONITOR =? 0) then 6 else 3)
  else out.

End Compute.

End Aspect.

(* ------------------------------------------------------------------ *)
(** ** Objects as bytes: the two [memset] calls of a session start *)

Module Memory.

(** [memset(p, c, n)] on the object whose bytes are [obj], for
    [n <= sizeof obj]. *)
Definition memset (obj : list Z) (c : Z) (n : nat) : list Z :=
  repeat c (Nat.min n (length obj)) ++ skipn n obj.

(** Store of a pointer value, given as its bytes, at a byte offset. *)
Definition store (obj : list Z) (offset : nat) (bytes : list Z) : list Z :=
  firstn offset obj ++ bytes ++ skipn (offset + length bytes) obj.

(** Sizes and offsets the compiler fixes: the size of an object
    pointer, and where [struct RunningMachine] keeps [gamedrv] and
    [drv]. *)
Record target : Type := mkTarget {
  sizeof_pointer : nat;
  offsetof_gamedrv : nat;
  offsetof_drv : nat
}.

Section Prologue.
Context (t : target).

(** [memset(Machine, 0, sizeof(Machine))]: [Machine] is declared
    [struct RunningMachine *], so the count is the size of a pointer. *)
Definition clean_machine (active_machine : list Z) : list Z :=
  memset active_machine 0 (sizeof_pointer t).

(** [expand_machine_driver] on the bytes of [internal_drv]:
    [memset(output, 0, sizeof( *output))], then the constructor. *)
Definition expand_machine_driver (constructor : list Z -> list Z)
    (output : list Z) : list Z :=
  constructor (memset output 0 (length output)).

(** The first statements of [run_game], up to [Machine->drv = &internal_drv]:
    the bytes of [active_machine] and of [internal_drv] afterwards.
    [gamedrv_ptr] and [drv_ptr] are the bytes of the two pointers stored. *)
Definition run_game_prologue (constructor : list Z -> list Z)
    (gamedrv_ptr drv_ptr : list Z)
    (active_machine internal_drv : list Z) : list Z * list Z :=
  let m := clean_machine active_machine in
  let m := store m (offsetof_gamedrv t) gamedrv_ptr in
  let d := expand_machine_driver constructor internal_drv in
  let m := store m (offsetof_drv t) drv_ptr in
  (m, d).

End Prologue.

Definition all_zero (obj : list Z) : Prop := Forall (fun b => b = 0) obj.

End Memory.

(* ------------------------------------------------------------------ *)
(** ** Core system management: the start-up sequence *)

Module Lifecycle.
Import CInt Driver.

(** Calls made by the start-up code, in program order.  A call that
    reports a result carries it; pointers are integers, [0] for NULL. *)
Variant call : Type :=
  | BeginResourceTracking
  | EndResourceTracking
  | OsdInit (r : Z)
  | OsdExit
  | UistringInit (r : Z)
  | CodeInit (r : Z)
  | CodeClose
  | InputPortAllocate (p : Z)
  | InputPortFree (p : Z)
  | ChdSetInterface
  | RomLoad (r : Z)
  | TimerInit
  | CpuInitRefreshTimer
  | CpuInit
  | LoadInputPortSettings (r : Z)
  | MemoryInit (r : Z)
  | DriverInit
  | Logerror (msg : string)
  | Printf (msg : string)
  | PaletteStart (r : Z)
  | DecodeGfx (i : nat) (base : Z) (gl : Gfx.GfxLayout) (p : Z)
  | PaletteGetTotalColorsWithUi
  | ArtworkCreateDisplay (width height aspect_x aspect_y : Z) (r : Z)
  | AutoBitmapAllocDepth (width height : Z) (p : Z)
  | BuildUiFont (p : Z)
  | PaletteInit (r : Z)
  | FreeGfx (p : Z)
  | OsdCloseDisplay
  | TilemapInit
  | TilemapClose
  | VideoStart (r : Z)
  | VideoStop
  | SoundStart (r : Z)
  | DisposeRegions
  | ArtworkEnable (on : Z)
  | ShowGameWarnings
  | ShowCopyright
  | SetPauseAction
  | MemoryShutdown
  | FreeMemoryRegions
  | ChdCloseAll
  | CpuExit
  | StateSaveReset
  | AlphaInit.

(** The constants of [driver.h] that the start-up code uses. *)
Record driver_h : Type := mkConstants {
  MAX_GFX_ELEMENTS : nat;
  VIDEO_TYPE_VECTOR : Z;
  VIDEO_DUAL_MONITOR : Z;
  VIDEO_RGB_DIRECT : Z;
  VIDEO_NEEDS_6BITS_PER_GUN : Z;
  ROT0 : Z
}.

(** The members of [struct GameOptions options] that the start-up code
    reads. *)
Record GameOptions : Type := mkOptions {
  opt_record : Z;
  opt_playback : Z;
  opt_mame_debug : Z;
  opt_color_depth : Z;
  opt_samplerate : Z;
  opt_ui_orientation : Z;
  opt_skip_disclaimer : Z;
  opt_skip_warnings : Z
}.

(** What the rest of the emulator answers during one start-up, with
    the constants of [driver.h] and [drawgfx.h] and the options. *)
Record world : Type := mkWorld {
  header : Gfx.drawgfx_h;
  constants : driver_h;
  options : GameOptions;
  w_osd_init : Z;
  w_uistring_init : Z;
  w_code_init : Z;
  w_input_port_allocate : Z;           (* first call: the live ports *)
  w_input_port_allocate_default : Z;   (* second call: the default ports *)
  w_rom_load : Z;
  w_load_input_port_settings : Z;
  w_memory_init : Z;
  w_palette_start : Z;
  w_memory_region_length : Z -> Z;
  w_memory_region : Z -> Z;
  w_decodegfx : nat -> Gfx.GfxLayout -> Z;
  w_uninitialised_aspect : Z * Z;      (* params.aspect_x, params.aspect_y before they are set *)
  w_artwork_create_display : Z;
  w_auto_bitmap_alloc_depth : Z;
  w_builduifont : Z;
  w_palette_init : Z;
  w_video_start : Z;
  w_sound_start : Z
}.

(** A slot of [Machine->gfx[]] with the two members of the element that
    [decode_graphics] writes. *)
Record gfx_slot : Type := mkSlot {
  element : Z;
  colortable : option Z;   (* Some i: &Machine->remapped_colortable[i] *)
  total_colors : Z
}.
Definition empty_slot : gfx_slot := mkSlot 0 None 0.

(** The session: members of [Machine] and the globals that [mame.c]
    writes during start-up. *)
Record session : Type := mkSession {
  gamedrv : option GameDriver;              (* Machine->gamedrv and the static gamedrv *)
  internal_drv : InternalMachineDriver;     (* what Machine->drv points to *)
  input_ports : Z;                          (* Machine->input_ports *)
  input_ports_default : Z;                  (* Machine->input_ports_default *)
  gfx : list gfx_slot;                      (* Machine->gfx[MAX_GFX_ELEMENTS] *)
  remapped_colortable : Z;                  (* Machine->remapped_colortable *)
  scrbitmap : Z;                            (* Machine->scrbitmap *)
  uifont : Z;                               (* Machine->uifont *)
  debugger_font : Z;                        (* Machine->debugger_font *)
  color_depth : Z;                          (* Machine->color_depth *)
  sample_rate : Z;                          (* Machine->sample_rate *)
  orientation : Z;                          (* Machine->orientation *)
  ui_orientation : Z;                       (* Machine->ui_orientation *)
  video : Video.state;                      (* visible areas and the video statics *)
  record : Z;                               (* void *record *)
  playback : Z;                             (* void *playback *)
  mame_debug : Z;                           (* int mame_debug *)
  alpha_active : Z;                         (* the global alpha_active *)
  bailing : Z;                              (* int bailing *)
  settingsloaded : Z;                       (* static int settingsloaded *)
  leds_status : Z;                          (* static int leds_status *)
  game_loaded : Z;                          (* static int game_loaded *)
  log : list call                           (* calls made so far *)
}.

Definition set_gamedrv (v : option GameDriver) (s : session) : session :=
  mkSession v (internal_drv s) (input_ports s) (input_ports_default s) (gfx s)
  (remapped_colortable s) (scrbitmap s) (uifont s) (debugger_font s) (color_depth s)
  (sample_rate s) (orientation s) (ui_orientation s) (video s) (record s) (playback s)
  (mame_debug s) (alpha_active s) (bailing s) (settingsloaded s) (leds_status s)
  (game_loaded s) (log s).
Definition set_internal_drv (v : InternalMachineDriver) (s : session) : session :=
  mkSession (gamedrv s) v (input_ports s) (input_ports_default s) (gfx s)
  (remapped_colortable s) (scrbitmap s) (uifont s) (debugger_font s) (color_depth s)
  (sample_rate s) (orientation s) (ui_orientation s) (video s) (record s) (playback s)
  (mame_debug s) (alpha_active s) (bailing s) (settingsloaded s) (leds_status s)
  (game_loaded s) (log s).
Definition set_input_ports (v : Z) (s : session) : session :=
  mkSession (gamedrv s) (internal_drv s) v (input_ports_default s) (gfx s)
  (remapped_colortable s) (scrbitmap s) (uifont s) (debugger_font s) (color_depth s)
  (sample_rate s) (orientation s) (ui_orientation s) (video s) (record s) (playback s)
  (mame_debug s) (alpha_active s) (bailing s) (settingsloaded s) (leds_status s)
  (game_loaded s) (log s).
Definition set_input_ports_default (v : Z) (s : session) : session :=
  mkSession (gamedrv s) (internal_drv s) (input_ports s) v (gfx s)
  (remapped_colortable s) (scrbitmap s) (uifont s) (debugger_font s) (color_depth s)
  (sample_rate s) (orientation s) (ui_orientation s) (video s) (record s) (playback s)
  (mame_debug s) (alpha_active s) (bailing s) (settingsloaded s) (leds_status s)
  (game_loaded s) (log s).
Definition set_gfx (v : list gfx_slot) (s : session) : session :=
  mkSession (gamedrv s) (internal_drv s) (input_ports s) (input_ports_default s) v
  (remapped_colortable s) (scrbitmap s) (uifont s) (debugger_font s) (color_depth s)
  (sample_rate s) (orientation s) (ui_orientation s) (video s) (record s) (playback s)
  (mame_debug s) (alpha_active s) (bailing s) (settingsloaded s) (leds_status s)
  (game_loaded s) (log s).
Definition set_remapped_colortable (v : Z) (s : session) : session :=
  mkSession (gamedrv s) (internal_drv s) (input_ports s) (input_ports_default s)
  (gfx s) v (scrbitmap s) (uifont s) (debugger_font s) (color_depth s) (sample_rate s)
  (orientation s) (ui_orientation s) (video s) (record s) (playback s) (mame_debug s)
  (alpha_active s) (bailing s) (settingsloaded s) (leds_status s) (game_loaded s)
  (log s).
Definition set_scrbitmap (v : Z) (s : session) : session :=
  mkSession (gamedrv s) (internal_drv s) (input_ports s) (input_ports_default s)
  (gfx s) (remapped_colortable s) v (uifont s) (debugger_font s) (color_depth s)
  (sample_rate s) (orientation s) (ui_orientation s) (video s) (record s) (playback s)
  (mame_debug s) (alpha_active s) (bailing s) (settingsloaded s) (leds_status s)
  (game_loaded s) (log s).
Definition set_uifont (v : Z) (s : session) : session :=
  mkSession (gamedrv s) (internal_drv s) (input_ports s) (input_ports_default s)
  (gfx s) (remapped_colortable s) (scrbitmap s) v (debugger_font s) (color_depth s)
  (sample_rate s) (orientation s) (ui_orientation s) (video s) (record s) (playback s)
  (mame_debug s) (alpha_active s) (bailing s) (settingsloaded s) (leds_status s)
  (game_loaded s) (log s).
Definition set_debugger_font (v : Z) (s : session) : session :=
  mkSession (gamedrv s) (internal_drv s) (input_ports s) (input_ports_default s)
  (gfx s) (remapped_colortable s) (scrbitmap s) (uifont s) v (color_depth s)
  (sample_rate s) (orientation s) (ui_orientation s) (video s) (record s) (playback s)
  (mame_debug s) (alpha_active s) (bailing s) (settingsloaded s) (leds_status s)
  (game_loaded s) (log s).
Definition set_color_depth (v : Z) (s : session) : session :=
  mkSession (gamedrv s) (internal_drv s) (input_ports s) (input_ports_default s)
  (gfx s) (remapped_colortable s) (scrbitmap s) (uifont s) (debugger_font s) v
  (sample_rate s) (orientation s) (ui_orientation s) (video s) (record s) (playback s)
  (mame_debug s) (alpha_active s) (bailing s) (settingsloaded s) (leds_status s)
  (game_loaded s) (log s).
Definition set_sample_rate (v : Z) (s : session) : session :=
  mkSession (gamedrv s) (internal_drv s) (input_ports s) (input_ports_default s)
  (gfx s) (remapped_colortable s) (scrbitmap s) (uifont s) (debugger_font s)
  (color_depth s) v (orientation s) (ui_orientation s) (video s) (record s)
  (playback s) (mame_debug s) (alpha_active s) (bailing s) (settingsloaded s)
  (leds_status s) (game_loaded s) (log s).
Definition set_orientation (v : Z) (s : session) : session :=
  mkSession (gamedrv s) (internal_drv s) (input_ports s) (input_ports_default s)
  (gfx s) (remapped_colortable s) (scrbitmap s) (uifont s) (debugger_font s)
  (color_depth s) (sample_rate s) v (ui_orientation s) (video s) (record s)
  (playback s) (mame_debug s) (alpha_active s) (bailing s) (settingsloaded s)
  (leds_status s) (game_loaded s) (log s).
Definition set_ui_orientation (v : Z) (s : session) : session :=
  mkSession (gamedrv s) (internal_drv s) (input_ports s) (input_ports_default s)
  (gfx s) (remapped_colortable s) (scrbitmap s) (uifont s) (debugger_font s)
  (color_depth s) (sample_rate s) (orientation s) v (video s) (record s) (playback s)
  (mame_debug s) (alpha_active s) (bailing s) (settingsloaded s) (leds_status s)
  (game_loaded s) (log s).
Definition set_video (v : Video.state) (s : session) : session :=
  mkSession (gamedrv s) (internal_drv s) (input_ports s) (input_ports_default s)
  (gfx s) (remapped_colortable s) (scrbitmap s) (uifont s) (debugger_font s)
  (color_depth s) (sample_rate s) (orientation s) (ui_orientation s) v (record s)
  (playback s) (mame_debug s) (alpha_active s) (bailing s) (settingsloaded s)
  (leds_status s) (game_loaded s) (log s).
Definition set_record (v : Z) (s : session) : session :=
  mkSession (gamedrv s) (internal_drv s) (input_ports s) (input_ports_default s)
  (gfx s) (remapped_colortable s) (scrbitmap s) (uifont s) (debugger_font s)
  (color_depth s) (sample_rate s) (orientation s) (ui_orientation s) (video s) v
  (playback s) (mame_debug s) (alpha_active s) (bailing s) (settingsloaded s)
  (leds_status s) (game_loaded s) (log s).
Definition set_playback (v : Z) (s : session) : session :=
  mkSession (gamedrv s) (internal_drv s) (input_ports s) (input_ports_default s)
  (gfx s) (remapped_colortable s) (scrbitmap s) (uifont s) (debugger_font s)
  (color_depth s) (sample_rate s) (orientation s) (ui_orientation s) (video s)
  (record s) v (mame_debug s) (alpha_active s) (bailing s) (settingsloaded s)
  (leds_status s) (game_loaded s) (log s).
Definition set_mame_debug (v : Z) (s : session) : session :=
  mkSession (gamedrv s) (internal_drv s) (input_ports s) (input_ports_default s)
  (gfx s) (remapped_colortable s) (scrbitmap s) (uifont s) (debugger_font s)
  (color_depth s) (sample_rate s) (orientation s) (ui_orientation s) (video s)
  (record s) (playback s) v (alpha_active s) (bailing s) (settingsloaded s)
  (leds_status s) (game_loaded s) (log s).
Definition set_alpha_active (v : Z) (s : session) : session :=
  mkSession (gamedrv s) (internal_drv s) (input_ports s) (input_ports_default s)
  (gfx s) (remapped_colortable s) (scrbitmap s) (uifont s) (debugger_font s)
  (color_depth s) (sample_rate s) (orientation s) (ui_orientation s) (video s)
  (record s) (playback s) (mame_debug s) v (bailing s) (settingsloaded s)
  (leds_status s) (game_loaded s) (log s).
Definition set_bailing (v : Z) (s : session) : session :=
  mkSession (gamedrv s) (internal_drv s) (input_ports s) (input_ports_default s)
  (gfx s) (remapped_colortable s) (scrbitmap s) (uifont s) (debugger_font s)
  (color_depth s) (sample_rate s) (orientation s) (ui_orientation s) (video s)
  (record s) (playback s) (mame_debug s) (alpha_active s) v (settingsloaded s)
  (leds_status s) (game_loaded s) (log s).
Definition set_settingsloaded (v : Z) (s : session) : session :=
  mkSession (gamedrv s) (internal_drv s) (input_ports s) (input_ports_default s)
  (gfx s) (remapped_colortable s) (scrbitmap s) (uifont s) (debugger_font s)
  (color_depth s) (sample_rate s) (orientation s) (ui_orientation s) (video s)
  (record s) (playback s) (mame_debug s) (alpha_active s) (bailing s) v (leds_status s)
  (game_loaded s) (log s).
Definition set_leds_status (v : Z) (s : session) : session :=
  mkSession (gamedrv s) (internal_drv s) (input_ports s) (input_ports_default s)
  (gfx s) (remapped_colortable s) (scrbitmap s) (uifont s) (debugger_font s)
  (color_depth s) (sample_rate s) (orientation s) (ui_orientation s) (video s)
  (record s) (playback s) (mame_debug s) (alpha_active s) (bailing s)
  (settingsloaded s) v (game_loaded s) (log s).
Definition set_game_loaded (v : Z) (s : session) : session :=
  mkSession (gamedrv s) (internal_drv s) (input_ports s) (input_ports_default s)
  (gfx s) (remapped_colortable s) (scrbitmap s) (uifont s) (debugger_font s)
  (color_depth s) (sample_rate s) (orientation s) (ui_orientation s) (video s)
  (record s) (playback s) (mame_debug s) (alpha_active s) (bailing s)
  (settingsloaded s) (leds_status s) v (log s).
Definition set_log (v : list call) (s : session) : session :=
  mkSession (gamedrv s) (internal_drv s) (input_ports s) (input_ports_default s)
  (gfx s) (remapped_colortable s) (scrbitmap s) (uifont s) (debugger_font s)
  (color_depth s) (sample_rate s) (orientation s) (ui_orientation s) (video s)
  (record s) (playback s) (mame_debug s) (alpha_active s) (bailing s)
  (settingsloaded s) (leds_status s) (game_loaded s) v.

(** Statements: a result and the session afterwards. *)
Definition M (A : Type) : Type := session -> A * session.
Definition ret {A : Type} (a : A) : M A := fun s => (a, s).
Definition bind {A B : Type} (c : M A) (k : A -> M B) : M B :=
  fun s => let (a, s') := c s in k a s'.
Definition get {A : Type} (f : session -> A) : M A := fun s => (f s, s).
Definition modify (f : session -> session) : M unit := fun s => (tt, f s).
Definition emit (c : call) : M unit := modify (fun s => set_log (log s ++ [c]) s).
(** A call whose result [r] the world supplies. *)
Definition ask (c : Z -> call) (r : Z) : M Z := bind (emit (c r)) (fun _ => ret r).

Declare Scope stmt_scope.
Delimit Scope stmt_scope with stmt.
Notation "x <- c ;; k" := (bind c (fun x => k))
  (at level 61, c at next level, right associativity) : stmt_scope.
Notation "c ;; k" := (bind c (fun _ => k))
  (at level 61, right associativity) : stmt_scope.
Notation "'when' b 'then' c" := (if b then c else ret tt)
  (at level 60, b at level 9, c at level 60) : stmt_scope.
Local Open Scope stmt_scope.

Definition nonzero (z : Z) : bool := negb (z =? 0).

(** [bail_and_print(message)] *)
Definition bail_and_print (message : string) : M unit :=
  b <- get bailing ;;
  when (b =? 0) then (modify (set_bailing 1) ;; emit (Printf message)).

Section Startup.
Context (w : world).

(** *** init_machine *)

(** The labels at the end of [init_machine]; each falls through to the next. *)
Definition cant_init_input : M Z := ret 1.
Definition cant_allocate_input_ports : M Z :=
  emit CodeClose ;;
  cant_init_input.
Definition cant_allocate_input_ports_default : M Z :=
  p <- get input_ports ;;
  emit (InputPortFree p) ;;
  modify (set_input_ports 0) ;;
  cant_allocate_input_ports.
Definition cant_load_roms : M Z :=
  p <- get input_ports_default ;;
  emit (InputPortFree p) ;;
  modify (set_input_ports_default 0) ;;
  cant_allocate_input_ports_default.
Definition cant_init_memory : M Z := cant_load_roms.

(** From [chd_set_interface] to the end of the function body. *)
Definition init_machine_after_ports (gd : GameDriver) : M Z :=
  emit ChdSetInterface ;;
  r <- (if nonzero (rom gd) then ask RomLoad (w_rom_load w) else ret 0) ;;
  if nonzero r then
    emit (Logerror "readroms failed") ;;
    cant_load_roms
  else
    emit TimerInit ;;
    emit CpuInitRefreshTimer ;;
    emit CpuInit ;;
    l <- ask LoadInputPortSettings (w_load_input_port_settings w) ;;
    modify (set_settingsloaded l) ;;
    r <- ask MemoryInit (w_memory_init w) ;;
    if r =? 0 then
      emit (Logerror "memory_init failed") ;;
      cant_init_memory
    else
      when (driver_init gd) then (emit DriverInit) ;;
      ret 0.

(** [init_machine()]; [gd] is the driver the static [gamedrv] points to. *)
Definition init_machine (gd : GameDriver) : M Z :=
  r <- ask UistringInit (w_uistring_init w) ;;
  if nonzero r then
    emit (Logerror "uistring_init failed") ;;
    cant_init_input
  else
    r <- ask CodeInit (w_code_init w) ;;
    if nonzero r then
      emit (Logerror "code_init failed") ;;
      cant_init_input
    else if nonzero (Driver.input_ports gd) then
      p <- ask InputPortAllocate (w_input_port_allocate w) ;;
      modify (set_input_ports p) ;;
      if p =? 0 then
        emit (Logerror "could not allocate Machine->input_ports") ;;
        cant_allocate_input_ports
      else
        p <- ask InputPortAllocate (w_input_port_allocate_default w) ;;
        modify (set_input_ports_default p) ;;
        if p =? 0 then
          emit (Logerror "could not allocate Machine->input_ports_default") ;;
          cant_allocate_input_ports_default
        else init_machine_after_ports gd
    else init_machine_after_ports gd.

(** [shutdown_machine()] *)
Definition shutdown_machine : M unit :=
  emit MemoryShutdown ;;
  emit FreeMemoryRegions ;;
  emit ChdCloseAll ;;
  emit CpuExit ;;
  p <- get input_ports ;;
  emit (InputPortFree p) ;;
  p <- get input_ports_default ;;
  emit (InputPortFree p) ;;
  emit CodeClose ;;
  emit StateSaveReset.

(** *** Video bring-up *)

Definition set_slot (i : nat) (v : gfx_slot) (l : list gfx_slot) : list gfx_slot :=
  firstn i l ++ v :: skipn (S i) l.

(** The element loop of [decode_graphics], entered at index [i] with
    [infos] the array from that index on and [fuel] the indices left
    below [MAX_GFX_ELEMENTS].  The array ends with an entry whose
    region is [-1]. *)
Fixpoint decode_graphics_from (fuel i : nat) (infos : list Gfx.GfxDecodeInfo) : M Z :=
  match fuel, infos with
  | S fuel', info :: rest =>
      if Gfx.memory_region info =? -1 then ret 0
      else
        let glcopy :=
          Gfx.resolve_layout (header w)
            (w_memory_region_length w (Gfx.memory_region info)) info in
        let p := w_decodegfx w i glcopy in
        emit (DecodeGfx i (w_memory_region w (Gfx.memory_region info) + Gfx.start info)
                        glcopy p) ;;
        modify (fun s => set_gfx (set_slot i (mkSlot p None 0) (gfx s)) s) ;;
        if p =? 0 then
          modify (set_bailing 1) ;;
          emit (Printf "Out of memory decoding gfx") ;;
          ret 1
        else
          rc <- get remapped_colortable ;;
          modify (fun s => set_gfx
            (set_slot i (mkSlot p
                           (if nonzero rc then Some (Gfx.color_codes_start info) else None)
                           (Gfx.total_color_codes info)) (gfx s)) s) ;;
          decode_graphics_from fuel' (S i) rest
  | _, _ => ret 0
  end.

Definition decode_graphics (infos : list Gfx.GfxDecodeInfo) : M Z :=
  decode_graphics_from (MAX_GFX_ELEMENTS (constants w)) 0%nat infos.

(** [vh_close()] *)
Definition vh_close : M unit :=
  g <- get gfx ;;
  modify (fun s => set_log (log s ++ map (fun sl => FreeGfx (element sl))
                                        (firstn (MAX_GFX_ELEMENTS (constants w)) g)) s) ;;
  modify (set_gfx (map (fun _ => empty_slot) (firstn (MAX_GFX_ELEMENTS (constants w)) g)
                   ++ skipn (MAX_GFX_ELEMENTS (constants w)) g)) ;;
  f <- get uifont ;;
  when (nonzero f) then (emit (FreeGfx f) ;; modify (set_uifont 0)) ;;
  f <- get debugger_font ;;
  when (nonzero f) then (emit (FreeGfx f) ;; modify (set_debugger_font 0)) ;;
  emit OsdCloseDisplay.

(** Every failure label of [vh_open]. *)
Definition cant_start_palette : M Z := vh_close ;; ret 1.

Definition set_visible_area (a b c d : Z) : M unit :=
  modify (fun s => set_video (Video.set_visible_area a b c d (video s)) s).

(** [vh_open()] *)
Definition vh_open : M Z :=
  d <- get internal_drv ;;
  let bmwidth := screen_width d in
  let bmheight := screen_height d in
  r <- ask PaletteStart (w_palette_start w) ;;
  if nonzero r then cant_start_palette
  else
    r <- match gfxdecodeinfo d with
         | Some infos => decode_graphics infos
         | None => ret 0
         end ;;
    if nonzero r then cant_start_palette
    else
      let va := default_visible_area d in
      let width :=
        if Z.land (video_attributes d) (VIDEO_TYPE_VECTOR (constants w)) =? 0
        then int_add (int_sub (Video.max_x va) (Video.min_x va)) 1 else bmwidth in
      let height :=
        if Z.land (video_attributes d) (VIDEO_TYPE_VECTOR (constants w)) =? 0
        then int_add (int_sub (Video.max_y va) (Video.min_y va)) 1 else bmheight in
      let aspect :=
        Aspect.compute_aspect_ratio (VIDEO_DUAL_MONITOR (constants w)) d (w_uninitialised_aspect w) in
      emit PaletteGetTotalColorsWithUi ;;
      r <- ask (ArtworkCreateDisplay width height (fst aspect) (snd aspect))
               (w_artwork_create_display w) ;;
      if nonzero r then cant_start_palette
      else
        p <- ask (AutoBitmapAllocDepth bmwidth bmheight) (w_auto_bitmap_alloc_depth w) ;;
        modify (set_scrbitmap p) ;;
        if p =? 0 then cant_start_palette
        else
          set_visible_area 0 1 0 1 ;;
          set_visible_area (Video.min_x va) (Video.max_x va) (Video.min_y va) (Video.max_y va) ;;
          f <- ask BuildUiFont (w_builduifont w) ;;
          modify (set_uifont f) ;;
          if f =? 0 then cant_start_palette
          else
            r <- ask PaletteInit (w_palette_init w) ;;
            if nonzero r then cant_start_palette
            else
              modify (set_leds_status 0) ;;
              ret 0.

(** *** run_machine *)

(** [run_machine_core()] *)
Definition run_machine_core : M unit :=
  emit (ArtworkEnable 0) ;;
  l <- get settingsloaded ;;
  if nonzero l || nonzero (opt_skip_disclaimer (options w)) then
    if nonzero (opt_skip_warnings (options w)) then emit SetPauseAction
    else emit ShowGameWarnings
  else emit ShowCopyright.

(** [run_machine()] *)
Definition run_machine : M Z :=
  r <- vh_open ;;
  if nonzero r then
    bail_and_print "Unable to start video emulation" ;;
    ret 1
  else
    emit TilemapInit ;;
    d <- get internal_drv ;;
    r <- (if video_start d then ask VideoStart (w_video_start w) else ret 0) ;;
    if nonzero r then
      bail_and_print "Unable to start video emulation" ;;
      emit TilemapClose ;;
      vh_close ;;
      ret 1
    else
      r <- ask SoundStart (w_sound_start w) ;;
      if nonzero r then
        bail_and_print "Unable to start audio emulation" ;;
        when (video_stop d) then (emit VideoStop) ;;
        emit TilemapClose ;;
        vh_close ;;
        ret 1
      else
        emit DisposeRegions ;;
        run_machine_core ;;
        ret 0.

(** *** run_game *)

(** [init_game_options()] *)
Definition init_game_options : M Z :=
  modify (set_record (opt_record (options w))) ;;
  modify (set_playback (opt_playback (options w))) ;;
  modify (set_mame_debug (opt_mame_debug (options w))) ;;
  modify (set_color_depth 16) ;;
  modify (set_alpha_active 0) ;;
  d <- get internal_drv ;;
  when (nonzero (Z.land (video_attributes d) (VIDEO_RGB_DIRECT (constants w)))) then (
    (if nonzero (Z.land (video_attributes d) (VIDEO_NEEDS_6BITS_PER_GUN (constants w)))
     then modify (set_color_depth 32)
     else modify (set_color_depth 15)) ;;
    when ((opt_color_depth (options w) =? 15) || (opt_color_depth (options w) =? 32))
      then (modify (set_color_depth (opt_color_depth (options w)))) ;;
    modify (set_alpha_active 1) ;;
    emit AlphaInit) ;;
  modify (set_sample_rate (opt_samplerate (options w))) ;;
  modify (set_orientation (ROT0 (constants w))) ;;
  modify (set_ui_orientation (opt_ui_orientation (options w))) ;;
  ret 0.

(** [run_game(game)]; [gd] is [drivers[game]].  Of [active_machine],
    [memset(Machine, 0, sizeof(Machine))] clears the bytes of one
    pointer, which hold [gamedrv] (see [Memory.clean_machine]). *)
Definition run_game (gd : GameDriver) : M Z :=
  emit BeginResourceTracking ;;
  modify (set_gamedrv None) ;;
  modify (set_gamedrv (Some gd)) ;;
  modify (fun s => set_internal_drv
                     (expand_machine_driver (Driver.drv gd) (internal_drv s)) s) ;;
  r <- init_game_options ;;
  if nonzero r then ret 1
  else
    modify (set_bailing 0) ;;
    r <- ask OsdInit (w_osd_init w) ;;
    if nonzero r then
      bail_and_print "Unable to initialize system" ;;
      emit EndResourceTracking ;;
      ret 1
    else
      emit BeginResourceTracking ;;
      r <- init_machine gd ;;
      if nonzero r then
        bail_and_print "Unable to initialize machine emulation" ;;
        emit EndResourceTracking ;;
        emit OsdExit ;;
        emit EndResourceTracking ;;
        ret 1
      else
        r <- run_machine ;;
        if nonzero r then
          bail_and_print "Unable to start machine emulation" ;;
          shutdown_machine ;;
          emit EndResourceTracking ;;
          emit OsdExit ;;
          emit EndResourceTracking ;;
          ret 1
        else
          modify (set_game_loaded 1) ;;
          ret 0.

End Startup.

(** *** Reading the log *)

Definition is_printf (c : call) : bool :=
  match c with Printf _ => true | _ => false end.

(** Diagnostic messages printed so far. *)
Definition messages (l : list call) : nat := List.length (filter is_printf l).

(** The resources of the machine-initialisation stage that its
    rollback covers. *)
Variant resource : Type :=
  | InputSystem
  | Ports (p : Z).

Definition acquired (c : call) : list resource :=
  match c with
  | CodeInit r => if r =? 0 then [InputSystem] else []
  | InputPortAllocate p => if p =? 0 then [] else [Ports p]
  | _ => []
  end.

Definition released (c : call) : list resource :=
  match c with
  | CodeClose => [InputSystem]
  | InputPortFree p => if p =? 0 then [] else [Ports p]
  | _ => []
  end.

Definition acquisitions (l : list call) : list resource := flat_map acquired l.
Definition releases (l : list call) : list resource := flat_map released l.

Definition is_release_call (c : call) : bool :=
  match c with
  | CodeClose | InputPortFree _ => true
  | _ => false
  end.

(** Some sub-step of [init_machine] reports failure for driver [gd]. *)
Definition some_step_fails (w : world) (gd : GameDriver) : Prop :=
  w_uistring_init w <> 0
  \/ w_code_init w <> 0
  \/ (Driver.input_ports gd <> 0
      /\ (w_input_port_allocate w = 0 \/ w_input_port_allocate_default w = 0))
  \/ (rom gd <> 0 /\ w_rom_load w <> 0)
  \/ w_memory_init w = 0.

(** The calls up to the first release call, and those from it on. *)
Fixpoint before_release (l : list call) : list call :=
  match l with
  | [] => []
  | c :: rest => if is_release_call c then [] else c :: before_release rest
  end.

Fixpoint from_release (l : list call) : list call :=
  match l with
  | [] => []
  | c :: rest => if is_release_call c then l else from_release rest
  end.

(** What the stage can hold, in the order it acquires it: the input
    system, the live ports, the default ports. *)
Definition stage_resources (w : world) : list resource :=
  [InputSystem; Ports (w_input_port_allocate w);
   Ports (w_input_port_allocate_default w)].

(** The port members hold nothing at entry unless the driver declares
    ports (in which case both are assigned before any use). *)
Definition ports_clean (gd : GameDriver) (s : session) : Prop :=
  Driver.input_ports gd <> 0
  \/ (input_ports s = 0 /\ input_ports_default s = 0).

(** A driver with ports, ROMs, one graphics set and all callbacks, a
    fresh session, and a world in which everything succeeds except what
    the three arguments say: the results of [rom_load], of [decodegfx]
    and of [sound_start]. *)
Definition sample_layout : Gfx.GfxLayout :=
  Gfx.mkLayout 8 8 (Gfx.RGN_FRAC 1 4) 1 [Gfx.RGN_FRAC 1 2]
    [0; 1; 2; 3; 4; 5; 6; 7] [0; 8; 16; 24; 32; 40; 48; 56] 8.

Definition sample_driver : GameDriver :=
  mkGameDriver "sample" None
    (fun _ => mkMachineDriver 0 4 3 320 240 (Video.mkRect 0 319 0 239)
                (Some [Gfx.mkDecodeInfo 1 sample_layout 0 0 16;
                       Gfx.mkDecodeInfo (-1) sample_layout 0 0 0])
                true true)
    true 1 1.

Definition sample_world (rom decode sound : Z) : world :=
  mkWorld Gfx.sample_header
          (mkConstants 4 1 64 128 256 0)
          (mkOptions 0 0 0 0 48000 0 0 0)
          0 0 0 100 101 rom 1 1
          0 (fun _ => 4096) (fun r => r * 65536) (fun _ _ => decode) (0, 0)
          0 200 201 0 0 sound.

Definition fresh_session : session :=
  mkSession None zeroed_machine_driver 0 0 (repeat empty_slot 4) 0 0 0 0
            0 0 0 0 Video.initial_state 0 0 0 0 0 0 0 0 [].

(** What the message latch is about: the flag and the log. *)
Definition obs (s : session) : Z * list call := (bailing s, log s).

(** From any session observed as [o], statement [c] ends with a result
    and an observation that satisfy [Q]. *)
Definition wpo {A : Type} (c : M A) (Q : A -> Z * list call -> Prop)
    (o : Z * list call) : Prop :=
  forall s, obs s = o -> Q (fst (c s)) (obs (snd (c s))).

(** Log [l'] is log [l] with further calls, [k] of them messages. *)
Definition adds (k : nat) (l l' : list call) : Prop :=
  exists new, l' = l ++ new /\ messages new = k.

(** How [vh_open] can end, from latch [b] and log [l]: success in
    silence, or failure either in silence or with the latch set and one
    message printed. *)
Definition vh_open_post (b : Z) (l : list call) (r : Z) (o' : Z * list call) : Prop :=
  (r = 0 /\ fst o' = b /\ adds 0 l (snd o'))
  \/ (r = 1 /\ ((fst o' = b /\ adds 0 l (snd o'))
                \/ (fst o' = 1 /\ adds 1 l (snd o')))).

(** How a stage under the latch can end, from a clear latch and log
    [l]: success in silence, or failure with the latch set and one
    message printed. *)
Definition latched_post (l : list call) (r : Z) (o' : Z * list call) : Prop :=
  (r = 0 /\ fst o' = 0 /\ adds 0 l (snd o'))
  \/ (r = 1 /\ fst o' = 1 /\ adds 1 l (snd o')).

End Lifecycle.

(* ------------------------------------------------------------------ *)
(** ** CPU and sound slots of a machine driver *)

Module Registry.

(** What the six slot functions need of an array element: its type
    member ([cpu_type], [sound_type]; 0 marks a free slot), its [tag]
    (None for NULL), the three assignments of the add function, the
    element after [memset(..., 0, ...)], and the two messages. *)
Class Slot (E : Type) : Type := mkSlotOps {
  slot_type : E -> Z;
  slot_tag : E -> option string;
  slot_write : option string -> Z -> Z -> E -> E;
  slot_zero : E;
  out_of_message : string;
  cant_find_format : string;
  slot_type_write : forall t ty p e, slot_type (slot_write t ty p e) = ty;
  slot_tag_write : forall t ty p e, slot_tag (slot_write t ty p e) = t;
  slot_type_zero : slot_type slot_zero = 0;
  slot_tag_zero : slot_tag slot_zero = None
}.

(** [logerror(format, tag)] *)
Record logerror : Type := mkLogerror {
  format : string;
  argument : option string
}.

Section Generic.
Context {E : Type} {ops : Slot E}.

(** [machine->cpu[MAX_CPU]] or [machine->sound[MAX_SOUND]]: a list of
    all the slots; the loops of the functions run over the whole of it. *)

(** [tag && strcmp(tag, wanted) == 0] *)
Definition tag_matches (wanted : string) (e : E) : bool :=
  match slot_tag e with
  | Some t => String.eqb t wanted
  | None => false
  end.

(** The first index from [i] on whose slot is free. *)
Fixpoint first_free (i : nat) (slots : list E) : option nat :=
  match slots with
  | [] => None
  | e :: rest => if slot_type e =? 0 then Some i else first_free (S i) rest
  end.

(** The first index from [i] on whose slot carries the tag. *)
Fixpoint first_tagged (wanted : string) (i : nat) (slots : list E) : option nat :=
  match slots with
  | [] => None
  | e :: rest =>
      if tag_matches wanted e then Some i else first_tagged wanted (S i) rest
  end.

(** Assignment to the members of slot [i]. *)
Fixpoint update (i : nat) (f : E -> E) (slots : list E) : list E :=
  match slots, i with
  | [], _ => []
  | e :: rest, O => f e :: rest
  | e :: rest, S i' => e :: update i' f rest
  end.

(** The add function: the slot returned (None for NULL), the array
    afterwards, and what was logged. *)
Definition add (tag : option string) (type param : Z) (slots : list E)
  : option nat * list E * list logerror :=
  match first_free 0 slots with
  | Some i => (Some i, update i (slot_write tag type param) slots, [])
  | None => (None, slots, [mkLogerror out_of_message None])
  end.

(** The find function. *)
Definition find (tag : string) (slots : list E) : option nat * list logerror :=
  match first_tagged tag 0 slots with
  | Some i => (Some i, [])
  | None => (None, [mkLogerror cant_find_format (Some tag)])
  end.

(** [memmove(&a[i], &a[i + 1], sizeof(a[0]) * (MAX - i - 1));
     memset(&a[MAX - 1], 0, sizeof(a[0]));] *)
Definition close_gap (i : nat) (slots : list E) : list E :=
  firstn i slots ++ skipn (S i) slots ++ [slot_zero].

(** The remove function. *)
Definition remove (tag : string) (slots : list E) : list E * list logerror :=
  match first_tagged tag 0 slots with
  | Some i => (close_gap i slots, [])
  | None => (slots, [mkLogerror cant_find_format (Some tag)])
  end.

(** [mame_find_cpu_index]-style lookup: the index or -1, nothing logged. *)
Definition find_index (tag : string) (slots : list E) : Z :=
  match first_tagged tag 0 slots with
  | Some i => Z.of_nat i
  | None => -1
  end.

(** Slot [i] is the first one that satisfies the test [p]. *)
Definition first_at (p : E -> bool) (slots : list E) (i : nat) : Prop :=
  (exists e, nth_error slots i = Some e /\ p e = true)
  /\ forall j e, (j < i)%nat -> nth_error slots j = Some e -> p e = false.

(** Used slots first, free slots after them: a free slot is followed
    by free slots only. *)
Definition dense (slots : list E) : Prop :=
  forall i j ei ej, (i <= j)%nat ->
    nth_error slots i = Some ei -> nth_error slots j = Some ej ->
    slot_type ei = 0 -> slot_type ej = 0.

(** Number of slots that carry the tag. *)
Definition tagged (wanted : string) (slots : list E) : nat :=
  List.length (filter (tag_matches wanted) slots).

End Generic.

(** [struct MachineCPU]: the members the slot functions name, and
    [other_members] for the rest of the structure as a whole. *)
Module CPU.
Record MachineCPU : Type := mkCPU {
  cpu_type : Z;
  cpu_clock : Z;
  tag : option string;
  other_members : list Z
}.
End CPU.

(** [struct MachineSound] *)
Module Sound.
Record MachineSound : Type := mkSound {
  sound_type : Z;
  sound_interface : Z;
  tag : option string
}.
End Sound.

#[export] Instance cpu_slot : Slot CPU.MachineCPU :=
  mkSlotOps CPU.MachineCPU
    CPU.cpu_type CPU.tag
    (fun t ty clock e => CPU.mkCPU ty clock t (CPU.other_members e))
    (CPU.mkCPU 0 0 None [])
    "Out of CPU's!" "Can't find CPU '%s'!"
    (fun _ _ _ _ => eq_refl) (fun _ _ _ _ => eq_refl) eq_refl eq_refl.

#[export] Instance sound_slot : Slot Sound.MachineSound :=
  mkSlotOps Sound.MachineSound
    Sound.sound_type Sound.tag
    (fun t ty sndintf _ => Sound.mkSound ty sndintf t)
    (Sound.mkSound 0 0 None)
    "Out of sounds!" "Can't find sound '%s'!"
    (fun _ _ _ _ => eq_refl) (fun _ _ _ _ => eq_refl) eq_refl eq_refl.

(** Two CPUs in an array of four, and a sound array that is full. *)
Definition sample_cpus : list CPU.MachineCPU :=
  [CPU.mkCPU 1 4000000 (Some "main"%string) [7];
   CPU.mkCPU 2 3579545 (Some "sound"%string) [];
   CPU.mkCPU 0 0 None [];
   CPU.mkCPU 0 0 None []].

Definition sample_sounds : list Sound.MachineSound :=
  [Sound.mkSound 3 100 (Some "ym"%string); Sound.mkSound 4 200 None].

Definition machine_add_cpu (cpu : list CPU.MachineCPU) (tag : option string)
    (type cpuclock : Z) :=
  add tag type cpuclock cpu.
Definition machine_find_cpu (cpu : list CPU.MachineCPU) (tag : string) :=
  find tag cpu.
Definition machine_remove_cpu (cpu : list CPU.MachineCPU) (tag : string) :=
  remove tag cpu.
Definition mame_find_cpu_index (cpu : list CPU.MachineCPU) (tag : string) : Z :=
  find_index tag cpu.

Definition machine_add_sound (sound : list Sound.MachineSound) (tag : option string)
    (type sndintf : Z) :=
  add tag type sndintf sound.
Definition machine_find_sound (sound : list Sound.MachineSound) (tag : string) :=
  find tag sound.
Definition machine_remove_sound (sound : list Sound.MachineSound) (tag : string) :=
  remove tag sound.

End Registry.

(* ------------------------------------------------------------------ *)
(** ** The frame: drawing, blitting, LEDs, pause *)

Module Display.
Import CInt.

(** What [update_video_and_audio] takes from [mame.h]: the change
    flags it sets, and the type of the member [led_state] of
    [struct mame_display], given by what the type does to an [int]:
    [led_state_stored v] is the value of the member after
    [led_state = v], and [led_state_compared v] is the value [v] is
    compared as in [v != led_state] (the identity when the member's type
    promotes to [int], the conversion to the member's type otherwise). *)
Record mame_h : Type := mkFlags {
  GAME_BITMAP_CHANGED : Z;
  GAME_VISIBLE_AREA_CHANGED : Z;
  LED_STATE_CHANGED : Z;
  led_state_stored : Z -> Z;
  led_state_compared : Z -> Z
}.

(** The members of [struct mame_display] that [mame.c] writes. *)
Record mame_display : Type := mkDisplay {
  changed_flags : Z;
  game_bitmap : Z;
  game_bitmap_update : Video.rectangle;
  game_visible_area : Video.rectangle;
  led_state : Z
}.

(** Which of its two arguments [mame_pause] passes on as brightness:
    [options.pause_bright] or [1.00]. *)
Variant brightness : Type := PAUSE_BRIGHT | FULL_BRIGHT.

(** Calls made while a frame is shown, in program order; [Rendering]
    wraps the calls of the rendering functions. *)
Variant call : Type :=
  | Rendering (e : Video.event)
  | FillPriorityBitmap                (* fillbitmap(priority_bitmap, 0x00, NULL) *)
  | SoundUpdate
  | ProfilerMark (t : Video.profiler_tag)
  | HandleUserInterface (r : Z)
  | PaletteUpdateDisplay (d : mame_display)
  | ArtworkUpdateVideoAndAudio (d : mame_display)
  | VideoEof
  | OsdPause (pause : Z)
  | OsdSoundEnable (on : Z)
  | PaletteSetGlobalBrightnessAdjust (b : brightness).

(** The globals of the frame functions. *)
Record state : Type := mkDisplayState {
  video : Video.state;                 (* visible areas and the video statics *)
  scrbitmap : Z;                       (* Machine->scrbitmap *)
  current_display : mame_display;      (* static current_display *)
  leds_status : Z;                     (* static int leds_status *)
  gbPriorityBitmapIsDirty : Z;
  ui_dirty : Z;
  log : list call
}.

Definition set_video v d := mkDisplayState v (scrbitmap d) (current_display d)
  (leds_status d) (gbPriorityBitmapIsDirty d) (ui_dirty d) (log d).
Definition set_current_display v d := mkDisplayState (video d) (scrbitmap d) v
  (leds_status d) (gbPriorityBitmapIsDirty d) (ui_dirty d) (log d).
Definition set_leds_status v d := mkDisplayState (video d) (scrbitmap d)
  (current_display d) v (gbPriorityBitmapIsDirty d) (ui_dirty d) (log d).
Definition set_priority_dirty v d := mkDisplayState (video d) (scrbitmap d)
  (current_display d) (leds_status d) v (ui_dirty d) (log d).
Definition set_ui_dirty v d := mkDisplayState (video d) (scrbitmap d)
  (current_display d) (leds_status d) (gbPriorityBitmapIsDirty d) v (log d).
Definition emit (c : list call) d := mkDisplayState (video d) (scrbitmap d)
  (current_display d) (leds_status d) (gbPriorityBitmapIsDirty d) (ui_dirty d)
  (log d ++ c).

(** A rendering function run on the video statics; the calls it makes
    enter the log in their place. *)
Definition render (f : Video.state -> Video.state) (d : state) : state :=
  let v' := f (video d) in
  emit (map Rendering (skipn (length (Video.log (video d))) (Video.log v')))
       (set_video v' d).

Definition set_visible_area (a b c e : Z) : state -> state :=
  render (Video.set_visible_area a b c e).
Definition schedule_full_refresh : state -> state :=
  render Video.schedule_full_refresh.
Definition reset_partial_updates : state -> state :=
  render Video.reset_partial_updates.
Definition force_partial_update (skip : bool) (scanline : Z) : state -> state :=
  render (Video.force_partial_update skip scanline).

(** [draw_screen()]; [skip] is the answer of [osd_skip_this_frame()]
    inside [force_partial_update]. *)
Definition draw_screen (skip : bool) (d : state) : state :=
  let d := force_partial_update skip (Video.max_y (Video.visible_area (video d))) d in
  if negb (gbPriorityBitmapIsDirty d =? 0)
  then set_priority_dirty 0 (emit [FillPriorityBitmap] d)
  else d.

Definition set_changed_flags (v : Z) (m : mame_display) : mame_display :=
  mkDisplay v (game_bitmap m) (game_bitmap_update m) (game_visible_area m) (led_state m).

Definition set_visible_area_changed (v : Z) (s : Video.state) : Video.state :=
  Video.mkState (Video.visible_area s) (Video.absolute_visible_area s) v
    (Video.full_refresh_pending s) (Video.last_partial_scanline s)
    (Video.partial_updates_this_frame s) (Video.log s).

(** The display as [update_video_and_audio] fills it in before it hands
    it to the palette code. *)
Definition filled_display (h : mame_h) (skipped_it : bool) (d : state) : mame_display :=
  let cur := current_display d in
  let flags := 0 in
  let flags := if skipped_it then flags else Z.lor flags (GAME_BITMAP_CHANGED h) in
  let flags :=
    if negb (Video.visible_area_changed (video d) =? 0)
    then Z.lor flags (GAME_VISIBLE_AREA_CHANGED h) else flags in
  let leds_differ :=
    negb (led_state_compared h (leds_status d) =? led_state cur) in
  let flags := if leds_differ then Z.lor flags (LED_STATE_CHANGED h) else flags in
  mkDisplay flags (scrbitmap d)
            (Video.absolute_visible_area (video d))
            (Video.absolute_visible_area (video d))
            (if leds_differ then led_state_stored h (leds_status d)
             else led_state cur).

(** [update_video_and_audio()]; [skipped_it] is what
    [osd_skip_this_frame()] answers; [palette_update_display] and
    [artwork_update_video_and_audio] are what the palette and the
    artwork code leave in the display they are given a pointer to. *)
Definition update_video_and_audio (h : mame_h) (skipped_it : bool)
    (palette_update_display artwork_update_video_and_audio :
       mame_display -> mame_display) (d : state) : state :=
  let filled := filled_display h skipped_it d in
  let updated := palette_update_display filled in
  let d := emit [PaletteUpdateDisplay filled; ArtworkUpdateVideoAndAudio updated]
                (set_current_display (artwork_update_video_and_audio updated) d) in
  let d := set_video (set_visible_area_changed 0 (video d)) d in
  if negb (ui_dirty d =? 0) then set_ui_dirty (int_sub (ui_dirty d) 1) d else d.

(** What the collaborators answer during one [updatescreen]. *)
Record frame_answers : Type := mkAnswers {
  skip_in_updatescreen : bool;
  skip_in_force_partial_update : bool;
  skip_in_update_video_and_audio : bool;
  handle_user_interface : Z;
  palette_update_display : mame_display -> mame_display;
  artwork_update_video_and_audio : mame_display -> mame_display;
  video_eof : bool                     (* Machine->drv->video_eof is set *)
}.

(** [updatescreen()]; the user-interface bitmap that
    [artwork_get_ui_bitmap()] hands to [handle_user_interface] is not
    recorded. *)
Definition updatescreen (h : mame_h) (a : frame_answers) (d : state) : Z * state :=
  let d := emit [SoundUpdate] d in
  let d :=
    if skip_in_updatescreen a then d
    else emit [ProfilerMark Video.PROFILER_END]
           (draw_screen (skip_in_force_partial_update a)
              (emit [ProfilerMark Video.PROFILER_VIDEO] d)) in
  let d := emit [HandleUserInterface (handle_user_interface a)] d in
  if negb (handle_user_interface a =? 0) then (1, d)
  else
    let d := update_video_and_audio h (skip_in_update_video_and_audio a)
               (palette_update_display a) (artwork_update_video_and_audio a) d in
    let d :=
      if video_eof a
      then emit [ProfilerMark Video.PROFILER_VIDEO; VideoEof;
                 ProfilerMark Video.PROFILER_END] d
      else d in
    (0, d).

(** [set_led_status(num, on)]; [1 << num] is an [int]. *)
Definition set_led_status (num on : Z) (d : state) : state :=
  if negb (on =? 0)
  then set_leds_status (Z.lor (leds_status d) (to_int (Z.shiftl 1 num))) d
  else set_leds_status (Z.land (leds_status d) (Z.lnot (to_int (Z.shiftl 1 num)))) d.


(** *** Reading a rendering log *)

(** The call draws row [y]. *)
Definition draws_row (y : Z) (e : Video.event) : bool :=
  match e with
  | Video.EvVideoUpdate clip => (Video.min_y clip <=? y) && (y <=? Video.max_y clip)
  | _ => false
  end.

(** How many times row [y] has been drawn. *)
Definition row_draws (y : Z) (l : list Video.event) : nat :=
  List.length (filter (draws_row y) l).

Definition is_fill (e : Video.event) : bool :=
  match e with Video.EvFillBitmapBlack => true | _ => false end.

(** How many times the bitmap has been cleared. *)
Definition fills (l : list Video.event) : nat := List.length (filter is_fill l).

(** Rows of the visible area that a frame has drawn when its last
    partial scanline is [last]: rows are counted from scanline 0. *)
Definition row_done (va : Video.rectangle) (first last : Z) (y : Z) : bool :=
  (Z.max first (Video.min_y va) <=? y) && (y <=? Z.min (last - 1) (Video.max_y va)).

Definition is_display_update (c : call) : bool :=
  match c with ArtworkUpdateVideoAndAudio _ => true | _ => false end.
Definition is_rendering (c : call) : bool :=
  match c with Rendering _ => true | _ => false end.
Definition is_user_interface (c : call) : bool :=
  match c with HandleUserInterface _ => true | _ => false end.

(** How many times the display has been handed to the artwork code. *)
Definition display_updates (l : list call) : nat :=
  List.length (filter is_display_update l).

(** The flag word has all the bits of [flag]. *)
Definition reports (flag : Z) (m : mame_display) : Prop :=
  Z.land (changed_flags m) flag = flag.
(** The flag word has none of the bits of [flag]. *)
Definition silent_on (flag : Z) (m : mame_display) : Prop :=
  Z.land (changed_flags m) flag = 0.

(** The three flags are non-empty sets of bits without a common bit. *)
Definition flags_distinct (h : mame_h) : Prop :=
  GAME_BITMAP_CHANGED h <> 0 /\ GAME_VISIBLE_AREA_CHANGED h <> 0
  /\ LED_STATE_CHANGED h <> 0
  /\ Z.land (GAME_BITMAP_CHANGED h) (GAME_VISIBLE_AREA_CHANGED h) = 0
  /\ Z.land (GAME_BITMAP_CHANGED h) (LED_STATE_CHANGED h) = 0
  /\ Z.land (GAME_VISIBLE_AREA_CHANGED h) (LED_STATE_CHANGED h) = 0.

(** An LED word keeps its value in the member [led_state]. *)
Definition led_word_fits (h : mame_h) (v : Z) : Prop :=
  led_state_stored h v = v /\ led_state_compared h v = v.

(** Sample flags, with an 8-bit unsigned [led_state]. *)
Definition sample_flags : mame_h :=
  mkFlags 1 4 128 (fun v => v mod 256) (fun v => v).

Definition sample_state : state :=
  mkDisplayState
    (Video.mkState (Video.mkRect 0 319 0 239) (Video.mkRect 0 319 0 239) 0 0 0 0 [])
    200 (mkDisplay 0 0 (Video.mkRect 0 0 0 0) (Video.mkRect 0 0 0 0) 0) 0 0 0 [].

End Display.

(* ------------------------------------------------------------------ *)
(** ** The end of a session *)

Module Session.
Import Driver Lifecycle.
Local Open Scope stmt_scope.

(** Calls made while the emulation is started and torn down, in program
    order; [Machine] wraps the calls that the start-up code makes as
    well. *)
Variant call : Type :=
  | Machine (c : Lifecycle.call)
  | CpuRunDone
  | SoundStop
  | NvramOpen (gamename : string) (openforwrite : Z) (file : Z)
      (* mame_fopen(gamename, 0, FILETYPE_NVRAM, openforwrite) *)
  | NvramHandler (file : Z) (read_or_write : Z)
  | MameFclose (file : Z)
  | InitUserInterface
  | InitCheat
  | StopCheat
  | CpuRun
  | SaveInputPortSettings.

(** What one call of a function below finds: whether the driver has an
    NVRAM handler, and the file [mame_fopen] answers with. *)
Record nvram : Type := mkNvram {
  nvram_handler : bool;      (* Machine->drv->nvram_handler is set *)
  nvram_file : Z
}.

Record state : Type := mkState {
  session : Lifecycle.session;
  cheat : Z;                 (* options.cheat *)
  pause_action : bool;       (* pause_action is set *)
  log : list call
}.

Definition set_session v t := mkState v (cheat t) (pause_action t) (log t).
Definition set_cheat v t := mkState (session t) v (pause_action t) (log t).
Definition set_pause_action v t := mkState (session t) (cheat t) v (log t).
Definition emit (c : list call) t :=
  mkState (session t) (cheat t) (pause_action t) (log t ++ c).

(** A statement of the start-up code run on the session; the calls it
    makes enter the log in their place. *)
Definition lift {A : Type} (c : M A) (t : state) : A * state :=
  let r := c (session t) in
  (fst r,
   emit (map Machine
           (skipn (length (Lifecycle.log (session t))) (Lifecycle.log (snd r))))
        (set_session (snd r) t)).

Definition run_ {A : Type} (c : M A) (t : state) : state := snd (lift c t).

(** [pause_action_start_emulator()]; [gd] is the driver that [gamedrv]
    and [Machine->gamedrv] point to. *)
Definition pause_action_start_emulator (k : nvram) (gd : GameDriver) (t : state) : state :=
  let t := emit [InitUserInterface] t in
  let t := run_ (Lifecycle.emit (ArtworkEnable 1)) t in
  let t := if rom gd =? 0 then set_cheat 0 t else t in
  let t := if negb (cheat t =? 0) then emit [InitCheat] t else t in
  let t :=
    if nvram_handler k then
      let t := emit [NvramOpen (name gd) 0 (nvram_file k);
                     NvramHandler (nvram_file k) 0] t in
      if negb (nvram_file k =? 0) then emit [MameFclose (nvram_file k)] t else t
    else t in
  let t := emit [CpuRun] t in
  set_pause_action false t.

(** [run_machine_core_done()] *)
Definition run_machine_core_done (k : nvram) (gd : GameDriver) (t : state) : state :=
  let t :=
    if nvram_handler k then
      let t := emit [NvramOpen (name gd) 1 (nvram_file k)] t in
      if negb (nvram_file k =? 0)
      then emit [NvramHandler (nvram_file k) 1; MameFclose (nvram_file k)] t
      else t
    else t in
  let t := if negb (cheat t =? 0) then emit [StopCheat] t else t in
  emit [SaveInputPortSettings] t.

Section Done.
Context (w : world).

(** [run_machine_done()] *)
Definition run_machine_done (t : state) : state :=
  let t := emit [SoundStop] t in
  let t :=
    if video_stop (internal_drv (session t))
    then run_ (Lifecycle.emit VideoStop) t else t in
  let t := run_ (Lifecycle.emit TilemapClose) t in
  run_ (vh_close w) t.

(** [run_game_done()] *)
Definition run_game_done (t : state) : state :=
  let t := run_ shutdown_machine t in
  let t := run_ (Lifecycle.emit EndResourceTracking) t in
  let t := run_ (Lifecycle.emit OsdExit) t in
  run_ (Lifecycle.emit EndResourceTracking) t.

(** [mame_done()] *)
Definition mame_done (k : nvram) (gd : GameDriver) (t : state) : state :=
  let t :=
    if negb (game_loaded (session t) =? 0)
    then run_game_done
           (run_machine_done (run_machine_core_done k gd (emit [CpuRunDone] t)))
    else t in
  set_session (set_game_loaded 0 (session t)) t.

End Done.

(** [mame_highscore_enabled()], built without network support;
    [he_did_cheat] is the global of that name. *)
Definition mame_highscore_enabled (he_did_cheat : Z) (s : Lifecycle.session) : Z :=
  if negb (record s =? 0) || negb (playback s =? 0) then 0
  else if negb (he_did_cheat =? 0) then 0
  else 1.

(** *** Accounts of a log *)

(** The calls that open and close a scope: resource tracking, the OSD
    layer, the tilemap system. *)
Definition is_bracket (c : Lifecycle.call) : bool :=
  match c with
  | BeginResourceTracking | EndResourceTracking
  | OsdInit _ | OsdExit | TilemapInit | TilemapClose => true
  | _ => false
  end.

Definition brackets (l : list Lifecycle.call) : list Lifecycle.call :=
  filter is_bracket l.

(** What a pointer to ports stands for as a resource. *)
Definition ports_held (p : Z) : list resource := if p =? 0 then [] else [Ports p].

(** Log [l'] is log [l] followed by calls with the given scope calls,
    acquisitions and releases. *)
Definition extends (l l' : list Lifecycle.call)
    (b : list Lifecycle.call) (a r : list resource) : Prop :=
  exists new, l' = l ++ new
              /\ brackets new = b /\ acquisitions new = a /\ releases new = r.

(** What the accounts are about: the port members, the loaded flag and
    the log. *)
Record ledger : Type := mkLedger {
  held_ports : Z;
  held_ports_default : Z;
  loaded : Z;
  calls : list Lifecycle.call
}.

Definition ledger_of (s : Lifecycle.session) : ledger :=
  mkLedger (Lifecycle.input_ports s) (input_ports_default s) (game_loaded s)
           (Lifecycle.log s).

(** From any session with ledger [v], statement [c] ends with a result
    and a ledger that satisfy [Q]. *)
Definition wpl {A : Type} (c : M A) (Q : A -> ledger -> Prop) (v : ledger) : Prop :=
  forall s, ledger_of s = v -> Q (fst (c s)) (ledger_of (snd (c s))).

(** A function that leaves ports and flag alone and makes no scope,
    acquire or release call. *)
Definition unaccounted (v v' : ledger) : Prop :=
  held_ports v' = held_ports v
  /\ held_ports_default v' = held_ports_default v
  /\ loaded v' = loaded v
  /\ extends (calls v) (calls v') [] [] [].

(** The files opened for the NVRAM and the files closed. *)
Definition files_opened (l : list call) : list Z :=
  flat_map (fun c => match c with
                     | NvramOpen _ _ f => if f =? 0 then [] else [f]
                     | _ => []
                     end) l.
Definition files_closed (l : list call) : list Z :=
  flat_map (fun c => match c with MameFclose f => [f] | _ => [] end) l.

Definition is_init_cheat (c : call) : bool :=
  match c with InitCheat => true | _ => false end.
Definition is_stop_cheat (c : call) : bool :=
  match c with StopCheat => true | _ => false end.

(** The start-up calls of a teardown log. *)
Definition machine_calls (l : list call) : list Lifecycle.call :=
  flat_map (fun c => match c with Machine m => [m] | _ => [] end) l.

Definition sample_state (s : Lifecycle.session) : state := mkState s 1 true [].

End Session.

(* ================================================================== *)
(** * Properties *)

Module CIntFacts.
Import CInt.

Lemma to_int_id z : in_int z -> to_int z = z.
Proof.
  unfold in_int, INT_MIN, INT_MAX, to_int. intros H.
  rewrite Z.mod_small; lia.
Qed.

Lemma to_int_range z : in_int (to_int z).
Proof.
  unfold in_int, INT_MIN, INT_MAX, to_int.
  pose proof (Z.mod_pos_bound (z + 2147483648) 4294967296 ltac:(lia)). lia.
Qed.

Lemma int_add_exact a b : in_int (a + b) -> int_add a b = a + b.
Proof. apply to_int_id. Qed.

Lemma int_mul_exact a b : in_int (a * b) -> int_mul a b = a * b.
Proof. apply to_int_id. Qed.

Lemma int_div_exact a b : in_int (Z.quot a b) -> int_div a b = Z.quot a b.
Proof. apply to_int_id. Qed.

End CIntFacts.

(** Comparisons of the model turned into facts [lia] reads. *)
Ltac cmp_facts :=
  repeat match goal with
  | H : (_ <? _) = true |- _ => apply Z.ltb_lt in H
  | H : (_ <? _) = false |- _ => apply Z.ltb_ge in H
  | H : (_ <=? _) = true |- _ => apply Z.leb_le in H
  | H : (_ <=? _) = false |- _ => apply Z.leb_gt in H
  | H : (_ =? _) = true |- _ => apply Z.eqb_eq in H
  | H : (_ =? _) = false |- _ => apply Z.eqb_neq in H
  | H : (_ >? _) = true |- _ => rewrite Z.gtb_ltb in H
  | H : (_ >? _) = false |- _ => rewrite Z.gtb_ltb in H
  end.

Module VideoFacts.
Import CInt CIntFacts Video.

Lemma rect_eqb_spec r a b c d :
  rect_eqb r a b c d = true <-> r = mkRect a b c d.
Proof.
  destruct r as [x1 x2 y1 y2]; unfold rect_eqb; cbn.
  rewrite !andb_true_iff, !Z.eqb_eq. split.
  - intros [[[-> ->] ->] ->]. reflexivity.
  - intros H; inversion H; auto.
Qed.

Lemma rect_eqb_false r a b c d :
  rect_eqb r a b c d = false <-> r <> mkRect a b c d.
Proof.
  rewrite <- rect_eqb_spec. destruct (rect_eqb r a b c d); intuition congruence.
Qed.

Lemma set_visible_area_same st a b c d :
  visible_area st = mkRect a b c d -> set_visible_area a b c d st = st.
Proof.
  intros H. unfold set_visible_area.
  apply rect_eqb_spec in H. now rewrite H.
Qed.

Lemma set_visible_area_changed st a b c d :
  visible_area st <> mkRect a b c d ->
  set_visible_area a b c d st =
  mkState (mkRect a b c d) (mkRect a b c d) 1 (full_refresh_pending st)
          (last_partial_scanline st) (partial_updates_this_frame st)
          (log st ++ [EvComputeScanlineTiming]).
Proof.
  intros H. unfold set_visible_area.
  apply rect_eqb_false in H. now rewrite H.
Qed.

Lemma set_visible_area_keeps_sync st a b c d :
  visible_area st = absolute_visible_area st ->
  visible_area (set_visible_area a b c d st)
  = absolute_visible_area (set_visible_area a b c d st).
Proof.
  intros H. unfold set_visible_area.
  destruct (rect_eqb (visible_area st) a b c d); [exact H | reflexivity].
Qed.

Lemma run_set_visible_area_keeps_sync calls :
  forall st, visible_area st = absolute_visible_area st ->
  visible_area (run_set_visible_area calls st)
  = absolute_visible_area (run_set_visible_area calls st).
Proof.
  induction calls as [|[[[a b] c] d] rest IH]; intros st H; cbn.
  - exact H.
  - apply IH. now apply set_visible_area_keeps_sync.
Qed.

Lemma recomputations_app st e :
  recomputations (emit e st) = (recomputations st + length (filter is_recompute e))%nat.
Proof. unfold recomputations, emit; cbn. now rewrite filter_app, length_app. Qed.

(** C5. [set_visible_area] with the bounds the visible area already has
    changes nothing and recomputes nothing; with any other bounds it sets
    the dirty flag, installs the bounds in both copies and asks for one
    recomputation of the scanline timing.  The two copies stay equal:
    after a changing call always, after any call when they were equal
    before, hence after every call of a run that starts from the
    zero-initialised statics. *)
Theorem set_visible_area_spec :
  forall (st : state) (a b c d : Z),
    let st' := set_visible_area a b c d st in
    (visible_area st = mkRect a b c d ->
       st' = st /\ recomputations st' = recomputations st)
    /\ (visible_area st <> mkRect a b c d ->
          visible_area_changed st' = 1
          /\ visible_area st' = mkRect a b c d
          /\ absolute_visible_area st' = visible_area st'
          /\ log st' = log st ++ [EvComputeScanlineTiming]
          /\ recomputations st' = S (recomputations st)
          /\ full_refresh_pending st' = full_refresh_pending st
          /\ last_partial_scanline st' = last_partial_scanline st
          /\ partial_updates_this_frame st' = partial_updates_this_frame st)
    /\ (visible_area st = absolute_visible_area st ->
          visible_area st' = absolute_visible_area st')
    /\ (forall calls : list (Z * Z * Z * Z),
          visible_area (run_set_visible_area calls initial_state)
          = absolute_visible_area (run_set_visible_area calls initial_state)).
Proof.
  intros st a b c d st'. subst st'. repeat split.
  - now apply set_visible_area_same.
  - now rewrite set_visible_area_same.
  - rewrite set_visible_area_changed by assumption. reflexivity.
  - rewrite set_visible_area_changed by assumption. reflexivity.
  - rewrite set_visible_area_changed by assumption. reflexivity.
  - rewrite set_visible_area_changed by assumption. reflexivity.
  - rewrite set_visible_area_changed by assumption.
    unfold recomputations; cbn. rewrite filter_app, length_app; cbn. lia.
  - rewrite set_visible_area_changed by assumption. reflexivity.
  - rewrite set_visible_area_changed by assumption. reflexivity.
  - rewrite set_visible_area_changed by assumption. reflexivity.
  - apply set_visible_area_keeps_sync.
  - intros calls. now apply run_set_visible_area_keeps_sync.
Qed.

Lemma force_partial_update_skipped st s :
  force_partial_update true s st = st.
Proof. reflexivity. Qed.

Lemma force_partial_update_stale skip st s :
  s < last_partial_scanline st -> force_partial_update skip s st = st.
Proof.
  intros H. unfold force_partial_update. destruct skip; [reflexivity|].
  apply Z.ltb_lt in H. now rewrite H.
Qed.

Lemma force_partial_update_done st s :
  last_partial_scanline st <= s ->
  force_partial_update false s st =
  mkState (visible_area st) (absolute_visible_area st) (visible_area_changed st)
          (if refresh_due st then 0 else full_refresh_pending st)
          (int_add s 1)
          (if range_nonempty (update_range st s)
           then int_add (partial_updates_this_frame st) 1
           else partial_updates_this_frame st)
          (log st
           ++ (if refresh_due st then [EvFillBitmapBlack] else [])
           ++ (if range_nonempty (update_range st s)
               then [EvProfilerMark PROFILER_VIDEO; EvVideoUpdate (update_range st s);
                     EvProfilerMark PROFILER_END]
               else [])).
Proof.
  intros Hle. unfold force_partial_update, refresh_due, range_nonempty, update_range.
  destruct (s <? last_partial_scanline st) eqn:E; cmp_facts; [lia|].
  destruct st as [[x1 x2 y1 y2] ava vac frp lps cnt lg]; cbn in *.
  destruct (negb (frp =? 0) && (lps =? 0)) eqn:Efill; cbn;
    destruct (lps >? y1) eqn:E1; cbn;
    destruct (s <? y2) eqn:E2; cbn; cmp_facts;
    try rewrite (Z.max_l lps y1) by lia; try rewrite (Z.max_r lps y1) by lia;
    try rewrite (Z.min_l s y2) by lia; try rewrite (Z.min_r s y2) by lia;
    match goal with
    | |- context [?a <=? ?b] => destruct (a <=? b) eqn:E3
    end; cbn; unfold emit, set_last_partial_scanline, incr_partial_updates,
              set_full_refresh_pending; cbn;
    rewrite <- ?app_assoc; cbn; rewrite ?app_nil_r; reflexivity.
Qed.

Lemma renders_emit st e :
  renders (emit e st) = (renders st + length (filter is_render e))%nat.
Proof. unfold renders, emit; cbn. now rewrite filter_app, length_app. Qed.

Lemma renders_force_partial_update_done st s :
  last_partial_scanline st <= s ->
  renders (force_partial_update false s st)
  = if range_nonempty (update_range st s) then S (renders st) else renders st.
Proof.
  intros H. rewrite force_partial_update_done by assumption.
  unfold renders; cbn. rewrite !filter_app, !length_app.
  destruct (refresh_due st), (range_nonempty (update_range st s)); cbn; lia.
Qed.

(** C3. A call [force_partial_update(s)] in a frame that is not skipped,
    with [s] at or past the last partial scanline: when a full refresh is
    pending and nothing was drawn in this frame the bitmap is filled
    with the black pen first and the flag cleared; the range is the
    visible area cut to rows max(last, min_y) .. min(s, max_y); the
    video-update callback runs on it, and the counter goes up by one,
    exactly when the range is not empty; the last partial scanline is
    s + 1 afterwards in every case. *)
Theorem force_partial_update_spec :
  forall (st : state) (s : Z),
    valid_scanline s ->
    last_partial_scanline st <= s ->
    0 <= partial_updates_this_frame st < INT_MAX ->
    let st' := force_partial_update false s st in
    let clip := update_range st s in
    log st' = log st
              ++ (if refresh_due st then [EvFillBitmapBlack] else [])
              ++ (if min_y clip <=? max_y clip
                  then [EvProfilerMark PROFILER_VIDEO; EvVideoUpdate clip;
                        EvProfilerMark PROFILER_END]
                  else [])
    /\ full_refresh_pending st' = (if refresh_due st then 0 else full_refresh_pending st)
    /\ partial_updates_this_frame st'
       = (if min_y clip <=? max_y clip
          then partial_updates_this_frame st + 1
          else partial_updates_this_frame st)
    /\ renders st' = (if min_y clip <=? max_y clip then S (renders st) else renders st)
    /\ last_partial_scanline st' = s + 1
    /\ visible_area st' = visible_area st
    /\ absolute_visible_area st' = absolute_visible_area st
    /\ visible_area_changed st' = visible_area_changed st.
Proof.
  intros st s Hs Hle Hc st' clip. subst st' clip.
  rewrite renders_force_partial_update_done by assumption.
  rewrite force_partial_update_done by assumption. cbn.
  unfold valid_scanline, INT_MIN, INT_MAX in *.
  repeat split.
  - unfold range_nonempty.
    destruct (_ <=? _); [|reflexivity].
    apply int_add_exact. unfold in_int, INT_MIN, INT_MAX. lia.
  - apply int_add_exact. unfold in_int, INT_MIN, INT_MAX. lia.
Qed.

(** The theorem at a frame's first update of rows 0..10 of a 240-row
    screen with a refresh pending. *)
Lemma force_partial_update_spec_witness :
  let st := mkState (mkRect 0 319 0 239) (mkRect 0 319 0 239) 0 1 0 0 [] in
  log (force_partial_update false 10 st)
  = [EvFillBitmapBlack; EvProfilerMark PROFILER_VIDEO;
     EvVideoUpdate (mkRect 0 319 0 10); EvProfilerMark PROFILER_END]
  /\ last_partial_scanline (force_partial_update false 10 st) = 11.
Proof.
  intros st.
  assert (H1 : valid_scanline 10) by (unfold valid_scanline, INT_MIN, INT_MAX; lia).
  assert (H2 : last_partial_scanline st <= 10) by (cbn; lia).
  assert (H3 : 0 <= partial_updates_this_frame st < INT_MAX)
    by (unfold INT_MAX; cbn; lia).
  destruct (force_partial_update_spec st 10 H1 H2 H3) as (Hlog & _ & _ & _ & Hlps & _).
  split; [exact Hlog | exact Hlps].
Defined.

Lemma last_partial_scanline_step skip s st :
  valid_scanline s ->
  last_partial_scanline st <= last_partial_scanline (force_partial_update skip s st).
Proof.
  intros Hs. destruct skip; [cbn; lia|].
  destruct (Z.lt_ge_cases s (last_partial_scanline st)) as [Hlt|Hge].
  - rewrite force_partial_update_stale by assumption. lia.
  - rewrite force_partial_update_done by assumption. cbn.
    rewrite int_add_exact; [lia|].
    unfold valid_scanline, in_int, INT_MIN, INT_MAX in *. lia.
Qed.

Lemma run_updates_app calls1 calls2 :
  forall st, run_updates (calls1 ++ calls2) st = run_updates calls2 (run_updates calls1 st).
Proof.
  induction calls1 as [|[b s] rest IH]; intros st; cbn; [reflexivity | apply IH].
Qed.

Lemma last_partial_scanline_run calls :
  forall st, Forall (fun c => valid_scanline (snd c)) calls ->
  last_partial_scanline st <= last_partial_scanline (run_updates calls st).
Proof.
  induction calls as [|[b s] rest IH]; intros st H; cbn; [lia|].
  inversion H as [|? ? Hs Hrest]; subst; cbn in Hs.
  pose proof (last_partial_scanline_step b s st Hs).
  specialize (IH (force_partial_update b s st) Hrest). lia.
Qed.

Lemma run_updates_stale rest :
  forall st, Forall (fun c => snd c < last_partial_scanline st) rest ->
  run_updates rest st = st.
Proof.
  induction rest as [|[b s] rest IH]; intros st H; cbn; [reflexivity|].
  inversion H as [|? ? Hs Hrest]; subst; cbn in Hs.
  rewrite force_partial_update_stale by assumption. now apply IH.
Qed.

Lemma run_updates_skipped rest :
  forall st, Forall (fun c => fst c = true) rest -> run_updates rest st = st.
Proof.
  induction rest as [|[b s] rest IH]; intros st H; cbn; [reflexivity|].
  inversion H as [|? ? Hb Hrest]; subst; cbn in Hb; subst.
  now apply IH.
Qed.

Lemma strictly_decreasing_below s0 rest :
  strictly_decreasing (s0 :: rest) -> Forall (fun s => s < s0) rest.
Proof.
  revert s0. induction rest as [|s rest IH]; intros s0 H; constructor.
  - cbn in H. lia.
  - destruct H as [Hlt Hrest]. specialize (IH s Hrest).
    eapply Forall_impl; [|exact IH]. cbn. intros; lia.
Qed.

(** C4. Two calls in a row with the same scanline run the video-update
    callback at most once between them, whatever the frame-skip answers;
    after a first call, calls with strictly decreasing scanlines leave
    the state as it is, so none renders, as long as the frame-skip
    answer does not turn from skip to draw after the first call (within
    a frame it is one answer); and over any sequence of calls the last
    partial scanline never goes down. *)
Theorem force_partial_update_replay :
  (forall (st : state) (skip1 skip2 : bool) (s : Z),
      valid_scanline s ->
      (renders (force_partial_update skip2 s (force_partial_update skip1 s st))
       <= S (renders st))%nat)
  /\ (forall (st : state) (skip : bool) (s0 : Z) (rest : list (bool * Z)),
        valid_scanline s0 ->
        strictly_decreasing (s0 :: map snd rest) ->
        (skip = true -> Forall (fun c => fst c = true) rest) ->
        let st1 := force_partial_update skip s0 st in
        run_updates rest st1 = st1
        /\ renders (run_updates rest st1) = renders st1)
  /\ (forall (calls1 calls2 : list (bool * Z)) (st : state),
        Forall (fun c => valid_scanline (snd c)) (calls1 ++ calls2) ->
        last_partial_scanline (run_updates calls1 st)
        <= last_partial_scanline (run_updates (calls1 ++ calls2) st)).
Proof.
  split; [|split].
  - intros st skip1 skip2 s Hs.
    assert (Hone : forall b st0,
               (renders (force_partial_update b s st0) <= S (renders st0))%nat).
    { intros b st0. destruct b; [cbn; lia|].
      destruct (Z.lt_ge_cases s (last_partial_scanline st0)).
      - rewrite force_partial_update_stale by assumption. lia.
      - rewrite renders_force_partial_update_done by assumption.
        destruct (range_nonempty _); lia. }
    destruct skip1.
    + rewrite force_partial_update_skipped. apply Hone.
    + destruct (Z.lt_ge_cases s (last_partial_scanline st)).
      * rewrite (force_partial_update_stale false st) by assumption. apply Hone.
      * rewrite (force_partial_update_stale skip2).
        -- apply Hone.
        -- rewrite force_partial_update_done by assumption. cbn.
           rewrite int_add_exact; [lia|].
           unfold valid_scanline, in_int, INT_MIN, INT_MAX in *. lia.
  - intros st skip s0 rest Hs Hdec Hskip st1.
    assert (Heq : run_updates rest st1 = st1).
    { apply strictly_decreasing_below in Hdec.
      rewrite Forall_map in Hdec. subst st1.
      destruct skip; [apply run_updates_skipped; now apply Hskip|].
      apply run_updates_stale.
      destruct (Z.lt_ge_cases s0 (last_partial_scanline st)).
      - rewrite force_partial_update_stale by assumption.
        eapply Forall_impl; [|exact Hdec]. cbn. intros; lia.
      - rewrite force_partial_update_done by assumption. cbn.
        rewrite int_add_exact.
        + eapply Forall_impl; [|exact Hdec]. cbn. intros; lia.
        + unfold valid_scanline, in_int, INT_MIN, INT_MAX in *. lia. }
    split; [exact Heq | now rewrite Heq].
  - intros calls1 calls2 st H.
    rewrite run_updates_app. apply last_partial_scanline_run.
    apply Forall_app in H. tauto.
Qed.

(** The three parts at concrete calls on a 240-row screen. *)
Lemma force_partial_update_replay_witness :
  let st := mkState (mkRect 0 319 0 239) (mkRect 0 319 0 239) 0 0 0 0 [] in
  (renders (force_partial_update false 50 (force_partial_update false 50 st)) <= 1)%nat
  /\ run_updates [(false, 40); (false, 30); (false, 7)] (force_partial_update false 50 st)
     = force_partial_update false 50 st
  /\ last_partial_scanline (run_updates [(false, 20)] st)
     <= last_partial_scanline (run_updates ([(false, 20)] ++ [(false, 5); (true, 90)]) st).
Proof.
  intros st.
  destruct force_partial_update_replay as (Ha & Hb & Hc).
  assert (V : forall z, -100 <= z <= 100 -> valid_scanline z)
    by (intros z Hz; unfold valid_scanline, INT_MIN, INT_MAX; lia).
  split; [|split].
  - apply (Ha st false false 50). apply V; lia.
  - apply (Hb st false 50 [(false, 40); (false, 30); (false, 7)]).
    + apply V; lia.
    + cbn; lia.
    + discriminate.
  - apply (Hc [(false, 20)] [(false, 5); (true, 90)] st).
    repeat constructor; cbn; (apply V; lia).
Defined.

End VideoFacts.

Module GfxFacts.
Import CInt CIntFacts Gfx.

Lemma nth_error_update_first {A : Type} (n : nat) (f : A -> A) (a : list A) (j : nat) :
  (j < n)%nat -> nth_error (update_first n f a) j = option_map f (nth_error a j).
Proof.
  unfold update_first. revert a j.
  induction n as [|n IH]; intros a j Hj; [lia|].
  destruct a as [|x a]; cbn.
  - now destruct j.
  - destruct j as [|j]; cbn; [reflexivity|]. apply IH. lia.
Qed.

Section Resolution.
Context (h : drawgfx_h).
Hypothesis Hfld : members_hold_ints h.

Lemma region_bit_length_exact B :
  0 <= B -> 8 * B <= INT_MAX -> region_bit_length B = 8 * B.
Proof.
  intros. apply to_int_id. unfold in_int, INT_MIN, INT_MAX in *. lia.
Qed.

Lemma frac_total_exact L gl :
  0 <= L <= INT_MAX ->
  count_in_range h L (charincrement gl) (total gl) ->
  frac_total h L gl
  = L / charincrement gl * FRAC_NUM h (total gl) / FRAC_DEN h (total gl).
Proof.
  intros HL (Hinc & Hnum & Hden & Hprod). unfold frac_total.
  assert (Hq : 0 <= L / charincrement gl <= L).
  { split; [apply Z.div_pos; lia|].
    apply Z.div_le_upper_bound; [lia|]. nia. }
  rewrite (Hfld L) by lia.
  rewrite (Z.quot_div_nonneg L (charincrement gl)) by lia.
  rewrite (Hfld (L / charincrement gl)) by lia.
  rewrite (Hfld (FRAC_NUM h (total gl))) by lia.
  assert (Hm : 0 <= L / charincrement gl * FRAC_NUM h (total gl)) by nia.
  rewrite (Hfld (L / charincrement gl * FRAC_NUM h (total gl))) by lia.
  rewrite (Hfld (FRAC_DEN h (total gl))) by lia.
  rewrite Z.quot_div_nonneg by lia.
  apply Hfld. split; [apply Z.div_pos; lia|].
  assert (L / charincrement gl * FRAC_NUM h (total gl) / FRAC_DEN h (total gl)
          <= L / charincrement gl * FRAC_NUM h (total gl)).
  { apply Z.div_le_upper_bound; [lia|]. nia. }
  lia.
Qed.

Lemma frac_offset_exact L v :
  0 <= L <= INT_MAX ->
  offset_in_range h L v ->
  frac_offset h L v = FRAC_OFFSET h v + L * FRAC_NUM h v / FRAC_DEN h v
  /\ 0 <= frac_offset h L v <= INT_MAX.
Proof.
  intros HL (Hoff & Hnum & Hden & Hsum). unfold frac_offset.
  assert (Hp : 0 <= L * FRAC_NUM h v) by nia.
  rewrite int_mul_exact by (unfold in_int, INT_MIN, INT_MAX in *; lia).
  assert (Hd : 0 <= L * FRAC_NUM h v / FRAC_DEN h v <= L * FRAC_NUM h v).
  { split; [apply Z.div_pos; lia|].
    apply Z.div_le_upper_bound; [lia|]. nia. }
  unfold int_div. rewrite Z.quot_div_nonneg by lia.
  rewrite (to_int_id (L * FRAC_NUM h v / FRAC_DEN h v))
    by (unfold in_int, INT_MIN, INT_MAX in *; lia).
  rewrite int_add_exact by (unfold in_int, INT_MIN, INT_MAX in *; lia).
  split; [reflexivity | lia].
Qed.

Lemma resolve_offset_exact L slot :
  0 <= L <= INT_MAX ->
  IS_FRAC h (to_int slot) = true ->
  offset_in_range h L (to_int slot) ->
  resolve_offset h L slot
  = FRAC_OFFSET h (to_int slot)
    + L * FRAC_NUM h (to_int slot) / FRAC_DEN h (to_int slot).
Proof.
  intros HL Hfrac Hr. unfold resolve_offset. rewrite Hfrac.
  destruct (frac_offset_exact L (to_int slot) HL Hr) as [Heq Hrange].
  rewrite Hfld by exact Hrange. exact Heq.
Qed.

End Resolution.

Lemma planeoffset_resolve_layout h B info :
  planeoffset (resolve_layout h B info)
  = update_first (MAX_GFX_PLANES h) (resolve_offset h (region_bit_length B))
                 (planeoffset (gfxlayout info)).
Proof.
  unfold resolve_layout, resolve_raw, resolve_xy, resolve_planes, resolve_total.
  destruct (IS_FRAC h (total (gfxlayout info))); cbn;
    destruct (_ =? GFX_RAW h); reflexivity.
Qed.

Lemma xoffset_resolve_layout h B info :
  xoffset (resolve_layout h B info)
  = update_first (MAX_GFX_SIZE h) (resolve_offset h (region_bit_length B))
                 (xoffset (gfxlayout info)).
Proof.
  unfold resolve_layout, resolve_raw, resolve_xy, resolve_planes, resolve_total.
  destruct (IS_FRAC h (total (gfxlayout info))); cbn;
    destruct (_ =? GFX_RAW h); reflexivity.
Qed.

Lemma yoffset_resolve_layout h B info :
  yoffset (resolve_layout h B info)
  = update_first (MAX_GFX_SIZE h) (resolve_offset h (region_bit_length B))
                 (yoffset (gfxlayout info)).
Proof.
  unfold resolve_layout, resolve_raw, resolve_xy, resolve_planes, resolve_total.
  destruct (IS_FRAC h (total (gfxlayout info))); cbn;
    destruct (_ =? GFX_RAW h); reflexivity.
Qed.

Lemma total_resolve_layout_not_raw h B info :
  nth 0 (planeoffset (resolve_layout h B info)) 0 <> GFX_RAW h ->
  total (resolve_layout h B info)
  = total (resolve_total h (region_bit_length B) (gfxlayout info)).
Proof.
  rewrite planeoffset_resolve_layout.
  intros Hraw. apply Z.eqb_neq in Hraw.
  unfold resolve_layout, resolve_raw, resolve_xy, resolve_planes, resolve_total.
  destruct (IS_FRAC h (total (gfxlayout info))); cbn; rewrite Hraw; reflexivity.
Qed.

Lemma sample_header_holds_ints : members_hold_ints sample_header.
Proof.
  intros z Hz. cbn. apply Z.mod_small. unfold INT_MAX in Hz. lia.
Qed.

(** C7. In the layout [decode_graphics] hands to the decoder, a
    fraction-tagged count is region_bit_length / increment * numerator /
    denominator and a fraction-tagged plane, X or Y offset is base_offset +
    region_bit_length * numerator / denominator, in integer arithmetic and
    in this order of operations, with region_bit_length eight times the
    byte length of the region (values inside the [int] range).  The
    count so computed is the count of the layout decoded unless the
    layout is in raw mode, where it is cut further.  With a count of 1/4
    and increment 8 the count is L / 8 * 1 / 4. *)
Theorem fraction_resolution :
  forall (h : drawgfx_h) (B : Z) (info : GfxDecodeInfo),
    members_hold_ints h ->
    0 <= B -> 8 * B <= INT_MAX ->
    let L := 8 * B in
    let gl := gfxlayout info in
    let r := resolve_layout h B info in
    let resolved := fun v => FRAC_OFFSET h v + L * FRAC_NUM h v / FRAC_DEN h v in
    (IS_FRAC h (total gl) = true ->
     count_in_range h L (charincrement gl) (total gl) ->
     total (resolve_total h (region_bit_length B) gl)
     = L / charincrement gl * FRAC_NUM h (total gl) / FRAC_DEN h (total gl))
    /\ (IS_FRAC h (total gl) = true ->
        count_in_range h L (charincrement gl) (total gl) ->
        nth 0 (planeoffset r) 0 <> GFX_RAW h ->
        total r = L / charincrement gl * FRAC_NUM h (total gl) / FRAC_DEN h (total gl))
    /\ (forall (j : nat) (slot : Z),
          (j < MAX_GFX_PLANES h)%nat ->
          nth_error (planeoffset gl) j = Some slot ->
          IS_FRAC h (to_int slot) = true ->
          offset_in_range h L (to_int slot) ->
          nth_error (planeoffset r) j = Some (resolved (to_int slot)))
    /\ (forall (j : nat) (slot : Z),
          (j < MAX_GFX_SIZE h)%nat ->
          nth_error (xoffset gl) j = Some slot ->
          IS_FRAC h (to_int slot) = true ->
          offset_in_range h L (to_int slot) ->
          nth_error (xoffset r) j = Some (resolved (to_int slot)))
    /\ (forall (j : nat) (slot : Z),
          (j < MAX_GFX_SIZE h)%nat ->
          nth_error (yoffset gl) j = Some slot ->
          IS_FRAC h (to_int slot) = true ->
          offset_in_range h L (to_int slot) ->
          nth_error (yoffset r) j = Some (resolved (to_int slot)))
    /\ (IS_FRAC h (total gl) = true ->
        FRAC_NUM h (total gl) = 1 -> FRAC_DEN h (total gl) = 4 ->
        charincrement gl = 8 ->
        nth 0 (planeoffset r) 0 <> GFX_RAW h ->
        total r = L / 8 * 1 / 4).
Proof.
  intros h B info Hfld HB0 HB L gl r resolved.
  assert (HL : 0 <= L <= INT_MAX) by (subst L; lia).
  assert (Hbits : region_bit_length B = L)
    by (apply region_bit_length_exact; assumption).
  assert (Hstep : IS_FRAC h (total gl) = true ->
                  count_in_range h L (charincrement gl) (total gl) ->
                  total (resolve_total h (region_bit_length B) gl)
                  = L / charincrement gl * FRAC_NUM h (total gl)
                    / FRAC_DEN h (total gl)).
  { intros Hfrac Hrange.
    unfold resolve_total. rewrite Hfrac, Hbits. cbn.
    now apply frac_total_exact. }
  assert (Hcount : IS_FRAC h (total gl) = true ->
                   count_in_range h L (charincrement gl) (total gl) ->
                   nth 0 (planeoffset r) 0 <> GFX_RAW h ->
                   total r = L / charincrement gl * FRAC_NUM h (total gl)
                             / FRAC_DEN h (total gl)).
  { intros Hfrac Hrange Hraw. subst r.
    rewrite total_resolve_layout_not_raw by exact Hraw.
    now apply Hstep. }
  assert (Hslot : forall n a j slot,
             (j < n)%nat -> nth_error a j = Some slot ->
             IS_FRAC h (to_int slot) = true ->
             offset_in_range h L (to_int slot) ->
             nth_error (update_first n (resolve_offset h L) a) j
             = Some (resolved (to_int slot))).
  { intros n a j slot Hj Hnth Hfrac Hrange.
    rewrite nth_error_update_first by exact Hj. rewrite Hnth. cbn.
    f_equal. now apply resolve_offset_exact. }
  split; [exact Hstep|]. split; [exact Hcount|]. split; [|split; [|split]].
  - intros j slot Hj Hnth Hfrac Hrange. subst r.
    rewrite planeoffset_resolve_layout, Hbits. now apply Hslot.
  - intros j slot Hj Hnth Hfrac Hrange. subst r.
    rewrite xoffset_resolve_layout, Hbits. now apply Hslot.
  - intros j slot Hj Hnth Hfrac Hrange. subst r.
    rewrite yoffset_resolve_layout, Hbits. now apply Hslot.
  - intros Hfrac Hnum Hden Hinc Hraw.
    rewrite Hcount; try assumption.
    + now rewrite Hnum, Hden, Hinc.
    + unfold count_in_range. rewrite Hnum, Hden, Hinc.
      assert (0 <= L / 8 <= L).
      { split; [apply Z.div_pos; lia|].
        apply Z.div_le_upper_bound; lia. }
      unfold INT_MAX in *. lia.
Qed.

(** A 4096-byte region, a count of 1/4 with increment 8 and a plane at
    1/2 of the region: 1024 elements, plane offset 16384. *)
Lemma fraction_resolution_witness :
  let gl := mkLayout 8 8 (RGN_FRAC 1 4) 1 [RGN_FRAC 1 2] [0; 1; 2; 3; 4; 5; 6; 7]
                     [0; 8; 16; 24; 32; 40; 48; 56] 8 in
  let r := resolve_layout sample_header 4096 (mkDecodeInfo 1 gl 0 0 16) in
  total r = 1024 /\ nth_error (planeoffset r) 0 = Some 16384.
Proof.
  intros gl r.
  assert (H0 : 0 <= 4096) by lia.
  assert (H1 : 8 * 4096 <= INT_MAX) by (unfold INT_MAX; lia).
  destruct (fraction_resolution sample_header 4096 (mkDecodeInfo 1 gl 0 0 16)
              sample_header_holds_ints H0 H1) as (_ & _ & Hplane & _ & _ & Hquarter).
  split.
  - apply Hquarter; try reflexivity. vm_compute. discriminate.
  - apply (Hplane 0%nat (RGN_FRAC 1 2)); try reflexivity.
    + cbn. lia.
    + vm_compute. repeat split; discriminate.
Defined.

(** The loop of the raw-mode truncation, started with at least as much
    fuel as the count. *)
Lemma truncate_loop_spec h base region_end gl :
  forall (fuel : nat) (count : Z),
    count <= Z.of_nat fuel ->
    (forall z, 0 <= z < count -> fld h z = z) ->
    let n := truncate_loop h fuel base region_end gl count in
    n <= count
    /\ (0 <= count -> 0 <= n)
    /\ (count <= 0 -> n = count)
    /\ (n <= 0 \/ fits h base region_end gl n = true)
    /\ (forall t, n < t <= count -> fits h base region_end gl t = false).
Proof.
  induction fuel as [|fuel IH]; intros count Hfuel Hfld; cbn.
  - repeat split; try lia.
  - destruct (0 <? count) eqn:Epos; cmp_facts.
    + destruct (fits h base region_end gl count) eqn:Efit.
      * repeat split; try lia; auto.
      * rewrite (Hfld (count - 1)) by lia.
        destruct (IH (count - 1)) as (H1 & H2 & H3 & H4 & H5).
        { lia. }
        { intros z Hz. apply Hfld. lia. }
        cbn in *. repeat split; try lia; auto.
        intros t Ht. destruct (Z.eq_dec t count) as [->|Hne]; [exact Efit|].
        apply H5. lia.
    + repeat split; try lia.
Qed.

Lemma region_end_exact B :
  0 <= B -> 8 * B <= INT_MAX -> int_div (region_bit_length B) 8 = B.
Proof.
  intros H0 H1. unfold region_bit_length.
  rewrite to_int_id by (unfold in_int, INT_MIN, INT_MAX in *; lia).
  unfold int_div. rewrite Z.mul_comm, Z.quot_mul by lia.
  apply to_int_id. unfold in_int, INT_MIN, INT_MAX in *. lia.
Qed.

(** C8. In raw mode the count of the resolved layout is the result of
    the truncation loop, which takes one off the count while the count
    is positive and the last element's highest byte is not below the end
    of the region, its byte length: the result is at most the computed
    count and is one that fits or is not positive, every count passed on
    the way did not fit, a count that starts at or above 0 stays at or
    above 0, and a count that starts at 0 or below stays as it is. *)
Theorem raw_truncation :
  forall (h : drawgfx_h) (B base : Z) (gl : GfxLayout),
    (forall z, 0 <= z < total gl -> fld h z = z) ->
    let L := region_bit_length B in
    let region_end := int_div L 8 in
    let n := truncate_total h base region_end gl in
    (nth 0 (planeoffset gl) 0 = GFX_RAW h -> total (resolve_raw h L base gl) = n)
    /\ (nth 0 (planeoffset gl) 0 <> GFX_RAW h -> resolve_raw h L base gl = gl)
    /\ (0 <= B -> 8 * B <= INT_MAX -> region_end = B)
    /\ n <= total gl
    /\ (0 <= total gl -> 0 <= n)
    /\ (total gl <= 0 -> n = total gl)
    /\ (n <= 0 \/ fits h base region_end gl n = true)
    /\ (forall t, n < t <= total gl -> fits h base region_end gl t = false).
Proof.
  intros h B base gl Hfld L region_end n.
  split; [|split; [|split]].
  - intros Hraw. unfold resolve_raw. apply Z.eqb_eq in Hraw. now rewrite Hraw.
  - intros Hraw. unfold resolve_raw. apply Z.eqb_neq in Hraw. now rewrite Hraw.
  - intros H0 H1. now apply region_end_exact.
  - subst n. unfold truncate_total.
    apply truncate_loop_spec; [|exact Hfld].
    destruct (total gl); cbn; lia.
Qed.

(** Ten 8-byte elements, each reaching 16 bytes from its base, over a
    50-byte region: five remain. *)
Lemma raw_truncation_witness :
  let gl := mkLayout 8 8 10 1 [305419896] [0] [16] 64 in
  total (resolve_raw sample_header (region_bit_length 50) 0 gl) = 5
  /\ fits sample_header 0 50 gl 5 = true
  /\ fits sample_header 0 50 gl 6 = false.
Proof.
  intros gl.
  assert (Hfld : forall z, 0 <= z < total gl -> fld sample_header z = z)
    by (intros z Hz; cbn in *; apply Z.mod_small; lia).
  destruct (raw_truncation sample_header 50 0 gl Hfld) as (Hraw & _).
  split; [|split].
  - rewrite Hraw by reflexivity. vm_compute. reflexivity.
  - vm_compute. reflexivity.
  - vm_compute. reflexivity.
Defined.

End GfxFacts.

Module ChdFacts.
Import Driver Chd.

Lemma ancestry_unfold d :
  ancestry d = d :: match clone_of d with
                    | None => []
                    | Some p => ancestry p
                    end.
Proof. destruct d; reflexivity. Qed.

Lemma open_up_the_chain_unfold fopen file d :
  open_up_the_chain fopen file d =
  if negb (fopen (image_call file d) =? 0)
  then (fopen (image_call file d), [image_call file d])
  else match clone_of d with
       | None => (0, [image_call file d])
       | Some p => let (r, calls) := open_up_the_chain fopen file p in
                   (r, image_call file d :: calls)
       end.
Proof. destruct d; reflexivity. Qed.

Section Walk.
Context (fopen : fopen_call -> Z) (file : string).

(** Every ancestor yields NULL: all were asked, in order, and the
    result is NULL. *)
Lemma open_up_the_chain_exhausted :
  forall (chain : list GameDriver) (d : GameDriver),
    ancestry d = chain ->
    Forall (yields_null fopen file) chain ->
    open_up_the_chain fopen file d = (0, map (image_call file) chain).
Proof.
  induction chain as [|a chain IH]; intros d Hd Hall;
    rewrite ancestry_unfold in Hd; [discriminate|].
  injection Hd as -> Hrest.
  inversion Hall as [|? ? Hnull Hall']; subst.
  rewrite open_up_the_chain_unfold.
  unfold yields_null in Hnull. rewrite Hnull. cbn.
  destruct (clone_of a) as [p|]; [|reflexivity].
  now rewrite (IH p eq_refl Hall').
Qed.

(** The first ancestor that yields a handle ends the walk: the ones
    before it and itself were asked, in order, and its handle is the
    result. *)
Lemma open_up_the_chain_first :
  forall (pre : list GameDriver) (d a : GameDriver) (post : list GameDriver),
    ancestry d = pre ++ a :: post ->
    Forall (yields_null fopen file) pre ->
    fopen (image_call file a) <> 0 ->
    open_up_the_chain fopen file d
    = (fopen (image_call file a), map (image_call file) (pre ++ [a])).
Proof.
  induction pre as [|b pre IH]; intros d a post Hd Hpre Hfound;
    rewrite ancestry_unfold in Hd; cbn in Hd; injection Hd as -> Hrest;
    rewrite open_up_the_chain_unfold.
  - apply Z.eqb_neq in Hfound. rewrite Hfound. reflexivity.
  - inversion Hpre as [|? ? Hnull Hpre']; subst.
    unfold yields_null in Hnull. rewrite Hnull. cbn.
    destruct (clone_of b) as [p|].
    + now rewrite (IH p a post Hrest Hpre' Hfound).
    + destruct pre; discriminate.
Qed.

End Walk.

(** C9. Opened with a read-only mode (first character r and no +), a
    disk image is asked of the active driver and then of each clone-of
    ancestor in turn; the first handle that is not NULL is returned and
    no further ancestor is asked, and NULL is returned when all of them
    yield NULL.  Opened with any other mode, one call is made, for the
    difference file with no driver named, and its handle is returned. *)
Theorem mame_chd_open_spec :
  forall (fopen : fopen_call -> Z) (gamedrv : option GameDriver) (file mode : string),
    let chain := match gamedrv with Some d => ancestry d | None => [] end in
    let result := mame_chd_open fopen gamedrv file mode in
    (read_only_mode mode = true ->
       (Forall (yields_null fopen file) chain ->
          result = (0, map (image_call file) chain))
       /\ (forall pre a post,
             chain = pre ++ a :: post ->
             Forall (yields_null fopen file) pre ->
             fopen (image_call file a) <> 0 ->
             result = (fopen (image_call file a),
                       map (image_call file) (pre ++ [a]))))
    /\ (read_only_mode mode = false ->
          result = (fopen (diff_call file), [diff_call file])
          /\ Forall (fun c => consults_chain c = false) (snd result)).
Proof.
  intros fopen gamedrv file mode chain result. subst chain result.
  unfold mame_chd_open. split.
  - intros ->. destruct gamedrv as [d|]; split.
    + now apply open_up_the_chain_exhausted.
    + intros pre a post Hchain. now apply open_up_the_chain_first with (post := post).
    + reflexivity.
    + intros pre a post Hchain. destruct pre; discriminate.
  - intros ->. split; [reflexivity|]. repeat constructor.
Qed.

(** A clone whose own ROM path lacks the image that its parent has:
    both are asked, the parent's handle comes back; opened for update,
    only the difference file is asked. *)
Lemma mame_chd_open_spec_witness :
  let id := fun x : InternalMachineDriver => x in
  let parent := mkGameDriver "area51" None id false 1 1 in
  let clone := mkGameDriver "area51mx" (Some parent) id false 1 1 in
  let fopen := fun c : fopen_call =>
                 match gamename c with
                 | Some n => if String.eqb n "area51"%string then 7 else 0
                 | None => 9
                 end in
  mame_chd_open fopen (Some clone) "area51.chd" "rb"
  = (7, [mkFopen (Some "area51mx"%string) "area51.chd" FILETYPE_IMAGE 0;
         mkFopen (Some "area51"%string) "area51.chd" FILETYPE_IMAGE 0])
  /\ mame_chd_open fopen (Some clone) "area51.chd" "rb+"
     = (9, [mkFopen None "area51.chd" FILETYPE_IMAGE_DIFF 1]).
Proof.
  intros id parent clone fopen.
  destruct (mame_chd_open_spec fopen (Some clone) "area51.chd" "rb") as [Hro _].
  destruct (mame_chd_open_spec fopen (Some clone) "area51.chd" "rb+") as [_ Hrw].
  split.
  - destruct (Hro eq_refl) as [_ Hfirst].
    apply (Hfirst [clone] parent []).
    + reflexivity.
    + repeat constructor.
    + vm_compute. discriminate.
  - apply (Hrw eq_refl).
Defined.

End ChdFacts.

Module AspectFacts.
Import Driver Aspect.

Lemma compute_aspect_ratio_explicit flag d out :
  aspect_x d <> 0 -> aspect_y d <> 0 ->
  compute_aspect_ratio flag d out = (aspect_x d, aspect_y d).
Proof.
  intros Hx Hy. unfold compute_aspect_ratio.
  apply Z.eqb_neq in Hx, Hy. now rewrite Hx, Hy.
Qed.

Lemma compute_aspect_ratio_default flag d out :
  aspect_x d = 0 \/ aspect_y d = 0 ->
  Z.land (video_attributes d) flag = 0 ->
  compute_aspect_ratio flag d out = (4, 3).
Proof.
  intros Hxy Hflag. unfold compute_aspect_ratio. rewrite Hflag. cbn.
  destruct Hxy as [-> | ->]; cbn; [reflexivity|].
  now destruct (aspect_x d =? 0).
Qed.

(** C10, the code's behaviour where 4:6 is specified.  For a driver
    that declares no aspect ratio and has the dual-monitor flag set,
    [compute_aspect_ratio] writes neither output: the branch that holds
    the choice between 6 and 3 is entered only with the flag clear. *)
Theorem compute_aspect_ratio_dual_monitor :
  forall (flag : Z) (d : InternalMachineDriver) (out : Z * Z),
    aspect_x d = 0 \/ aspect_y d = 0 ->
    Z.land (video_attributes d) flag <> 0 ->
    compute_aspect_ratio flag d out = out.
Proof.
  intros flag d out Hxy Hflag. unfold compute_aspect_ratio.
  apply Z.eqb_neq in Hflag. rewrite Hflag.
  destruct Hxy as [-> | ->]; cbn; [reflexivity|].
  now destruct (aspect_x d =? 0).
Qed.

(** A dual-monitor driver without a declared ratio, outputs holding 0
    and 0 at the call: they still do at the return, and are not 4 and 6. *)
Lemma compute_aspect_ratio_dual_monitor_witness :
  let d := mkMachineDriver 64 0 0 512 256 (Video.mkRect 0 511 0 255) None false false in
  compute_aspect_ratio 64 d (0, 0) = (0, 0)
  /\ compute_aspect_ratio 64 d (0, 0) <> (4, 6).
Proof.
  intros d.
  assert (H1 : aspect_x d = 0 \/ aspect_y d = 0) by (left; reflexivity).
  assert (H2 : Z.land (video_attributes d) 64 <> 0) by (vm_compute; discriminate).
  rewrite (compute_aspect_ratio_dual_monitor 64 d (0, 0) H1 H2).
  split; [reflexivity | discriminate].
Defined.

End AspectFacts.

Module MemoryFacts.
Import Memory.

Lemma length_memset obj c n : length (memset obj c n) = length obj.
Proof.
  unfold memset. rewrite length_app, repeat_length, length_skipn. lia.
Qed.

Lemma memset_whole obj c : memset obj c (length obj) = repeat c (length obj).
Proof.
  unfold memset. rewrite Nat.min_id, skipn_all. apply app_nil_r.
Qed.

(** Bytes at and past the count are not written. *)
Lemma nth_memset_beyond obj c n i d :
  (n <= i)%nat -> nth i (memset obj c n) d = nth i obj d.
Proof.
  intros Hi. unfold memset.
  destruct (Nat.le_gt_cases n (length obj)) as [Hn|Hn].
  - rewrite Nat.min_l by exact Hn.
    rewrite app_nth2; rewrite repeat_length; [|lia].
    rewrite nth_skipn. f_equal. lia.
  - rewrite Nat.min_r by lia.
    rewrite (nth_overflow obj) by lia.
    apply nth_overflow.
    rewrite length_app, repeat_length, length_skipn. lia.
Qed.

Lemma length_store obj offset bytes :
  (offset + length bytes <= length obj)%nat ->
  length (store obj offset bytes) = length obj.
Proof.
  intros H. unfold store.
  rewrite !length_app, length_firstn, length_skipn. lia.
Qed.

(** A store writes the bytes of its member only. *)
Lemma nth_store_outside obj offset bytes i d :
  (offset + length bytes <= length obj)%nat ->
  (i < offset \/ offset + length bytes <= i)%nat ->
  nth i (store obj offset bytes) d = nth i obj d.
Proof.
  intros Hfit Hi. unfold store.
  destruct Hi as [Hlt|Hge].
  - rewrite app_nth1 by (rewrite length_firstn; lia).
    rewrite nth_firstn. apply Nat.ltb_lt in Hlt. now rewrite Hlt.
  - rewrite app_nth2 by (rewrite length_firstn; lia).
    rewrite length_firstn, Nat.min_l by lia.
    rewrite app_nth2 by lia.
    rewrite nth_skipn. f_equal. lia.
Qed.

(** C2, what the code does.  After the first statements of [run_game],
    a byte of [active_machine] that lies past the first pointer-sized
    bytes, and outside the two members assigned ([gamedrv], [drv]),
    holds what it held before: the [memset] of the machine covers
    [sizeof(Machine)] bytes, the size of a pointer, so members past it
    keep the previous session's values.  The configuration buffer is
    cleared whole before the constructor runs and owes nothing to its
    previous contents. *)
Theorem run_game_prologue_spec :
  forall (t : target) (constructor : list Z -> list Z)
         (gamedrv_ptr drv_ptr active_machine internal_drv : list Z) (i : nat),
    length gamedrv_ptr = sizeof_pointer t ->
    length drv_ptr = sizeof_pointer t ->
    (offsetof_gamedrv t + sizeof_pointer t <= length active_machine)%nat ->
    (offsetof_drv t + sizeof_pointer t <= length active_machine)%nat ->
    (sizeof_pointer t <= i)%nat ->
    (i < offsetof_gamedrv t \/ offsetof_gamedrv t + sizeof_pointer t <= i)%nat ->
    (i < offsetof_drv t \/ offsetof_drv t + sizeof_pointer t <= i)%nat ->
    let after :=
      run_game_prologue t constructor gamedrv_ptr drv_ptr active_machine internal_drv in
    nth i (fst after) 0 = nth i active_machine 0
    /\ snd after = constructor (repeat 0 (length internal_drv)).
Proof.
  intros t constructor gp dp m d i Hgp Hdp Hg Hd Hi Hig Hid after.
  subst after. unfold run_game_prologue, clean_machine, expand_machine_driver. cbn.
  split.
  - rewrite nth_store_outside.
    + rewrite nth_store_outside.
      * now apply nth_memset_beyond.
      * rewrite length_memset. lia.
      * lia.
    + rewrite length_store; rewrite length_memset; lia.
    + lia.
  - now rewrite memset_whole.
Qed.

(** Pointers of 8 bytes, [gamedrv] and [drv] the first two members of
    a machine of 32 bytes that a previous session left all-ones: byte 16
    is still 255 after the prologue, so the machine is not all zero
    apart from the two pointers stored. *)
Lemma run_game_prologue_spec_witness :
  let t := mkTarget 8 0 8 in
  let stale := repeat 255 32 in
  let after := run_game_prologue t (fun b => b) (repeat 1 8) (repeat 2 8) stale (repeat 7 4) in
  nth 16 (fst after) 0 = 255 /\ snd after = [0; 0; 0; 0].
Proof.
  intros t stale after.
  assert (H1 : length (repeat 1 8) = sizeof_pointer t) by reflexivity.
  assert (H2 : length (repeat 2 8) = sizeof_pointer t) by reflexivity.
  assert (H3 : (offsetof_gamedrv t + sizeof_pointer t <= length stale)%nat)
    by (cbn; lia).
  assert (H4 : (offsetof_drv t + sizeof_pointer t <= length stale)%nat)
    by (cbn; lia).
  assert (H5 : (sizeof_pointer t <= 16)%nat) by (cbn; lia).
  assert (H6 : (16 < offsetof_gamedrv t \/ offsetof_gamedrv t + sizeof_pointer t <= 16)%nat)
    by (cbn; lia).
  assert (H7 : (16 < offsetof_drv t \/ offsetof_drv t + sizeof_pointer t <= 16)%nat)
    by (cbn; lia).
  exact (run_game_prologue_spec t (fun b => b) (repeat 1 8) (repeat 2 8) stale
           (repeat 7 4) 16%nat H1 H2 H3 H4 H5 H6 H7).
Defined.

End MemoryFacts.

Module LifecycleFacts.
Import CInt Driver Lifecycle.
Local Open Scope stmt_scope.

(** *** Logs *)

Lemma messages_app l1 l2 : messages (l1 ++ l2) = (messages l1 + messages l2)%nat.
Proof. unfold messages. now rewrite filter_app, length_app. Qed.

Lemma adds_refl l : adds 0 l l.
Proof. exists []. now rewrite app_nil_r. Qed.

Lemma adds_snoc_quiet k l l' c :
  adds k l l' -> is_printf c = false -> adds k l (l' ++ [c]).
Proof.
  intros (new & -> & Hk) Hc. exists (new ++ [c]).
  rewrite app_assoc, messages_app. unfold messages at 2. cbn. rewrite Hc. cbn.
  split; [reflexivity | lia].
Qed.

Lemma adds_snoc_printf k l l' m :
  adds k l l' -> adds (S k) l (l' ++ [Printf m]).
Proof.
  intros (new & -> & Hk). exists (new ++ [Printf m]).
  rewrite app_assoc, messages_app. cbn. split; [reflexivity | lia].
Qed.

Lemma adds_app_quiet k l l' extra :
  adds k l l' -> messages extra = 0%nat -> adds k l (l' ++ extra).
Proof.
  intros (new & -> & Hk) He. exists (new ++ extra).
  rewrite app_assoc, messages_app. split; [reflexivity | lia].
Qed.

Lemma adds_chain k0 k1 k l l1 l2 :
  adds k1 l1 l2 -> adds k0 l l1 -> k = (k0 + k1)%nat -> adds k l l2.
Proof.
  intros (n1 & -> & H1) (n0 & -> & H0) ->. exists (n0 ++ n1).
  rewrite app_assoc, messages_app. split; [reflexivity | lia].
Qed.

Lemma adds_messages k l l' : adds k l l' -> messages l' = (messages l + k)%nat.
Proof. intros (new & -> & Hk). rewrite messages_app. lia. Qed.

Lemma messages_freegfx (g : list gfx_slot) :
  messages (map (fun sl => FreeGfx (element sl)) g) = 0%nat.
Proof. induction g; [reflexivity | exact IHg]. Qed.

(** *** Rules for statements *)

Section Rules.
Context {A B : Type}.

Lemma wpo_bind (c : M A) (k : A -> M B) Q o :
  wpo c (fun a o' => wpo (k a) Q o') o -> wpo (bind c k) Q o.
Proof.
  intros H s Hs. unfold bind. specialize (H s Hs).
  destruct (c s) as [a s']. cbn in *. now apply H.
Qed.

Lemma wpo_ret (a : A) (Q : A -> _ -> Prop) o : Q a o -> wpo (ret a) Q o.
Proof. intros H s <-. exact H. Qed.

Lemma wpo_get (f : session -> A) (Q : A -> _ -> Prop) o :
  (forall a, Q a o) -> wpo (get f) Q o.
Proof. intros H s <-. apply H. Qed.

Lemma wpo_conseq (c : M A) (Q Q' : A -> _ -> Prop) o :
  wpo c Q o -> (forall a o', Q a o' -> Q' a o') -> wpo c Q' o.
Proof. intros H HQ s Hs. apply HQ. now apply H. Qed.

End Rules.

Lemma wpo_get_bailing (Q : Z -> _ -> Prop) b l :
  Q b (b, l) -> wpo (get bailing) Q (b, l).
Proof. intros H s Hs. unfold obs in Hs. injection Hs as <- <-. exact H. Qed.

Lemma wpo_modify_quiet (f : session -> session) (Q : unit -> _ -> Prop) o :
  (forall s, obs (f s) = obs s) -> Q tt o -> wpo (modify f) Q o.
Proof. intros Hf H s <-. cbn. now rewrite Hf. Qed.

Lemma wpo_set_bailing v (Q : unit -> _ -> Prop) b l :
  Q tt (v, l) -> wpo (modify (set_bailing v)) Q (b, l).
Proof. intros H s Hs. unfold obs in Hs. injection Hs as <- <-. exact H. Qed.

Lemma wpo_append extra (Q : unit -> _ -> Prop) b l :
  Q tt (b, l ++ extra) ->
  wpo (modify (fun s => set_log (log s ++ extra) s)) Q (b, l).
Proof. intros H s Hs. unfold obs in Hs. injection Hs as <- <-. exact H. Qed.

Lemma wpo_emit c (Q : unit -> _ -> Prop) b l :
  Q tt (b, l ++ [c]) -> wpo (emit c) Q (b, l).
Proof. apply wpo_append. Qed.

Lemma wpo_ask c r (Q : Z -> _ -> Prop) b l :
  Q r (b, l ++ [c r]) -> wpo (ask c r) Q (b, l).
Proof. intros H. unfold ask. apply wpo_bind, wpo_emit, wpo_ret. exact H. Qed.

(** One statement forward. *)
Ltac wpo_step :=
  cbn beta zeta;
  lazymatch goal with
  | |- wpo (bind _ _) _ _ => apply wpo_bind
  | |- wpo (ret _) _ _ => apply wpo_ret
  | |- wpo (get bailing) _ _ => apply wpo_get_bailing
  | |- wpo (get _) _ _ => apply wpo_get; intros ?
  | |- wpo (modify (set_bailing _)) _ _ => apply wpo_set_bailing
  | |- wpo (modify _) _ _ =>
      first [apply wpo_append | apply wpo_modify_quiet; [intros ?; reflexivity|]]
  | |- wpo (emit _) _ _ => apply wpo_emit
  | |- wpo (ask _ _) _ _ => apply wpo_ask
  | |- wpo (if ?b then _ else _) _ _ =>
      let E := fresh "E" in
      destruct b eqn:E; try (cbn in E; discriminate E)
  | |- wpo (match ?x with _ => _ end) _ _ => destruct x
  end.

(** The log at the end against the log at the start. *)
Ltac adds_tac :=
  repeat first
    [ eassumption
    | reflexivity
    | match goal with
      | H : adds _ ?l1 ?l2 |- adds _ _ ?l2 => eapply (adds_chain _ _ _ _ l1 l2 H)
      end
    | apply adds_refl
    | apply adds_snoc_printf
    | apply adds_snoc_quiet; [|reflexivity]
    | apply adds_app_quiet; [|apply messages_freegfx] ].

Ltac conj_leaf :=
  cbn [fst snd];
  repeat match goal with |- _ /\ _ => split end;
  try reflexivity; adds_tac.
Ltac quiet_leaf := conj_leaf.

Section Startup.
Context (w : world).

(** [init_machine] prints nothing and leaves the latch alone. *)
Lemma init_machine_quiet gd b l :
  wpo (init_machine w gd) (fun _ o' => fst o' = b /\ adds 0 l (snd o')) (b, l).
Proof.
  unfold init_machine, init_machine_after_ports, cant_init_memory, cant_load_roms,
    cant_allocate_input_ports_default, cant_allocate_input_ports, cant_init_input.
  repeat wpo_step; quiet_leaf.
Qed.

Lemma vh_close_quiet b l :
  wpo (vh_close w) (fun _ o' => fst o' = b /\ adds 0 l (snd o')) (b, l).
Proof. unfold vh_close. repeat wpo_step; quiet_leaf. Qed.

Lemma shutdown_machine_quiet b l :
  wpo shutdown_machine (fun _ o' => fst o' = b /\ adds 0 l (snd o')) (b, l).
Proof. unfold shutdown_machine. repeat wpo_step; quiet_leaf. Qed.

Lemma run_machine_core_quiet b l :
  wpo (run_machine_core w) (fun _ o' => fst o' = b /\ adds 0 l (snd o')) (b, l).
Proof. unfold run_machine_core. repeat wpo_step; quiet_leaf. Qed.

(** A statement that is a call of one of the functions above. *)
Ltac wpo_quiet_call lemma :=
  eapply wpo_conseq;
  [ apply lemma
  | intros ? [? ?] [? ?]; cbn [fst snd] in *; subst ].

(** The element loop either decodes everything in silence or stops at
    the first failure with the latch set and one message printed. *)
Lemma decode_graphics_from_spec :
  forall (fuel i : nat) (infos : list Gfx.GfxDecodeInfo) b l,
    wpo (decode_graphics_from w fuel i infos)
        (fun r o' => (r = 0 /\ fst o' = b /\ adds 0 l (snd o'))
                     \/ (r = 1 /\ fst o' = 1 /\ adds 1 l (snd o')))
        (b, l).
Proof.
  induction fuel as [|fuel IH]; intros i infos b l.
  - cbn. apply wpo_ret. left. quiet_leaf.
  - destruct infos as [|info rest]; cbn [decode_graphics_from].
    + apply wpo_ret. left. quiet_leaf.
    + repeat wpo_step.
      * left. quiet_leaf.
      * right. conj_leaf.
      * eapply wpo_conseq; [apply IH|].
        intros r [b' l'] [(-> & Hb & Hadd) | (-> & Hb & Hadd)];
          cbn [fst snd] in *; subst.
        -- left. conj_leaf.
        -- right. conj_leaf.
Qed.

Ltac vh_open_leaf :=
  unfold vh_open_post; cbn [fst snd];
  first [ left; solve [conj_leaf]
        | right; split; [reflexivity|];
          first [ left; solve [conj_leaf]
                | right; solve [conj_leaf] ] ].

(** [vh_open] succeeds in silence, or fails either in silence or after
    [decode_graphics] has set the latch and printed its message. *)
Lemma vh_open_spec b l : wpo (vh_open w) (vh_open_post b l) (b, l).
Proof.
  unfold vh_open, cant_start_palette, set_visible_area.
  repeat wpo_step;
    try (wpo_quiet_call vh_close_quiet; repeat wpo_step);
    try vh_open_leaf.
  all: unfold decode_graphics;
    (eapply wpo_conseq; [apply decode_graphics_from_spec|]);
    intros r [b' l'] [(-> & Hb & Hadd) | (-> & Hb & Hadd)];
    cbn [fst snd] in *; subst;
    repeat wpo_step;
    try (wpo_quiet_call vh_close_quiet; repeat wpo_step);
    try vh_open_leaf.
Qed.

Ltac latched_leaf :=
  unfold latched_post; cbn [fst snd];
  first [ left; solve [conj_leaf] | right; solve [conj_leaf] ].

(** With the latch clear at entry, [run_machine] succeeds in silence
    or fails with exactly one message. *)
Lemma run_machine_spec l : wpo (run_machine w) (latched_post l) (0, l).
Proof.
  unfold run_machine, bail_and_print.
  apply wpo_bind.
  eapply wpo_conseq; [apply vh_open_spec|].
  intros r [b' l'] [(-> & Hb & Hadd) | (-> & [(Hb & Hadd) | (Hb & Hadd)])];
    cbn [fst snd] in *; subst;
    repeat wpo_step;
    try (wpo_quiet_call vh_close_quiet; repeat wpo_step);
    try (wpo_quiet_call run_machine_core_quiet; repeat wpo_step);
    latched_leaf.
Qed.

(** Resolving the options always succeeds, in silence. *)
Lemma init_game_options_quiet b l :
  wpo (init_game_options w)
      (fun r o' => r = 0 /\ fst o' = b /\ adds 0 l (snd o')) (b, l).
Proof. unfold init_game_options. repeat wpo_step; conj_leaf. Qed.

(** [run_game]: success prints nothing, failure prints one message. *)
Lemma run_game_spec gd b l :
  wpo (run_game w gd)
      (fun r o' => (r = 0 /\ adds 0 l (snd o')) \/ (r = 1 /\ adds 1 l (snd o')))
      (b, l).
Proof.
  unfold run_game, bail_and_print.
  repeat wpo_step.
  eapply wpo_conseq; [apply init_game_options_quiet|].
  intros r [b' l'] (-> & Hb & Hadd); cbn [fst snd] in *; subst.
  repeat wpo_step; try (right; solve [conj_leaf]).
  wpo_quiet_call init_machine_quiet.
  repeat wpo_step;
    try (wpo_quiet_call shutdown_machine_quiet; repeat wpo_step);
    try (right; solve [conj_leaf]).
  eapply wpo_conseq; [apply run_machine_spec|].
  intros r [b2 l2] [(-> & Hb2 & Hadd2) | (-> & Hb2 & Hadd2)];
    cbn [fst snd] in *; subst;
    repeat wpo_step;
    try (wpo_quiet_call shutdown_machine_quiet; repeat wpo_step);
    first [ left; solve [conj_leaf] | right; solve [conj_leaf] ].
Qed.

End Startup.

Lemma before_from_release l : before_release l ++ from_release l = l.
Proof.
  induction l as [|c rest IH]; [reflexivity|]. cbn.
  destruct (is_release_call c); cbn; [reflexivity | now rewrite IH].
Qed.

(** All sub-steps succeed: [init_machine] returns 0. *)
Lemma init_machine_success w gd s :
  ~ some_step_fails w gd -> fst (init_machine w gd s) = 0.
Proof.
  intros Hok. unfold some_step_fails in Hok.
  unfold init_machine, init_machine_after_ports, cant_init_memory, cant_load_roms,
    cant_allocate_input_ports_default, cant_allocate_input_ports, cant_init_input,
    ask, emit, modify, get, bind, ret, nonzero.
  cbn.
  repeat match goal with
         | |- context [?x =? 0] => destruct (x =? 0) eqn:?; cbn
         | |- context [if driver_init gd then _ else _] => destruct (driver_init gd); cbn
         end; cmp_facts; try reflexivity; exfalso; apply Hok; tauto.
Qed.

(** The rollback of [init_machine] in a session whose port members
    hold no pointer at entry when the driver declares no ports: when a
    sub-step fails (localization, input system, either port
    allocation, ROM load, memory system), the function returns 1; the
    calls it made are an attempt without any release followed by a
    rollback made of release calls only, and what the rollback releases
    is what the attempt acquired of the input system, the live ports
    and the default ports, in reverse order: default ports, live ports,
    input system. *)
Theorem init_machine_rollback :
  forall (w : world) (gd : GameDriver) (s : session),
    some_step_fails w gd ->
    ports_clean gd s ->
    let r := fst (init_machine w gd s) in
    let s' := snd (init_machine w gd s) in
    r = 1
    /\ exists attempt rollback : list call,
         log s' = log s ++ attempt ++ rollback
         /\ releases attempt = []
         /\ Forall (fun c => is_release_call c = true) rollback
         /\ acquisitions rollback = []
         /\ releases rollback = rev (acquisitions attempt)
         /\ exists k : nat, acquisitions attempt = firstn k (stage_resources w).
Proof.
  intros w gd s Hfail Hclean r s'. subst r s'.
  unfold some_step_fails in Hfail. unfold ports_clean in Hclean.
  unfold init_machine, init_machine_after_ports, cant_init_memory, cant_load_roms,
    cant_allocate_input_ports_default, cant_allocate_input_ports, cant_init_input,
    ask, emit, modify, get, bind, ret, nonzero, stage_resources.
  cbn.
  repeat match goal with
         | |- context [?x =? 0] => destruct (x =? 0) eqn:?; cbn
         | |- context [if driver_init gd then _ else _] => destruct (driver_init gd); cbn
         end; cmp_facts;
    try (exfalso; tauto);
    (split; [reflexivity|]);
    rewrite <- ?app_assoc; cbn [app];
    match goal with
    | |- exists attempt rollback, log s ++ ?new = _ /\ _ =>
        exists (before_release new), (from_release new)
    end;
    cbn [before_release from_release is_release_call];
    (split; [reflexivity|]);
    unfold releases, acquisitions; cbn [flat_map acquired released app rev];
    repeat match goal with
           | H : ?x = 0 |- context [?x =? 0] => rewrite H
           | H : ?x <> 0 |- context [?x =? 0] =>
               rewrite (proj2 (Z.eqb_neq x 0) H)
           | H : _ /\ _ |- _ => destruct H
           | H : _ \/ _ |- _ => destruct H; try contradiction
           end;
    cbn;
    (split; [reflexivity|]);
    (split; [repeat constructor|]);
    (split; [reflexivity|]);
    (split; [reflexivity|]);
    first [ exists 0%nat; reflexivity | exists 1%nat; reflexivity
          | exists 2%nat; reflexivity | exists 3%nat; reflexivity ].
Qed.

(** ROM loading fails for a driver with ports: both port sets and the
    input system are released, default ports first. *)
Lemma init_machine_rollback_witness :
  fst (init_machine (sample_world 1 50 0) sample_driver fresh_session) = 1
  /\ log (snd (init_machine (sample_world 1 50 0) sample_driver fresh_session))
     = [UistringInit 0; CodeInit 0; InputPortAllocate 100; InputPortAllocate 101;
        ChdSetInterface; RomLoad 1; Logerror "readroms failed";
        InputPortFree 101; InputPortFree 100; CodeClose].
Proof.
  assert (Hfail : some_step_fails (sample_world 1 50 0) sample_driver).
  { right. right. right. left. cbn. split; discriminate. }
  assert (Hclean : ports_clean sample_driver fresh_session).
  { left. cbn. discriminate. }
  destruct (init_machine_rollback (sample_world 1 50 0) sample_driver fresh_session
              Hfail Hclean) as [Hr _].
  split; [exact Hr | vm_compute; reflexivity].
Defined.

(** The labels free whatever the members hold. *)
Remark init_machine_frees_member_values :
  forall (w : world) (gd : GameDriver) (s : session),
    w_uistring_init w = 0 -> w_code_init w = 0 ->
    Driver.input_ports gd = 0 -> rom gd <> 0 -> w_rom_load w <> 0 ->
    log (snd (init_machine w gd s))
    = log s ++ [UistringInit 0; CodeInit 0; ChdSetInterface; RomLoad (w_rom_load w);
                Logerror "readroms failed";
                InputPortFree (input_ports_default s); InputPortFree (input_ports s);
                CodeClose].
Proof.
  intros w gd s Hu Hc Hp Hr Hl.
  unfold init_machine, init_machine_after_ports, cant_init_memory, cant_load_roms,
    cant_allocate_input_ports_default, cant_allocate_input_ports, cant_init_input,
    ask, emit, modify, get, bind, ret, nonzero.
  apply Z.eqb_neq in Hr, Hl.
  rewrite Hu, Hc, Hp, Hr. cbn. rewrite Hl. cbn.
  rewrite <- !app_assoc. reflexivity.
Qed.

Lemma init_machine_memory_failure_log :
  forall (w : world) (gd : GameDriver) (s : session),
    w_uistring_init w = 0 -> w_code_init w = 0 ->
    Driver.input_ports gd = 0 -> rom gd = 0 \/ w_rom_load w = 0 ->
    w_memory_init w = 0 ->
    exists loaded : list call,
      (loaded = [] \/ loaded = [RomLoad 0])
      /\ log (snd (init_machine w gd s))
         = log s ++ [UistringInit 0; CodeInit 0; ChdSetInterface] ++ loaded
             ++ [TimerInit; CpuInitRefreshTimer; CpuInit;
                 LoadInputPortSettings (w_load_input_port_settings w);
                 MemoryInit 0; Logerror "memory_init failed";
                 InputPortFree (input_ports_default s);
                 InputPortFree (input_ports s); CodeClose].
Proof.
  intros w gd s Hu Hc Hp Hr Hm.
  unfold init_machine, init_machine_after_ports, cant_init_memory, cant_load_roms,
    cant_allocate_input_ports_default, cant_allocate_input_ports, cant_init_input,
    ask, emit, modify, get, bind, ret, nonzero.
  rewrite Hu, Hc, Hp, Hm. cbn.
  destruct (Z.eqb_spec (rom gd) 0) as [E|E]; cbn.
  - exists []. split; [now left|]. cbn. rewrite <- !app_assoc. reflexivity.
  - destruct Hr as [Hr|Hr]; [contradiction|]. rewrite Hr. cbn.
    exists [RomLoad 0]. split; [now right|]. cbn. rewrite <- !app_assoc. reflexivity.
Qed.

(** C1. For a driver that declares no input ports, a failure of
    [init_machine] after the input system is up (ROM load or memory
    system) returns 1 and acquires the input system only, and its
    labels free the two port members with whatever they hold at entry,
    default ports first, before they close the input system.  What is
    released is what was acquired, in reverse order, exactly when both
    members hold no pointer at entry; a member left over from an
    earlier session is freed again. *)
Theorem init_machine_stale_ports :
  forall (w : world) (gd : GameDriver) (s : session),
    w_uistring_init w = 0 -> w_code_init w = 0 ->
    Driver.input_ports gd = 0 ->
    (rom gd <> 0 /\ w_rom_load w <> 0)
    \/ ((rom gd = 0 \/ w_rom_load w = 0) /\ w_memory_init w = 0) ->
    let r := fst (init_machine w gd s) in
    let s' := snd (init_machine w gd s) in
    r = 1
    /\ exists new : list call,
         log s' = log s ++ new
         /\ acquisitions new = [InputSystem]
         /\ releases new
            = released (InputPortFree (input_ports_default s))
              ++ released (InputPortFree (input_ports s)) ++ [InputSystem]
         /\ (releases new = rev (acquisitions new)
             <-> input_ports s = 0 /\ input_ports_default s = 0).
Proof.
  intros w gd s Hu Hc Hp Hfail r s'. subst r s'.
  assert (Hr : fst (init_machine w gd s) = 1).
  { unfold init_machine, init_machine_after_ports, cant_init_memory, cant_load_roms,
      cant_allocate_input_ports_default, cant_allocate_input_ports, cant_init_input,
      ask, emit, modify, get, bind, ret, nonzero.
    rewrite Hu, Hc, Hp. cbn.
    destruct Hfail as [[Hrom Hload] | [Hload Hmem]].
    - apply Z.eqb_neq in Hrom, Hload. rewrite Hrom. cbn. rewrite Hload. reflexivity.
    - rewrite Hmem.
      destruct (Z.eqb_spec (rom gd) 0) as [E|E]; cbn; [reflexivity|].
      destruct Hload as [Hload|Hload]; [contradiction|]. rewrite Hload. reflexivity. }
  split; [exact Hr|].
  assert (Hends : forall p q : Z,
            (released (InputPortFree q) ++ released (InputPortFree p) ++ [InputSystem]
             = rev [InputSystem]
             <-> p = 0 /\ q = 0)).
  { intros p q. cbn.
    destruct (Z.eqb_spec q 0) as [Eq|Eq], (Z.eqb_spec p 0) as [Ep|Ep]; cbn;
      split; intros H; try (split; assumption); try reflexivity;
      try discriminate H; destruct H; contradiction. }
  destruct Hfail as [[Hrom Hload] | [Hload Hmem]].
  - eexists. split.
    + apply (init_machine_frees_member_values w gd s Hu Hc Hp Hrom Hload).
    + unfold acquisitions, releases. cbn [flat_map acquired released app Z.eqb].
      rewrite ?app_nil_r.
      split; [reflexivity | split; [reflexivity|]]. apply Hends.
  - destruct (init_machine_memory_failure_log w gd s Hu Hc Hp Hload Hmem)
      as (loaded & Hloaded & Hlog).
    eexists. split; [exact Hlog|].
    unfold acquisitions, releases. rewrite !flat_map_app.
    replace (flat_map acquired loaded) with (@nil resource)
      by (destruct Hloaded as [-> | ->]; reflexivity).
    replace (flat_map released loaded) with (@nil resource)
      by (destruct Hloaded as [-> | ->]; reflexivity).
    cbn [flat_map acquired released app Z.eqb].
    rewrite ?app_nil_r.
    split; [reflexivity | split; [reflexivity|]]. apply Hends.
Qed.

(** A second session in one process: the driver declares no ports, its
    ROM load fails, and the port members still hold the pointers that
    the first session allocated and [shutdown_machine] freed. *)
Lemma init_machine_stale_ports_witness :
  let gd := mkGameDriver "portless" None (fun d => d) false 1 0 in
  let s := set_input_ports_default 4661 (set_input_ports 4660 fresh_session) in
  let new := log (snd (init_machine (sample_world 1 50 0) gd s)) in
  fst (init_machine (sample_world 1 50 0) gd s) = 1
  /\ acquisitions new = [InputSystem]
  /\ releases new = [Ports 4661; Ports 4660; InputSystem]
  /\ releases new <> rev (acquisitions new).
Proof.
  intros gd s new.
  assert (Hu : w_uistring_init (sample_world 1 50 0) = 0) by reflexivity.
  assert (Hc : w_code_init (sample_world 1 50 0) = 0) by reflexivity.
  assert (Hp : Driver.input_ports gd = 0) by reflexivity.
  assert (Hfail : (rom gd <> 0 /\ w_rom_load (sample_world 1 50 0) <> 0)
                  \/ ((rom gd = 0 \/ w_rom_load (sample_world 1 50 0) = 0)
                      /\ w_memory_init (sample_world 1 50 0) = 0))
    by (left; split; discriminate).
  destruct (init_machine_stale_ports (sample_world 1 50 0) gd s Hu Hc Hp Hfail)
    as (Hr & new' & Hlog & Hacq & Hrel & Hiff).
  change (log s) with (@nil call) in Hlog. cbn [app] in Hlog.
  fold new in Hlog. subst new'.
  split; [exact Hr | split; [exact Hacq | split; [exact Hrel|]]].
  intros H. apply Hiff in H. destruct H as [H _]. discriminate H.
Defined.

(** C6. In one run of [run_game], which clears the latch after the
    options are resolved, the calls made are added to the log and among
    them at most one is a diagnostic message: exactly one when the run
    returns failure, whichever stage failed and whatever the clean-up
    after it did, and none when it returns success. *)
Theorem run_game_one_message :
  forall (w : world) (gd : GameDriver) (s : session),
    let r := fst (run_game w gd s) in
    let s' := snd (run_game w gd s) in
    exists new : list call,
      log s' = log s ++ new
      /\ (messages new <= 1)%nat
      /\ (r <> 0 -> messages new = 1%nat)
      /\ (r = 0 -> messages new = 0%nat).
Proof.
  intros w gd s r s'. subst r s'.
  destruct (run_game_spec w gd (bailing s) (log s) s eq_refl)
    as [(Hr & new & Hlog & Hn) | (Hr & new & Hlog & Hn)];
    cbn [obs snd] in Hlog; exists new; rewrite Hr, Hn;
    (split; [exact Hlog|]); repeat split; intros; try lia; congruence.
Qed.

(** A run in which the second stage of video bring-up fails inside
    [decode_graphics], and clean-up follows: one message. *)
Lemma run_game_one_message_witness :
  fst (run_game (sample_world 0 0 0) sample_driver fresh_session) = 1
  /\ filter is_printf
       (log (snd (run_game (sample_world 0 0 0) sample_driver fresh_session)))
     = [Printf "Out of memory decoding gfx"]
  /\ exists new : list call,
       log (snd (run_game (sample_world 0 0 0) sample_driver fresh_session))
       = log fresh_session ++ new
       /\ (messages new <= 1)%nat.
Proof.
  split; [vm_compute; reflexivity|]. split; [vm_compute; reflexivity|].
  destruct (run_game_one_message (sample_world 0 0 0) sample_driver fresh_session)
    as (new & Hlog & Hle & _).
  exists new. split; [exact Hlog | exact Hle].
Defined.

End LifecycleFacts.

Module RegistryFacts.
Import Registry.

Section Generic.
Context {E : Type} {ops : Slot E}.

Lemma length_update i (f : E -> E) slots : length (update i f slots) = length slots.
Proof.
  revert i. induction slots as [|e rest IH]; intros [|i]; cbn; auto.
Qed.

Lemma nth_error_update_eq i (f : E -> E) slots e :
  nth_error slots i = Some e -> nth_error (update i f slots) i = Some (f e).
Proof.
  revert i. induction slots as [|x rest IH]; intros [|i] H; cbn in *;
    try discriminate.
  - now injection H as ->.
  - now apply IH.
Qed.

Lemma nth_error_update_ne i j (f : E -> E) slots :
  i <> j -> nth_error (update i f slots) j = nth_error slots j.
Proof.
  revert i j. induction slots as [|x rest IH]; intros [|i] [|j] H; cbn;
    try reflexivity; try contradiction.
  apply IH. lia.
Qed.

Lemma first_free_first_at slots :
  forall base i, first_at (fun e => slot_type e =? 0) slots i ->
  first_free base slots = Some (base + i)%nat.
Proof.
  induction slots as [|x rest IH]; intros base i [(e & He & Hp) Hbefore].
  - destruct i; discriminate.
  - cbn. destruct i as [|i]; cbn in He.
    + injection He as ->. rewrite Hp. f_equal. lia.
    + assert (Hx : (slot_type x =? 0) = false) by (apply (Hbefore 0%nat x); [lia | reflexivity]).
      cbn in Hx. rewrite Hx.
      rewrite (IH (S base) i); [f_equal; lia|].
      split; [now exists e|].
      intros j e' Hj He'. apply (Hbefore (S j) e'); [lia | exact He'].
Qed.

Lemma first_free_none slots :
  forall base, Forall (fun e => slot_type e <> 0) slots -> first_free base slots = None.
Proof.
  induction slots as [|x rest IH]; intros base H; cbn; [reflexivity|].
  inversion H as [|? ? Hx Hrest]; subst.
  apply Z.eqb_neq in Hx. rewrite Hx. now apply IH.
Qed.

Lemma first_tagged_first_at t slots :
  forall base i, first_at (tag_matches t) slots i ->
  first_tagged t base slots = Some (base + i)%nat.
Proof.
  induction slots as [|x rest IH]; intros base i [(e & He & Hp) Hbefore].
  - destruct i; discriminate.
  - cbn. destruct i as [|i]; cbn in He.
    + injection He as ->. rewrite Hp. f_equal. lia.
    + assert (Hx : tag_matches t x = false) by (apply (Hbefore 0%nat x); [lia | reflexivity]).
      cbn in Hx. rewrite Hx.
      rewrite (IH (S base) i); [f_equal; lia|].
      split; [now exists e|].
      intros j e' Hj He'. apply (Hbefore (S j) e'); [lia | exact He'].
Qed.

Lemma first_tagged_none t slots :
  forall base, Forall (fun e => tag_matches t e = false) slots ->
  first_tagged t base slots = None.
Proof.
  induction slots as [|x rest IH]; intros base H; cbn; [reflexivity|].
  inversion H as [|? ? Hx Hrest]; subst. rewrite Hx. now apply IH.
Qed.

(** What a search that succeeds has found, and what one that fails has seen. *)
Lemma first_tagged_some t slots :
  forall base k, first_tagged t base slots = Some k ->
  exists i, k = (base + i)%nat /\ first_at (tag_matches t) slots i.
Proof.
  induction slots as [|x rest IH]; intros base k H; cbn in H; [discriminate|].
  destruct (tag_matches t x) eqn:Hx.
  - injection H as <-. exists 0%nat. split; [lia|]. split.
    + now exists x.
    + intros j e Hj. lia.
  - destruct (IH _ _ H) as (i & -> & (e & He & Hp) & Hbefore).
    exists (S i). split; [lia|]. split.
    + now exists e.
    + intros [|j] e' Hj He'; cbn in He'.
      * now injection He' as <-.
      * apply (Hbefore j e'); [lia | exact He'].
Qed.

Lemma first_tagged_none_inv t slots :
  forall base, first_tagged t base slots = None ->
  Forall (fun e => tag_matches t e = false) slots.
Proof.
  induction slots as [|x rest IH]; intros base H; cbn in H; constructor.
  - destruct (tag_matches t x); [discriminate | reflexivity].
  - destruct (tag_matches t x); [discriminate|]. now apply (IH (S base)).
Qed.

Lemma first_free_some slots :
  forall base k, first_free base slots = Some k ->
  exists i, k = (base + i)%nat /\ first_at (fun e => slot_type e =? 0) slots i.
Proof.
  induction slots as [|x rest IH]; intros base k H; cbn in H; [discriminate|].
  destruct (slot_type x =? 0) eqn:Hx.
  - injection H as <-. exists 0%nat. split; [lia|]. split.
    + now exists x.
    + intros j e Hj. lia.
  - destruct (IH _ _ H) as (i & -> & (e & He & Hp) & Hbefore).
    exists (S i). split; [lia|]. split.
    + now exists e.
    + intros [|j] e' Hj He'; cbn in He'.
      * now injection He' as <-.
      * apply (Hbefore j e'); [lia | exact He'].
Qed.

Lemma first_free_none_inv slots :
  forall base, first_free base slots = None ->
  Forall (fun e => slot_type e <> 0) slots.
Proof.
  induction slots as [|x rest IH]; intros base H; cbn in H; constructor.
  - destruct (slot_type x =? 0) eqn:Hx; [discriminate | now apply Z.eqb_neq].
  - destruct (slot_type x =? 0); [discriminate|]. now apply (IH (S base)).
Qed.

Lemma nth_error_close_gap i slots :
  (i < length slots)%nat ->
  (forall j, (j < i)%nat -> nth_error (close_gap i slots) j = nth_error slots j)
  /\ (forall j, (i <= j)%nat -> (S j < length slots)%nat ->
        nth_error (close_gap i slots) j = nth_error slots (S j))
  /\ nth_error (close_gap i slots) (pred (length slots)) = Some slot_zero
  /\ length (close_gap i slots) = length slots.
Proof.
  intros Hi. unfold close_gap.
  assert (Hf : length (firstn i slots) = i) by (rewrite length_firstn; lia).
  assert (Hs : length (skipn (S i) slots) = (length slots - S i)%nat)
    by apply length_skipn.
  repeat split.
  - intros j Hj. rewrite nth_error_app1 by lia.
    rewrite nth_error_firstn. apply Nat.ltb_lt in Hj. now rewrite Hj.
  - intros j Hij Hj. rewrite nth_error_app2 by lia.
    rewrite nth_error_app1 by lia.
    rewrite nth_error_skipn, Hf. f_equal. lia.
  - rewrite nth_error_app2 by lia. rewrite nth_error_app2 by lia.
    rewrite Hf, Hs. replace (_ - _ - _)%nat with 0%nat by lia. reflexivity.
  - rewrite !length_app, Hf, Hs. cbn. lia.
Qed.

Lemma first_at_lt (p : E -> bool) slots i :
  first_at p slots i -> (i < length slots)%nat.
Proof.
  intros [(e & He & _) _]. apply nth_error_Some. congruence.
Qed.

Lemma tagged_app t (a b : list E) : tagged t (a ++ b) = (tagged t a + tagged t b)%nat.
Proof. unfold tagged. now rewrite filter_app, length_app. Qed.

Lemma tagged_none t (l : list E) :
  Forall (fun e => tag_matches t e = false) l -> tagged t l = 0%nat.
Proof.
  unfold tagged. induction 1 as [|x l Hx _ IH]; cbn; [reflexivity|].
  now rewrite Hx.
Qed.

Lemma split_at i (slots : list E) e :
  nth_error slots i = Some e -> slots = firstn i slots ++ e :: skipn (S i) slots.
Proof.
  revert i. induction slots as [|x rest IH]; intros [|i] H; cbn in *;
    try discriminate.
  - now injection H as ->.
  - f_equal. now apply IH.
Qed.

Lemma tag_matches_zero t : tag_matches t slot_zero = false.
Proof. unfold tag_matches. now rewrite slot_tag_zero. Qed.

Lemma tag_matches_other t t' e :
  tag_matches t e = true -> t' <> t -> tag_matches t' e = false.
Proof.
  unfold tag_matches. destruct (slot_tag e) as [u|]; [|discriminate].
  intros Hu Hne. apply String.eqb_eq in Hu. subst u.
  apply String.eqb_neq. congruence.
Qed.

Lemma update_app (used rest : list E) (z : E) f :
  update (length used) f (used ++ z :: rest) = used ++ f z :: rest.
Proof. induction used as [|x used IH]; cbn; [reflexivity | now rewrite IH]. Qed.

Lemma first_at_after (p : E -> bool) (used rest : list E) (z : E) :
  Forall (fun e => p e = false) used -> p z = true ->
  first_at p (used ++ z :: rest) (length used).
Proof.
  intros Hused Hz. split.
  - exists z. rewrite nth_error_app2 by lia. rewrite Nat.sub_diag. now split.
  - intros j e Hj He. rewrite nth_error_app1 in He by lia.
    rewrite Forall_forall in Hused. apply Hused. eapply nth_error_In; eassumption.
Qed.

Lemma tagged_cons t (e : E) (l : list E) :
  tagged t (e :: l) = ((if tag_matches t e then 1 else 0) + tagged t l)%nat.
Proof. unfold tagged. cbn. now destruct (tag_matches t e). Qed.

Lemma tagged_gap t (A B : list E) (e : E) :
  (tagged t (A ++ B ++ [slot_zero]) + (if tag_matches t e then 1 else 0))%nat
  = tagged t (A ++ e :: B).
Proof.
  rewrite !tagged_app, !tagged_cons, tag_matches_zero.
  unfold tagged at 3. cbn. lia.
Qed.

Lemma tagged_close_gap t k slots e :
  nth_error slots k = Some e ->
  (tagged t (close_gap k slots) + (if tag_matches t e then 1 else 0))%nat
  = tagged t slots.
Proof.
  intros He. unfold close_gap. rewrite tagged_gap.
  now rewrite <- (split_at k slots e He).
Qed.

Lemma close_gap_app (used rest : list E) (w : E) :
  close_gap (length used) (used ++ w :: rest) = used ++ rest ++ [slot_zero].
Proof.
  unfold close_gap. induction used as [|x used IH]; cbn; [reflexivity|].
  f_equal. exact IH.
Qed.

(** X1. With a free slot in the array, the add function takes the
    first free one: it returns that slot, writes tag, type and parameter
    into it, leaves every other slot as it was, and logs nothing. *)
Theorem add_takes_first_free :
  forall (tag : option string) (type param : Z) (slots : list E) (i : nat) (e : E),
    nth_error slots i = Some e ->
    slot_type e = 0 ->
    (forall j e', (j < i)%nat -> nth_error slots j = Some e' -> slot_type e' <> 0) ->
    let r := add tag type param slots in
    fst (fst r) = Some i
    /\ snd r = []
    /\ nth_error (snd (fst r)) i = Some (slot_write tag type param e)
    /\ (forall j, j <> i -> nth_error (snd (fst r)) j = nth_error slots j)
    /\ length (snd (fst r)) = length slots.
Proof.
  intros tag type param slots i e He Hfree Hbefore r. subst r. unfold add.
  assert (Hfirst : first_at (fun x => slot_type x =? 0) slots i).
  { split.
    - exists e. split; [exact He | now apply Z.eqb_eq].
    - intros j e' Hj He'. apply Z.eqb_neq. now apply (Hbefore j e'). }
  rewrite (first_free_first_at slots 0 i Hfirst). cbn.
  repeat split.
  - now apply nth_error_update_eq.
  - intros j Hj. apply nth_error_update_ne. congruence.
  - apply length_update.
Qed.

(** X2. With no free slot, the add function returns NULL, leaves the
    array as it is and logs the out-of-slots message. *)
Theorem add_when_full :
  forall (tag : option string) (type param : Z) (slots : list E),
    Forall (fun e => slot_type e <> 0) slots ->
    add tag type param slots = (None, slots, [mkLogerror out_of_message None]).
Proof.
  intros tag type param slots Hfull. unfold add.
  now rewrite (first_free_none slots 0 Hfull).
Qed.

(** X3. A slot added under a tag that no earlier slot carries is the
    slot the find function returns for that tag. *)
Theorem find_after_add :
  forall (t : string) (type param : Z) (slots : list E) (i : nat),
    fst (fst (add (Some t) type param slots)) = Some i ->
    (forall j e, (j < i)%nat -> nth_error slots j = Some e -> tag_matches t e = false) ->
    find t (snd (fst (add (Some t) type param slots))) = (Some i, []).
Proof.
  intros t type param slots i Hadd Hfresh. unfold add in *.
  destruct (first_free 0 slots) as [k|] eqn:Hk; cbn in *; [|discriminate].
  injection Hadd as ->.
  destruct (first_free_some slots 0 i Hk) as (i' & Hi & (e & He & _) & _).
  cbn in Hi. subst i'.
  unfold find.
  rewrite (first_tagged_first_at t _ 0 i); [reflexivity|].
  split.
  - exists (slot_write (Some t) type param e). split.
    + now apply nth_error_update_eq.
    + unfold tag_matches. rewrite slot_tag_write. apply String.eqb_refl.
  - intros j e' Hj He'. rewrite nth_error_update_ne in He' by lia.
    now apply (Hfresh j e').
Qed.

(** X4. The index lookup returns -1 exactly when no slot carries the
    tag, and otherwise the index, below the array size, of the first slot
    that does; the find function returns the same slot and logs its
    message exactly when the lookup fails. *)
Theorem find_index_first_match :
  forall (t : string) (slots : list E),
    let r := find_index t slots in
    -1 <= r < Z.of_nat (length slots)
    /\ (r = -1 <-> Forall (fun e => tag_matches t e = false) slots)
    /\ (0 <= r -> first_at (tag_matches t) slots (Z.to_nat r))
    /\ find t slots
       = if r =? -1 then (None, [mkLogerror cant_find_format (Some t)])
         else (Some (Z.to_nat r), []).
Proof.
  intros t slots r. subst r. unfold find_index, find.
  destruct (first_tagged t 0 slots) as [k|] eqn:Hk.
  - destruct (first_tagged_some t slots 0 k Hk) as (i & Hi & Hfirst).
    cbn in Hi. subst i.
    pose proof (first_at_lt _ _ _ Hfirst) as Hlt.
    repeat split; try lia.
    + intros Hall. rewrite (first_tagged_none t slots 0 Hall) in Hk. discriminate.
    + destruct Hfirst as [Hfound _]. rewrite Nat2Z.id. exact Hfound.
    + destruct Hfirst as [_ Hbefore]. rewrite Nat2Z.id. exact Hbefore.
    + destruct (Z.of_nat k =? -1) eqn:Hneg; [apply Z.eqb_eq in Hneg; lia|].
      now rewrite Nat2Z.id.
  - repeat split; try lia.
    + intros _. now apply (first_tagged_none_inv t slots 0).
Qed.

(** X5. Removing a tag whose first carrier is slot [i] keeps the slots
    before [i], moves each later slot down by one, clears the last slot,
    keeps the array size and logs nothing. *)
Theorem remove_closes_gap :
  forall (t : string) (slots : list E) (i : nat),
    first_at (tag_matches t) slots i ->
    let slots' := fst (remove t slots) in
    snd (remove t slots) = []
    /\ length slots' = length slots
    /\ (forall j, (j < i)%nat -> nth_error slots' j = nth_error slots j)
    /\ (forall j, (i <= j)%nat -> (S j < length slots)%nat ->
          nth_error slots' j = nth_error slots (S j))
    /\ nth_error slots' (pred (length slots)) = Some slot_zero.
Proof.
  intros t slots i Hfirst slots'. subst slots'. unfold remove.
  rewrite (first_tagged_first_at t slots 0 i Hfirst). cbn.
  destruct (nth_error_close_gap i slots (first_at_lt _ _ _ Hfirst))
    as (H1 & H2 & H3 & H4).
  repeat split; assumption.
Qed.

(** X6. For a tag that no slot carries, find returns NULL, the index
    lookup returns -1 and remove leaves the array as it is; find and
    remove log the cannot-find message with the tag. *)
Theorem absent_tag :
  forall (t : string) (slots : list E),
    Forall (fun e => tag_matches t e = false) slots ->
    find t slots = (None, [mkLogerror cant_find_format (Some t)])
    /\ find_index t slots = -1
    /\ remove t slots = (slots, [mkLogerror cant_find_format (Some t)]).
Proof.
  intros t slots Habsent. unfold find, find_index, remove.
  rewrite (first_tagged_none t slots 0 Habsent). repeat split.
Qed.

(** X7. The remove function deletes one entry at most: the number of
    slots that carry the tag goes down by one (staying at zero when
    there was none), and every other tag is carried by as many slots as
    before. *)
Theorem remove_takes_one :
  forall (t : string) (slots : list E),
    tagged t (fst (remove t slots)) = pred (tagged t slots)
    /\ forall t', t' <> t -> tagged t' (fst (remove t slots)) = tagged t' slots.
Proof.
  intros t slots. unfold remove.
  destruct (first_tagged t 0 slots) as [k|] eqn:Hk; cbn [fst].
  - destruct (first_tagged_some t slots 0 k Hk) as (i & Hi & (e & He & Hp) & Hbefore).
    cbn in Hi. subst i.
    split.
    + pose proof (tagged_close_gap t k slots e He) as Hgap.
      rewrite Hp in Hgap. lia.
    + intros t' Hne.
      pose proof (tagged_close_gap t' k slots e He) as Hgap.
      rewrite (tag_matches_other t t' e Hp Hne) in Hgap. lia.
  - split; [|reflexivity].
    rewrite (tagged_none t slots (first_tagged_none_inv t slots 0 Hk)). reflexivity.
Qed.

(** X8. Add and remove keep the array dense: if every free slot is
    followed by free slots only, it is so afterwards. *)
Theorem dense_preserved :
  forall (slots : list E),
    dense slots ->
    (forall tag type param, dense (snd (fst (add tag type param slots))))
    /\ (forall t, dense (fst (remove t slots))).
Proof.
  intros slots Hdense. split.
  - intros tag type param. unfold add.
    destruct (first_free 0 slots) as [k|] eqn:Hk; cbn; [|exact Hdense].
    destruct (first_free_some slots 0 k Hk) as (i & Hi & (e & He & Hp) & Hbefore).
    cbn in Hi. subst i. apply Z.eqb_eq in Hp.
    intros a b ea eb Hab Ha Hb Hzero.
    destruct (Nat.eq_dec b k) as [->|Hbk].
    + destruct (Nat.eq_dec a k) as [->|Hak]; [congruence|].
      rewrite nth_error_update_ne in Ha by congruence.
      assert (Hne : (slot_type ea =? 0) = false) by (apply (Hbefore a ea); [lia | exact Ha]).
      apply Z.eqb_neq in Hne. contradiction.
    + rewrite nth_error_update_ne in Hb by congruence.
      destruct (Nat.eq_dec a k) as [->|Hak].
      * apply (Hdense k b e eb Hab He Hb Hp).
      * rewrite nth_error_update_ne in Ha by congruence.
        apply (Hdense a b ea eb Hab Ha Hb Hzero).
  - intros t. unfold remove.
    destruct (first_tagged t 0 slots) as [k|] eqn:Hk; cbn; [|exact Hdense].
    destruct (first_tagged_some t slots 0 k Hk) as (i & Hi & Hfirst).
    cbn in Hi. subst i.
    pose proof (first_at_lt _ _ _ Hfirst) as Hlt.
    destruct (nth_error_close_gap k slots Hlt) as (H1 & H2 & H3 & H4).
    intros a b ea eb Hab Ha Hb Hzero.
    assert (Hblt : (b < length slots)%nat)
      by (rewrite <- H4; apply nth_error_Some; congruence).
    destruct (Nat.eq_dec b (pred (length slots))) as [->|Hlast].
    + rewrite H3 in Hb. injection Hb as <-. apply slot_type_zero.
    + destruct (Nat.lt_ge_cases b k) as [Hbk|Hbk].
      * rewrite H1 in Ha, Hb by lia.
        apply (Hdense a b ea eb Hab Ha Hb Hzero).
      * rewrite H2 in Hb by lia.
        destruct (Nat.lt_ge_cases a k) as [Hak|Hak].
        -- rewrite H1 in Ha by lia.
           apply (Hdense a (S b) ea eb ltac:(lia) Ha Hb Hzero).
        -- rewrite H2 in Ha by lia.
           apply (Hdense (S a) (S b) ea eb ltac:(lia) Ha Hb Hzero).
Qed.

(** X9. On an array that holds its used slots first and after them
    only cleared free slots, at least one: adding under a tag that no
    used slot carries and then removing that tag gives back the
    array. *)
Theorem add_then_remove :
  forall (t : string) (type param : Z) (used : list E) (k : nat),
    Forall (fun e => slot_type e <> 0) used ->
    Forall (fun e => tag_matches t e = false) used ->
    let slots := used ++ repeat slot_zero (S k) in
    fst (remove t (snd (fst (add (Some t) type param slots)))) = slots.
Proof.
  intros t type param used k Hused Hfresh slots. subst slots. cbn [repeat].
  unfold add.
  rewrite (first_free_first_at _ 0 (length used)).
  2:{ apply first_at_after.
      - eapply Forall_impl; [|exact Hused]. intros e He. now apply Z.eqb_neq.
      - rewrite slot_type_zero. reflexivity. }
  cbn [fst snd Nat.add]. rewrite update_app. unfold remove.
  rewrite (first_tagged_first_at t _ 0 (length used)).
  2:{ apply first_at_after; [exact Hfresh|].
      unfold tag_matches. rewrite slot_tag_write. apply String.eqb_refl. }
  cbn [fst Nat.add]. rewrite close_gap_app. f_equal.
  change (slot_zero :: repeat slot_zero k) with (repeat slot_zero (S k)).
  now rewrite <- repeat_cons.
Qed.

End Generic.

Lemma sample_cpus_used_first :
  forall j e', (j < 2)%nat -> nth_error sample_cpus j = Some e' -> slot_type e' <> 0.
Proof.
  intros [|[|j]] e' Hj He'; try lia; cbn in He'; injection He' as <-; discriminate.
Qed.

(** A third CPU goes into slot 2 of the sample array. *)
Lemma add_takes_first_free_witness :
  fst (fst (machine_add_cpu sample_cpus (Some "mcu"%string) 5 1000000)) = Some 2%nat
  /\ nth_error (snd (fst (machine_add_cpu sample_cpus (Some "mcu"%string) 5 1000000))) 2
     = Some (CPU.mkCPU 5 1000000 (Some "mcu"%string) []).
Proof.
  assert (Hslot : nth_error sample_cpus 2 = Some (CPU.mkCPU 0 0 None []))
    by reflexivity.
  assert (Hfree : slot_type (CPU.mkCPU 0 0 None []) = 0) by reflexivity.
  destruct (add_takes_first_free (Some "mcu"%string) 5 1000000 sample_cpus 2
              (CPU.mkCPU 0 0 None []) Hslot Hfree sample_cpus_used_first)
    as (H1 & _ & H2 & _).
  split; [exact H1 | exact H2].
Defined.

(** The sample sound array has no room for a third chip. *)
Lemma add_when_full_witness :
  machine_add_sound sample_sounds (Some "dac"%string) 9 300
  = (None, sample_sounds, [mkLogerror "Out of sounds!" None]).
Proof.
  assert (Hfull : Forall (fun e => slot_type e <> 0) sample_sounds)
    by (repeat constructor; discriminate).
  exact (add_when_full (Some "dac"%string) 9 300 sample_sounds Hfull).
Defined.

(** The CPU added as "mcu" is found as "mcu". *)
Lemma find_after_add_witness :
  machine_find_cpu (snd (fst (machine_add_cpu sample_cpus (Some "mcu"%string) 5 1000000)))
                   "mcu"
  = (Some 2%nat, []).
Proof.
  assert (Hadd : fst (fst (add (Some "mcu"%string) 5 1000000 sample_cpus)) = Some 2%nat)
    by reflexivity.
  assert (Hfresh : forall j e, (j < 2)%nat -> nth_error sample_cpus j = Some e ->
                               tag_matches "mcu" e = false).
  { intros [|[|j]] e Hj He; try lia; cbn in He; injection He as <-; reflexivity. }
  exact (find_after_add "mcu" 5 1000000 sample_cpus 2 Hadd Hfresh).
Defined.

Lemma sample_main_first : first_at (tag_matches "main") sample_cpus 0.
Proof.
  split.
  - exists (CPU.mkCPU 1 4000000 (Some "main"%string) [7]). split; reflexivity.
  - intros j e Hj. lia.
Qed.

(** Removing "main" moves "sound" to slot 0 and clears slot 3. *)
Lemma remove_closes_gap_witness :
  nth_error (fst (machine_remove_cpu sample_cpus "main")) 0
  = Some (CPU.mkCPU 2 3579545 (Some "sound"%string) [])
  /\ nth_error (fst (machine_remove_cpu sample_cpus "main")) 3
     = Some (CPU.mkCPU 0 0 None []).
Proof.
  destruct (remove_closes_gap "main" sample_cpus 0 sample_main_first)
    as (_ & _ & _ & Hshift & Hlast).
  assert (H0 : (0 <= 0)%nat) by lia.
  assert (H1 : (1 < length sample_cpus)%nat) by (cbn; lia).
  split; [exact (Hshift 0%nat H0 H1) | exact Hlast].
Defined.

(** No sample CPU is tagged "gfx". *)
Lemma absent_tag_witness :
  machine_find_cpu sample_cpus "gfx"
  = (None, [mkLogerror "Can't find CPU '%s'!" (Some "gfx"%string)])
  /\ mame_find_cpu_index sample_cpus "gfx" = -1
  /\ machine_remove_cpu sample_cpus "gfx"
     = (sample_cpus, [mkLogerror "Can't find CPU '%s'!" (Some "gfx"%string)]).
Proof.
  assert (Habsent : Forall (fun e => tag_matches "gfx" e = false) sample_cpus)
    by (repeat constructor).
  exact (absent_tag "gfx" sample_cpus Habsent).
Defined.

Lemma sample_cpus_dense : dense sample_cpus.
Proof.
  intros i j ei ej Hij Hi Hj Hz.
  do 5 (try (destruct i as [|i]; cbn in Hi; try discriminate Hi));
    injection Hi as <-; cbn in Hz; try discriminate Hz;
    do 5 (try (destruct j as [|j]; cbn in Hj; try discriminate Hj));
    try lia; injection Hj as <-; reflexivity.
Qed.

(** The sample array stays dense under an add and under a remove. *)
Lemma dense_preserved_witness :
  dense (snd (fst (machine_add_cpu sample_cpus None 6 8000000)))
  /\ dense (fst (machine_remove_cpu sample_cpus "main")).
Proof.
  destruct (dense_preserved sample_cpus sample_cpus_dense) as [Hadd Hremove].
  split; [exact (Hadd None 6 8000000) | exact (Hremove "main"%string)].
Defined.

(** Adding "mcu" to the sample array and removing it again. *)
Lemma add_then_remove_witness :
  fst (machine_remove_cpu
         (snd (fst (machine_add_cpu sample_cpus (Some "mcu"%string) 5 1000000))) "mcu")
  = sample_cpus.
Proof.
  set (used := [CPU.mkCPU 1 4000000 (Some "main"%string) [7];
                CPU.mkCPU 2 3579545 (Some "sound"%string) []]).
  assert (Hused : Forall (fun e => slot_type e <> 0) used)
    by (repeat constructor; discriminate).
  assert (Hfresh : Forall (fun e => tag_matches "mcu" e = false) used)
    by (repeat constructor).
  exact (add_then_remove "mcu" 5 1000000 used 1 Hused Hfresh).
Defined.

(** The used slots have to come first: with a free slot between two
    used ones the new entry takes that slot, and removing it moves the
    later slot down. *)
Remark round_trip_needs_used_first :
  let slots := [CPU.mkCPU 1 4000000 (Some "main"%string) [7];
                CPU.mkCPU 0 0 None [];
                CPU.mkCPU 2 3579545 (Some "sound"%string) [];
                CPU.mkCPU 0 0 None []] in
  fst (machine_remove_cpu
         (snd (fst (machine_add_cpu slots (Some "mcu"%string) 5 1000000))) "mcu")
  = [CPU.mkCPU 1 4000000 (Some "main"%string) [7];
     CPU.mkCPU 2 3579545 (Some "sound"%string) [];
     CPU.mkCPU 0 0 None [];
     CPU.mkCPU 0 0 None []].
Proof. reflexivity. Qed.

End RegistryFacts.

(* ------------------------------------------------------------------ *)
(** ** The frame *)

Module DisplayFacts.
Import CInt CIntFacts VideoFacts Display.

Ltac leb_cases :=
  repeat match goal with
         | |- context [?a <=? ?b] => destruct (Z.leb_spec a b)
         | |- context [?a <? ?b] => destruct (Z.ltb_spec a b)
         | |- context [?a =? ?b] => destruct (Z.eqb_spec a b)
         end.

Lemma row_draws_app y l1 l2 :
  row_draws y (l1 ++ l2) = (row_draws y l1 + row_draws y l2)%nat.
Proof. unfold row_draws. now rewrite filter_app, length_app. Qed.

Lemma fills_app l1 l2 : fills (l1 ++ l2) = (fills l1 + fills l2)%nat.
Proof. unfold fills. now rewrite filter_app, length_app. Qed.

Lemma valid_scanline_succ s : Video.valid_scanline s -> int_add s 1 = s + 1.
Proof.
  intros H. apply int_add_exact.
  unfold Video.valid_scanline, in_int, INT_MIN, INT_MAX in *. lia.
Qed.

Lemma visible_area_force_partial_update skip s st :
  Video.visible_area (Video.force_partial_update skip s st) = Video.visible_area st.
Proof.
  destruct skip; [reflexivity|].
  destruct (Z.lt_ge_cases s (Video.last_partial_scanline st)).
  - now rewrite force_partial_update_stale.
  - now rewrite force_partial_update_done.
Qed.

Lemma visible_area_run_updates calls :
  forall st, Video.visible_area (Video.run_updates calls st) = Video.visible_area st.
Proof.
  induction calls as [|[b s] rest IH]; intros st; cbn; [reflexivity|].
  now rewrite IH, visible_area_force_partial_update.
Qed.

Lemma row_done_empty va a y : row_done va a a y = false.
Proof. unfold row_done. leb_cases; cbn; try reflexivity; lia. Qed.

Lemma row_done_split va a b c y :
  a <= b -> b <= c ->
  ((if row_done va a b y then 1 else 0) + (if row_done va b c y then 1 else 0))%nat
  = (if row_done va a c y then 1 else 0)%nat.
Proof. intros Hab Hbc. unfold row_done. leb_cases; cbn; try reflexivity; lia. Qed.

Lemma row_draws_step skip s st y :
  Video.valid_scanline s ->
  row_draws y (Video.log (Video.force_partial_update skip s st))
  = (row_draws y (Video.log st)
     + (if row_done (Video.visible_area st) (Video.last_partial_scanline st)
                    (Video.last_partial_scanline (Video.force_partial_update skip s st)) y
        then 1 else 0))%nat.
Proof.
  intros Hs. destruct skip.
  - cbn. rewrite row_done_empty. lia.
  - destruct (Z.lt_ge_cases s (Video.last_partial_scanline st)) as [Hlt|Hge].
    + rewrite force_partial_update_stale by assumption. rewrite row_done_empty. lia.
    + rewrite force_partial_update_done by assumption.
      cbn [Video.log Video.last_partial_scanline Video.visible_area].
      rewrite valid_scanline_succ by assumption.
      rewrite !row_draws_app. f_equal.
      unfold row_done, Video.range_nonempty, Video.update_range.
      replace (s + 1 - 1) with s by lia.
      destruct (Video.refresh_due st); cbn;
        leb_cases; cbn; unfold row_draws; cbn; leb_cases; cbn; try reflexivity; lia.
Qed.

Lemma row_draws_run calls :
  forall st y, Forall (fun c => Video.valid_scanline (snd c)) calls ->
  row_draws y (Video.log (Video.run_updates calls st))
  = (row_draws y (Video.log st)
     + (if row_done (Video.visible_area st) (Video.last_partial_scanline st)
                    (Video.last_partial_scanline (Video.run_updates calls st)) y
        then 1 else 0))%nat.
Proof.
  induction calls as [|[b s] rest IH]; intros st y H; cbn.
  - rewrite row_done_empty. lia.
  - inversion H as [|? ? Hs Hrest]; subst; cbn in Hs.
    rewrite IH by assumption. rewrite row_draws_step by assumption.
    rewrite visible_area_force_partial_update.
    rewrite <- Nat.add_assoc. f_equal.
    apply row_done_split.
    + now apply last_partial_scanline_step.
    + now apply last_partial_scanline_run.
Qed.

(** Within one frame no row is drawn twice: after
    [reset_partial_updates], whatever calls of [force_partial_update]
    follow, row [y] has been drawn once more than before if it lies in
    the visible area from scanline 0 up to the last partial scanline,
    and no more than before otherwise. *)
Theorem frame_rows_drawn_once :
  forall (calls : list (bool * Z)) (st : Video.state) (y : Z),
    Forall (fun c => Video.valid_scanline (snd c)) calls ->
    let st' := Video.run_updates calls (Video.reset_partial_updates st) in
    row_draws y (Video.log st')
    = (row_draws y (Video.log st)
       + (if ((Z.max 0 (Video.min_y (Video.visible_area st)) <=? y)
              && (y <=? Z.min (Video.last_partial_scanline st' - 1)
                              (Video.max_y (Video.visible_area st))))%Z
          then 1 else 0))%nat.
Proof.
  intros calls st y H st'. unfold st'.
  rewrite row_draws_run by assumption. reflexivity.
Qed.

Lemma video_render f d : video (render f d) = f (video d).
Proof. reflexivity. Qed.

Lemma video_draw_screen skip d :
  video (draw_screen skip d)
  = Video.force_partial_update skip (Video.max_y (Video.visible_area (video d))) (video d).
Proof.
  unfold draw_screen.
  destruct (negb (gbPriorityBitmapIsDirty (force_partial_update skip _ d) =? 0));
    reflexivity.
Qed.

Lemma priority_draw_screen skip d : gbPriorityBitmapIsDirty (draw_screen skip d) = 0.
Proof.
  unfold draw_screen.
  destruct (Z.eqb_spec (gbPriorityBitmapIsDirty
              (force_partial_update skip (Video.max_y (Video.visible_area (video d))) d)) 0)
    as [E|E]; cbn; [exact E | reflexivity].
Qed.

(** [draw_screen] finishes the frame: in a frame that is not skipped,
    after [reset_partial_updates] and any partial updates, it leaves
    every row of the visible area from scanline 0 on drawn exactly once
    more than before the frame and every other row untouched; the last
    partial scanline is past the visible area, the priority bitmap is
    clean, and a second [draw_screen] changes nothing. *)
Theorem draw_screen_completes_frame :
  forall (calls : list (bool * Z)) (v : Video.state) (d : state) (y : Z),
    Forall (fun c => Video.valid_scanline (snd c)) calls ->
    Video.valid_scanline (Video.max_y (Video.visible_area v)) ->
    video d = Video.run_updates calls (Video.reset_partial_updates v) ->
    let d' := draw_screen false d in
    row_draws y (Video.log (video d'))
    = (row_draws y (Video.log v)
       + (if ((Z.max 0 (Video.min_y (Video.visible_area v)) <=? y)
              && (y <=? Video.max_y (Video.visible_area v)))%Z
          then 1 else 0))%nat
    /\ Video.max_y (Video.visible_area v) < Video.last_partial_scanline (video d')
    /\ gbPriorityBitmapIsDirty d' = 0
    /\ draw_screen false d' = d'.
Proof.
  intros calls v d y Hc Hm Hd d'.
  assert (Hva : Video.visible_area (video d) = Video.visible_area v)
    by (rewrite Hd, visible_area_run_updates; reflexivity).
  assert (Hv : video d'
          = Video.run_updates (calls ++ [(false, Video.max_y (Video.visible_area v))])
              (Video.reset_partial_updates v)).
  { unfold d'. rewrite video_draw_screen, run_updates_app, Hva, Hd. reflexivity. }
  assert (Hall : Forall (fun c => Video.valid_scanline (snd c))
                   (calls ++ [(false, Video.max_y (Video.visible_area v))])).
  { apply Forall_app. split; [assumption|]. constructor; [exact Hm | constructor]. }
  assert (Hlps : Video.max_y (Video.visible_area v)
                 < Video.last_partial_scanline (video d')).
  { unfold d'. rewrite video_draw_screen, Hva.
    set (st := video d).
    destruct (Z.lt_ge_cases (Video.max_y (Video.visible_area v))
                (Video.last_partial_scanline st)) as [Hlt|Hge].
    - rewrite force_partial_update_stale by assumption. exact Hlt.
    - rewrite force_partial_update_done by assumption. cbn.
      rewrite valid_scanline_succ by assumption. lia. }
  split; [|split; [exact Hlps | split; [apply priority_draw_screen|]]].
  - rewrite Hv. rewrite row_draws_run by assumption. cbn [Video.reset_partial_updates
      Video.visible_area Video.last_partial_scanline Video.log].
    f_equal. rewrite <- Hv. unfold row_done.
    replace (Z.min (Video.last_partial_scanline (video d') - 1)
               (Video.max_y (Video.visible_area v)))
      with (Video.max_y (Video.visible_area v)) by lia.
    reflexivity.
  - assert (Hva' : Video.visible_area (video d') = Video.visible_area v).
    { unfold d'. rewrite video_draw_screen, visible_area_force_partial_update. exact Hva. }
    pose proof (priority_draw_screen false d) as Hp. fold d' in Hp.
    unfold draw_screen, force_partial_update, render.
    rewrite Hva'.
    rewrite (force_partial_update_stale false (video d')) by exact Hlps.
    rewrite skipn_all. cbn.
    rewrite Hp. cbn. destruct d'; cbn. unfold emit, set_video; cbn.
    now rewrite app_nil_r.
Qed.

Lemma refresh_due_later st :
  0 < Video.last_partial_scanline st -> Video.refresh_due st = false.
Proof.
  intros H. unfold Video.refresh_due.
  destruct (Z.eqb_spec (Video.last_partial_scanline st) 0); [lia|].
  apply andb_false_r.
Qed.

Lemma fills_run calls :
  forall st, Forall (fun c => Video.valid_scanline (snd c)) calls ->
  0 <= Video.last_partial_scanline st ->
  let st' := Video.run_updates calls st in
  let consumed :=
    Video.refresh_due st && negb (Video.last_partial_scanline st' =? 0) in
  fills (Video.log st') = (fills (Video.log st) + (if consumed then 1 else 0))%nat
  /\ Video.full_refresh_pending st'
     = (if consumed then 0 else Video.full_refresh_pending st).
Proof.
  induction calls as [|[b s] rest IH]; intros st H Hl; cbn zeta.
  - cbn [Video.run_updates]. unfold Video.refresh_due.
    destruct (Z.eqb_spec (Video.last_partial_scanline st) 0),
             (Video.full_refresh_pending st =? 0);
      cbn; split; (lia || reflexivity).
  - inversion H as [|? ? Hs Hrest]; subst; cbn in Hs.
    cbn [Video.run_updates].
    assert (Hsame : Video.force_partial_update b s st = st
                    \/ (b = false /\ Video.last_partial_scanline st <= s)).
    { destruct b; [left; reflexivity|].
      destruct (Z.lt_ge_cases s (Video.last_partial_scanline st)).
      - left. now apply force_partial_update_stale.
      - right. split; [reflexivity | lia]. }
    destruct Hsame as [E | [-> Hge]].
    + rewrite E. now apply IH.
    + set (st1 := Video.force_partial_update false s st) in *.
      assert (Hl1 : Video.last_partial_scanline st1 = s + 1).
      { unfold st1. rewrite force_partial_update_done by assumption. cbn.
        now apply valid_scanline_succ. }
      assert (Hf1 : fills (Video.log st1)
                    = (fills (Video.log st)
                       + (if Video.refresh_due st then 1 else 0))%nat).
      { unfold st1. rewrite force_partial_update_done by assumption.
        cbn [Video.log]. rewrite !fills_app.
        destruct (Video.refresh_due st),
                 (Video.range_nonempty (Video.update_range st s)); cbn; lia. }
      assert (Hp1 : Video.full_refresh_pending st1
                    = (if Video.refresh_due st then 0
                       else Video.full_refresh_pending st)).
      { unfold st1. rewrite force_partial_update_done by assumption. reflexivity. }
      pose proof (last_partial_scanline_run rest st1 Hrest) as Hmono.
      destruct (IH st1 Hrest) as [IHf IHp]; [lia|].
      rewrite refresh_due_later in IHf, IHp by lia.
      cbn [andb] in IHf, IHp.
      destruct (Z.eqb_spec (Video.last_partial_scanline (Video.run_updates rest st1)) 0)
        as [E0|E0]; [lia|].
      rewrite andb_true_r. rewrite IHf, IHp, Hf1, Hp1.
      destruct (Video.refresh_due st); split; (lia || reflexivity).
Qed.

(** A scheduled full refresh clears the bitmap once, at the first
    partial update of a frame that draws: starting at the top of a
    frame or later in it, a run of [force_partial_update] calls fills
    the bitmap once if a refresh is pending, nothing has been drawn in
    the frame before, and some call of the run is processed; then the
    request is cleared.  In every other case nothing is filled and the
    request stays as it is; in particular a refresh scheduled in the
    middle of a frame waits for the next one. *)
Theorem full_refresh_once_per_frame :
  forall (calls : list (bool * Z)) (st : Video.state),
    Forall (fun c => Video.valid_scanline (snd c)) calls ->
    0 <= Video.last_partial_scanline st ->
    let st' := Video.run_updates calls st in
    let consumed :=
      negb (Video.full_refresh_pending st =? 0)
      && (Video.last_partial_scanline st =? 0)
      && negb (Video.last_partial_scanline st' =? 0) in
    fills (Video.log st') = (fills (Video.log st) + (if consumed then 1 else 0))%nat
    /\ Video.full_refresh_pending st'
       = (if consumed then 0 else Video.full_refresh_pending st)
    /\ (0 < Video.last_partial_scanline st ->
        let late := Video.run_updates calls (Video.schedule_full_refresh st) in
        fills (Video.log late) = fills (Video.log st)
        /\ Video.full_refresh_pending late = 1).
Proof.
  intros calls st H Hl st' consumed.
  destruct (fills_run calls st H Hl) as [Hf Hp].
  split; [exact Hf | split; [exact Hp|]].
  intros Hpos late.
  destruct (fills_run calls (Video.schedule_full_refresh st) H Hl) as [Hf' Hp'].
  fold late in Hf', Hp'.
  rewrite refresh_due_later in Hf', Hp' by exact Hpos.
  cbn [andb Video.schedule_full_refresh Video.log Video.full_refresh_pending]
    in Hf', Hp'.
  split; [lia | exact Hp'].
Qed.


(** The way [vh_open] installs the default visible area, through
    [set_visible_area(0,1,0,1)] first: for any bounds other than
    (0,1,0,1) the bounds end up in both copies of the visible area, the
    area is flagged as changed and the scanline timing has been
    recomputed once or twice, even when the bounds were in place
    already. *)
Theorem visible_area_reinstalled :
  forall (st : Video.state) (a b c e : Z),
    Video.mkRect a b c e <> Video.mkRect 0 1 0 1 ->
    let st' := Video.set_visible_area a b c e (Video.set_visible_area 0 1 0 1 st) in
    Video.visible_area st' = Video.mkRect a b c e
    /\ Video.absolute_visible_area st' = Video.mkRect a b c e
    /\ Video.visible_area_changed st' = 1
    /\ (Video.recomputations st < Video.recomputations st'
        <= 2 + Video.recomputations st)%nat.
Proof.
  intros st a b c e Hne st'.
  set (st1 := Video.set_visible_area 0 1 0 1 st) in *.
  assert (H1 : Video.visible_area st1 = Video.mkRect 0 1 0 1).
  { unfold st1, Video.set_visible_area.
    destruct (Video.rect_eqb (Video.visible_area st) 0 1 0 1) eqn:E;
      [now apply rect_eqb_spec in E | reflexivity]. }
  assert (Hr : (Video.recomputations st <= Video.recomputations st1
                <= 1 + Video.recomputations st)%nat).
  { unfold st1, Video.set_visible_area.
    destruct (Video.rect_eqb (Video.visible_area st) 0 1 0 1); [lia|].
    rewrite recomputations_app. unfold Video.recomputations. cbn. lia. }
  unfold st'. rewrite VideoFacts.set_visible_area_changed by (rewrite H1; congruence).
  cbn. unfold Video.recomputations in *. cbn.
  rewrite filter_app, length_app. cbn. repeat split; lia.
Qed.


Lemma land_lor_same x f : Z.land (Z.lor x f) f = f.
Proof.
  apply Z.bits_inj'. intros n _. rewrite Z.land_spec, Z.lor_spec.
  destruct (Z.testbit x n), (Z.testbit f n); reflexivity.
Qed.

Lemma land_lor_other x f g :
  Z.land x g = 0 -> Z.land f g = 0 -> Z.land (Z.lor x f) g = 0.
Proof. intros Hx Hf. now rewrite Z.land_lor_distr_l, Hx, Hf. Qed.

Lemma skipn_length_app {A} (l x : list A) : skipn (length l) (l ++ x) = x.
Proof. rewrite skipn_app, skipn_all, Nat.sub_diag. reflexivity. Qed.

Lemma log_update_video_and_audio h skip pal art d :
  log (update_video_and_audio h skip pal art d)
  = log d ++ [PaletteUpdateDisplay (filled_display h skip d);
              ArtworkUpdateVideoAndAudio (pal (filled_display h skip d))].
Proof.
  unfold update_video_and_audio.
  match goal with |- context [if ?c then _ else _] => destruct c end; reflexivity.
Qed.

Lemma video_update_video_and_audio h skip pal art d :
  video (update_video_and_audio h skip pal art d)
  = set_visible_area_changed 0 (video d).
Proof.
  unfold update_video_and_audio.
  match goal with |- context [if ?c then _ else _] => destruct c end; reflexivity.
Qed.

Lemma current_display_update_video_and_audio h skip pal art d :
  current_display (update_video_and_audio h skip pal art d)
  = art (pal (filled_display h skip d)).
Proof.
  unfold update_video_and_audio.
  match goal with |- context [if ?c then _ else _] => destruct c end; reflexivity.
Qed.

Lemma leds_status_update_video_and_audio h skip pal art d :
  leds_status (update_video_and_audio h skip pal art d) = leds_status d.
Proof.
  unfold update_video_and_audio.
  match goal with |- context [if ?c then _ else _] => destruct c end; reflexivity.
Qed.

(** A change of the visible area is reported to the display code once:
    the display handed over by the first [update_video_and_audio] after
    a changing [set_visible_area] carries the new area and has
    [GAME_VISIBLE_AREA_CHANGED] set; the display of the following
    update, with no change in between, carries the same area with the
    flag clear. *)
Theorem visible_area_change_reported_once :
  forall (h : mame_h) (skip1 skip2 : bool)
         (pal1 art1 pal2 art2 : mame_display -> mame_display)
         (d : state) (a b c e : Z),
    flags_distinct h ->
    Video.visible_area (video d) <> Video.mkRect a b c e ->
    let d0 := set_visible_area a b c e d in
    let m1 := filled_display h skip1 d0 in
    let d1 := update_video_and_audio h skip1 pal1 art1 d0 in
    let m2 := filled_display h skip2 d1 in
    let d2 := update_video_and_audio h skip2 pal2 art2 d1 in
    log d2 = log d ++ [Rendering Video.EvComputeScanlineTiming;
                       PaletteUpdateDisplay m1; ArtworkUpdateVideoAndAudio (pal1 m1);
                       PaletteUpdateDisplay m2; ArtworkUpdateVideoAndAudio (pal2 m2)]
    /\ reports (GAME_VISIBLE_AREA_CHANGED h) m1
    /\ game_visible_area m1 = Video.mkRect a b c e
    /\ game_bitmap_update m1 = Video.mkRect a b c e
    /\ silent_on (GAME_VISIBLE_AREA_CHANGED h) m2
    /\ game_visible_area m2 = Video.mkRect a b c e
    /\ Video.visible_area_changed (video d2) = 0.
Proof.
  intros h skip1 skip2 pal1 art1 pal2 art2 d a b c e
         (Hb & Hv & Hl & Hbv & Hbl & Hvl) Hne d0 m1 d1 m2 d2.
  assert (Hv0 : video d0
    = Video.mkState (Video.mkRect a b c e) (Video.mkRect a b c e) 1
        (Video.full_refresh_pending (video d))
        (Video.last_partial_scanline (video d))
        (Video.partial_updates_this_frame (video d))
        (Video.log (video d) ++ [Video.EvComputeScanlineTiming])).
  { unfold d0, set_visible_area. rewrite video_render.
    now apply VideoFacts.set_visible_area_changed. }
  assert (Hl0 : log d0 = log d ++ [Rendering Video.EvComputeScanlineTiming]).
  { unfold d0, set_visible_area, render. cbn [log emit set_video].
    rewrite (VideoFacts.set_visible_area_changed _ _ _ _ _ Hne).
    cbn [Video.log]. now rewrite skipn_length_app. }
  assert (Hv1 : video d1 = set_visible_area_changed 0 (video d0))
    by apply video_update_video_and_audio.
  split; [|split; [|split; [|split; [|split; [|split]]]]].
  - unfold d2, m2. rewrite log_update_video_and_audio.
    unfold d1 at 1. rewrite log_update_video_and_audio. fold d1 m1.
    rewrite Hl0, <- !app_assoc. reflexivity.
  - unfold reports, m1, filled_display. cbn [changed_flags]. rewrite Hv0.
    cbn [Video.visible_area_changed Z.eqb negb].
    destruct (negb (led_state_compared h (leds_status d0)
                    =? led_state (current_display d0))).
    + rewrite Z.land_lor_distr_l, land_lor_same.
      rewrite (Z.land_comm (LED_STATE_CHANGED h)), Hvl. apply Z.lor_0_r.
    + apply land_lor_same.
  - unfold m1, filled_display. cbn [game_visible_area]. now rewrite Hv0.
  - unfold m1, filled_display. cbn [game_bitmap_update]. now rewrite Hv0.
  - unfold silent_on, m2, filled_display. cbn [changed_flags]. rewrite Hv1.
    cbn [set_visible_area_changed Video.visible_area_changed Z.eqb negb].
    assert (H0 : Z.land (if skip2 then 0 else Z.lor 0 (GAME_BITMAP_CHANGED h))
                   (GAME_VISIBLE_AREA_CHANGED h) = 0)
      by (destruct skip2; [reflexivity | rewrite Z.lor_0_l; exact Hbv]).
    destruct (negb (led_state_compared h (leds_status d1)
                    =? led_state (current_display d1))).
    + apply land_lor_other; [exact H0 | now rewrite Z.land_comm].
    + exact H0.
  - unfold m2, filled_display. cbn [game_visible_area]. rewrite Hv1, Hv0. reflexivity.
  - unfold d2. now rewrite video_update_video_and_audio.
Qed.

Lemma shift_bit num : 0 <= num <= 30 -> to_int (Z.shiftl 1 num) = 2 ^ num.
Proof.
  intros H. rewrite Z.shiftl_1_l. apply to_int_id.
  assert (0 < 2 ^ num) by (apply Z.pow_pos_nonneg; lia).
  assert (2 ^ num <= 2 ^ 30) by (apply Z.pow_le_mono_r; lia).
  change (2 ^ 30) with 1073741824 in *.
  unfold in_int, INT_MIN, INT_MAX. lia.
Qed.

Lemma leds_status_set_led_status num on d :
  0 <= num <= 30 ->
  leds_status (set_led_status num on d)
  = if negb (on =? 0) then Z.lor (leds_status d) (2 ^ num)
    else Z.land (leds_status d) (Z.lnot (2 ^ num)).
Proof.
  intros H. unfold set_led_status. rewrite shift_bit by assumption.
  destruct (negb (on =? 0)); reflexivity.
Qed.

Lemma led_bit num on d :
  0 <= num <= 30 ->
  Z.testbit (leds_status (set_led_status num on d)) num = negb (on =? 0).
Proof.
  intros H. rewrite leds_status_set_led_status by assumption.
  destruct (negb (on =? 0)).
  - rewrite Z.lor_spec, Z.pow2_bits_true by lia. apply orb_true_r.
  - rewrite Z.land_spec, Z.lnot_spec, Z.pow2_bits_true by lia. apply andb_false_r.
Qed.

Lemma led_other_bits num on d k :
  0 <= num <= 30 -> k <> num ->
  Z.testbit (leds_status (set_led_status num on d)) k = Z.testbit (leds_status d) k.
Proof.
  intros H Hk. rewrite leds_status_set_led_status by assumption.
  destruct (Z.lt_ge_cases k 0) as [Hneg|Hpos].
  - now rewrite !Z.testbit_neg_r.
  - destruct (negb (on =? 0)).
    + rewrite Z.lor_spec, Z.pow2_bits_false by lia. apply orb_false_r.
    + rewrite Z.land_spec, Z.lnot_spec, Z.pow2_bits_false by lia. apply andb_true_r.
Qed.

Lemma led_unchanged num on d :
  0 <= num <= 30 ->
  Z.testbit (leds_status d) num = negb (on =? 0) ->
  leds_status (set_led_status num on d) = leds_status d.
Proof.
  intros H Hb. apply Z.bits_inj'. intros k _.
  destruct (Z.eq_dec k num) as [->|Hk].
  - now rewrite led_bit.
  - now apply led_other_bits.
Qed.

(** [set_led_status(num, on)] for an LED number from 0 to 30 makes bit
    [num] of the LED word equal to [on != 0], leaves every other bit as
    it was, and has the same effect done twice as done once. *)
Theorem set_led_status_bit :
  forall (d : state) (num on : Z),
    0 <= num <= 30 ->
    let d' := set_led_status num on d in
    Z.testbit (leds_status d') num = negb (on =? 0)
    /\ (forall k, k <> num ->
          Z.testbit (leds_status d') k = Z.testbit (leds_status d) k)
    /\ set_led_status num on d' = d'.
Proof.
  intros d num on H d'. split; [|split].
  - now apply led_bit.
  - intros k Hk. now apply led_other_bits.
  - assert (E : leds_status (set_led_status num on d') = leds_status d')
      by (apply led_unchanged; [assumption | now apply led_bit]).
    unfold d' in *. unfold set_led_status in *.
    destruct (negb (on =? 0)); cbn in *; unfold set_leds_status; cbn;
      f_equal; exact E.
Qed.

(** An LED change reaches the display code once.  The type of the
    display's LED member comes from [mame.h]; the new LED word is taken
    to keep its value in it.  With the display in step with the LED
    word and collaborators that leave the display's LED member alone:
    after [set_led_status], the display handed over by the next
    [update_video_and_audio] carries the new LED word, with
    [LED_STATE_CHANGED] set if the call changed the LED and clear if it
    did not; the display of the update after that has the flag clear. *)
Theorem led_change_reported_once :
  forall (h : mame_h) (skip1 skip2 : bool)
         (pal1 art1 : mame_display -> mame_display)
         (d : state) (num on : Z),
    flags_distinct h ->
    0 <= num <= 30 ->
    led_state (current_display d) = leds_status d ->
    led_word_fits h (leds_status (set_led_status num on d)) ->
    (forall m, led_state (art1 (pal1 m)) = led_state m) ->
    let d0 := set_led_status num on d in
    let m1 := filled_display h skip1 d0 in
    let d1 := update_video_and_audio h skip1 pal1 art1 d0 in
    let m2 := filled_display h skip2 d1 in
    led_state m1 = leds_status d0
    /\ (Z.testbit (leds_status d) num <> negb (on =? 0) ->
        reports (LED_STATE_CHANGED h) m1)
    /\ (Z.testbit (leds_status d) num = negb (on =? 0) ->
        silent_on (LED_STATE_CHANGED h) m1)
    /\ silent_on (LED_STATE_CHANGED h) m2
    /\ led_state m2 = leds_status d0.
Proof.
  intros h skip1 skip2 pal1 art1 d num on
         (Hb & Hv & Hl & Hbv & Hbl & Hvl) Hnum Hsync [Hst Hcm] Hkeep d0 m1 d1 m2.
  fold d0 in Hst, Hcm.
  assert (Hcur0 : current_display d0 = current_display d)
    by (unfold d0, set_led_status; destruct (negb (on =? 0)); reflexivity).
  assert (Hm1 : led_state m1 = leds_status d0).
  { unfold m1, filled_display. cbn [led_state]. rewrite Hcm, Hst.
    destruct (Z.eqb_spec (leds_status d0) (led_state (current_display d0)));
      cbn; congruence. }
  assert (Hbase : forall skip : bool,
            Z.land (if skip then 0 else Z.lor 0 (GAME_BITMAP_CHANGED h))
                   (LED_STATE_CHANGED h) = 0)
    by (intros [|]; [reflexivity | rewrite Z.lor_0_l; exact Hbl]).
  assert (Hl1 : leds_status d1 = leds_status d0)
    by (unfold d1; apply leds_status_update_video_and_audio).
  assert (Hm2 : led_state_compared h (leds_status d1)
                = led_state (current_display d1)).
  { rewrite Hl1, Hcm. unfold d1.
    rewrite current_display_update_video_and_audio, Hkeep. fold m1. now rewrite Hm1. }
  split; [exact Hm1 | split; [|split; [|split]]].
  - intros Hdiff. unfold reports, m1, filled_display. cbn [changed_flags].
    rewrite Hcur0, Hsync, Hcm.
    destruct (Z.eqb_spec (leds_status d0) (leds_status d)) as [E|E].
    + exfalso. apply Hdiff. rewrite <- E. unfold d0. now apply led_bit.
    + cbn [negb]. apply land_lor_same.
  - intros Hsame. unfold silent_on, m1, filled_display. cbn [changed_flags].
    rewrite Hcur0, Hsync, Hcm.
    assert (E : leds_status d0 = leds_status d)
      by (unfold d0; now apply led_unchanged).
    rewrite E, Z.eqb_refl. cbn [negb].
    destruct (negb (Video.visible_area_changed (video d0) =? 0)).
    + apply land_lor_other; [apply Hbase | exact Hvl].
    + apply Hbase.
  - unfold silent_on, m2, filled_display. cbn [changed_flags].
    rewrite Hm2, Z.eqb_refl. cbn [negb].
    unfold d1. rewrite video_update_video_and_audio.
    cbn [set_visible_area_changed Video.visible_area_changed Z.eqb negb].
    apply Hbase.
  - unfold m2, filled_display. cbn [led_state].
    rewrite Hm2, Z.eqb_refl. cbn [negb].
    rewrite <- Hm2, Hl1. exact Hcm.
Qed.

(** Where the fit matters: with an 8-bit unsigned member, LED 8 does
    not fit, the member holds 0 after the store, and every update
    reports the LED state as changed. *)
Remark led_word_truncated :
  let d0 := set_led_status 8 1 sample_state in
  let d1 := update_video_and_audio sample_flags false (fun m => m) (fun m => m) d0 in
  leds_status d0 = 256
  /\ changed_flags (filled_display sample_flags false d0) = 129
  /\ led_state (current_display d1) = 0
  /\ changed_flags (filled_display sample_flags false d1) = 129.
Proof. cbn. repeat split. Qed.

Lemma log_draw_screen skip d :
  exists evs,
    log (draw_screen skip d)
    = log d ++ map Rendering evs
        ++ (if negb (gbPriorityBitmapIsDirty d =? 0) then [FillPriorityBitmap] else []).
Proof.
  exists (skipn (length (Video.log (video d)))
            (Video.log (Video.force_partial_update skip
                          (Video.max_y (Video.visible_area (video d))) (video d)))).
  unfold draw_screen, force_partial_update, render.
  cbn [gbPriorityBitmapIsDirty emit set_video].
  destruct (negb (gbPriorityBitmapIsDirty d =? 0)); cbn [log emit set_priority_dirty].
  - now rewrite <- app_assoc.
  - now rewrite app_nil_r.
Qed.

Lemma visible_area_changed_force_partial_update skip s st :
  Video.visible_area_changed (Video.force_partial_update skip s st)
  = Video.visible_area_changed st.
Proof.
  destruct skip; [reflexivity|].
  destruct (Z.lt_ge_cases s (Video.last_partial_scanline st)).
  - now rewrite force_partial_update_stale.
  - now rewrite force_partial_update_done.
Qed.

Lemma current_display_draw_screen skip d :
  current_display (draw_screen skip d) = current_display d.
Proof.
  unfold draw_screen.
  match goal with |- context [if ?c then _ else _] => destruct c end; reflexivity.
Qed.

(** One [updatescreen]: it returns 1 if the user interface asks to quit
    and 0 otherwise.  The user interface is called exactly once, after
    all drawing of the frame and before the display is handed on.  A
    skipped frame draws nothing.  When the user interface asks to quit,
    nothing is handed to the display code, the current display stays as
    it was and a pending visible-area change stays pending; otherwise
    the display is handed on exactly once and no visible-area change is
    pending afterwards. *)
Theorem updatescreen_frame :
  forall (h : mame_h) (a : frame_answers) (d : state),
    let r := fst (updatescreen h a d) in
    let d' := snd (updatescreen h a d) in
    r = (if handle_user_interface a =? 0 then 0 else 1)
    /\ (exists pre post,
          log d' = log d ++ pre ++ HandleUserInterface (handle_user_interface a) :: post
          /\ Forall (fun c => is_display_update c = false
                              /\ is_user_interface c = false) pre
          /\ Forall (fun c => is_rendering c = false
                              /\ is_user_interface c = false) post
          /\ display_updates post
             = (if (handle_user_interface a =? 0)%Z then 1 else 0)%nat)
    /\ (skip_in_updatescreen a = true ->
        Video.log (video d') = Video.log (video d))
    /\ (handle_user_interface a <> 0 ->
        current_display d' = current_display d
        /\ Video.visible_area_changed (video d')
           = Video.visible_area_changed (video d))
    /\ (handle_user_interface a = 0 ->
        Video.visible_area_changed (video d') = 0).
Proof.
  intros h a d r d'.
  set (d1 := if skip_in_updatescreen a then emit [SoundUpdate] d
             else emit [ProfilerMark Video.PROFILER_END]
                    (draw_screen (skip_in_force_partial_update a)
                       (emit [ProfilerMark Video.PROFILER_VIDEO]
                          (emit [SoundUpdate] d)))).
  set (d2 := emit [HandleUserInterface (handle_user_interface a)] d1).
  assert (Hlog1 : exists pre, log d1 = log d ++ pre
            /\ Forall (fun c => is_display_update c = false
                                /\ is_user_interface c = false) pre).
  { unfold d1. destruct (skip_in_updatescreen a).
    - exists [SoundUpdate]. split; [reflexivity|]. repeat constructor.
    - destruct (log_draw_screen (skip_in_force_partial_update a)
                  (emit [ProfilerMark Video.PROFILER_VIDEO] (emit [SoundUpdate] d)))
        as [evs Hevs].
      eexists. cbn [log emit] in *. rewrite Hevs.
      split; [rewrite <- !app_assoc; reflexivity|].
      repeat (apply Forall_app; split); try (repeat constructor).
      + apply Forall_forall. intros c Hc. apply in_map_iff in Hc.
        destruct Hc as [e [<- _]]. split; reflexivity.
      + match goal with |- context [if ?c then _ else _] => destruct c end;
          repeat constructor. }
  assert (Hcur1 : current_display d1 = current_display d).
  { unfold d1. destruct (skip_in_updatescreen a); [reflexivity|].
    cbn [current_display emit]. now rewrite current_display_draw_screen. }
  assert (Hvac1 : Video.visible_area_changed (video d1)
                  = Video.visible_area_changed (video d)).
  { unfold d1. destruct (skip_in_updatescreen a); [reflexivity|].
    cbn [video emit]. rewrite video_draw_screen.
    now rewrite visible_area_changed_force_partial_update. }
  assert (Hskip : skip_in_updatescreen a = true ->
                  Video.log (video d1) = Video.log (video d))
    by (intros E; unfold d1; now rewrite E).
  destruct Hlog1 as [pre [Hpre Hfa]].
  unfold r, d', updatescreen. fold d1. fold d2.
  destruct (Z.eqb_spec (handle_user_interface a) 0) as [E|E]; cbn [negb fst snd].
  - split; [reflexivity|]. split; [|split; [|split]].
    + exists pre.
      exists ([PaletteUpdateDisplay
                 (filled_display h (skip_in_update_video_and_audio a) d2);
               ArtworkUpdateVideoAndAudio
                 (palette_update_display a
                    (filled_display h (skip_in_update_video_and_audio a) d2))]
              ++ (if video_eof a
                  then [ProfilerMark Video.PROFILER_VIDEO; VideoEof;
                        ProfilerMark Video.PROFILER_END]
                  else [])).
      split; [|split; [exact Hfa | split]].
      * destruct (video_eof a); cbn [log emit];
          rewrite log_update_video_and_audio; unfold d2; cbn [log emit];
          rewrite Hpre, <- ?app_assoc; cbn [app]; rewrite ?app_nil_r; reflexivity.
      * destruct (video_eof a); repeat constructor.
      * destruct (video_eof a); reflexivity.
    + intros Hs. destruct (video_eof a); cbn [video emit];
        rewrite video_update_video_and_audio; cbn; now apply Hskip.
    + intros Hne. contradiction.
    + intros _. destruct (video_eof a); cbn [video emit];
        now rewrite video_update_video_and_audio.
  - split; [reflexivity|]. split; [|split; [|split]].
    + exists pre, []. split; [|split; [exact Hfa | split; [constructor | reflexivity]]].
      unfold d2. cbn [log emit]. now rewrite Hpre, <- app_assoc.
    + exact Hskip.
    + intros _. split; [exact Hcur1 | exact Hvac1].
    + intros E0. contradiction.
Qed.


Lemma small_scanlines (calls : list (bool * Z)) :
  forallb (fun c => (-1000 <=? snd c) && (snd c <=? 1000)) calls = true ->
  Forall (fun c => Video.valid_scanline (snd c)) calls.
Proof.
  intros H. apply Forall_forall. intros c Hc.
  rewrite forallb_forall in H. specialize (H c Hc).
  apply andb_true_iff in H. destruct H as [H1 H2].
  apply Z.leb_le in H1. apply Z.leb_le in H2.
  unfold Video.valid_scanline, INT_MIN, INT_MAX. lia.
Qed.

Lemma sample_flags_distinct : flags_distinct sample_flags.
Proof. unfold flags_distinct; cbn. repeat split; discriminate. Qed.

Lemma frame_rows_drawn_once_witness :
  let st := video sample_state in
  let st' := Video.run_updates [(false, 10); (false, 3); (true, 50); (false, 20)]
               (Video.reset_partial_updates st) in
  row_draws 5 (Video.log st') = 1%nat /\ row_draws 21 (Video.log st') = 0%nat.
Proof.
  intros st st'.
  assert (H : Forall (fun c => Video.valid_scanline (snd c))
                [(false, 10); (false, 3); (true, 50); (false, 20)])
    by (apply small_scanlines; reflexivity).
  split.
  - exact (frame_rows_drawn_once _ st 5 H).
  - exact (frame_rows_drawn_once _ st 21 H).
Defined.

Lemma draw_screen_completes_frame_witness :
  let calls := [(false, 10); (false, 100)] in
  let d := set_video (Video.run_updates calls
                        (Video.reset_partial_updates (video sample_state)))
             sample_state in
  row_draws 239 (Video.log (video (draw_screen false d))) = 1%nat
  /\ 239 < Video.last_partial_scanline (video (draw_screen false d)).
Proof.
  intros calls d.
  assert (H : Forall (fun c => Video.valid_scanline (snd c)) calls)
    by (apply small_scanlines; reflexivity).
  assert (Hm : Video.valid_scanline
                 (Video.max_y (Video.visible_area (video sample_state))))
    by (unfold Video.valid_scanline, INT_MIN, INT_MAX; cbn; lia).
  assert (Hd : video d = Video.run_updates calls
                           (Video.reset_partial_updates (video sample_state)))
    by reflexivity.
  destruct (draw_screen_completes_frame calls (video sample_state) d 239 H Hm Hd)
    as (Hrows & Hlps & _).
  split; [exact Hrows | exact Hlps].
Defined.

Lemma full_refresh_once_per_frame_witness :
  let st := Video.schedule_full_refresh (video sample_state) in
  let st' := Video.run_updates [(true, 5); (false, 10); (false, 20)] st in
  fills (Video.log st') = 1%nat /\ Video.full_refresh_pending st' = 0.
Proof.
  intros st st'.
  assert (H : Forall (fun c => Video.valid_scanline (snd c))
                [(true, 5); (false, 10); (false, 20)])
    by (apply small_scanlines; reflexivity).
  assert (Hl : 0 <= Video.last_partial_scanline st) by (cbn; lia).
  destruct (full_refresh_once_per_frame _ st H Hl) as (Hf & Hp & _).
  split; [exact Hf | exact Hp].
Defined.


Lemma visible_area_reinstalled_witness :
  let st := video sample_state in
  let st' := Video.set_visible_area 0 319 0 239 (Video.set_visible_area 0 1 0 1 st) in
  Video.visible_area st' = Video.mkRect 0 319 0 239
  /\ Video.visible_area_changed st' = 1.
Proof.
  intros st st'.
  assert (H : Video.mkRect 0 319 0 239 <> Video.mkRect 0 1 0 1) by discriminate.
  destruct (visible_area_reinstalled st 0 319 0 239 H) as (Ha & _ & Hc & _).
  split; [exact Ha | exact Hc].
Defined.

Lemma visible_area_change_reported_once_witness :
  let d0 := set_visible_area 0 255 16 239 sample_state in
  let d1 := update_video_and_audio sample_flags false (fun m => m) (fun m => m) d0 in
  reports 4 (filled_display sample_flags false d0)
  /\ silent_on 4 (filled_display sample_flags false d1).
Proof.
  intros d0 d1.
  assert (H : Video.visible_area (video sample_state) <> Video.mkRect 0 255 16 239)
    by discriminate.
  destruct (visible_area_change_reported_once sample_flags false false
              (fun m => m) (fun m => m) (fun m => m) (fun m => m)
              sample_state 0 255 16 239 sample_flags_distinct H)
    as (_ & Hr & _ & _ & Hs & _).
  split; [exact Hr | exact Hs].
Defined.

Lemma set_led_status_bit_witness :
  Z.testbit (leds_status (set_led_status 2 1 sample_state)) 2 = true
  /\ leds_status (set_led_status 2 0 (set_led_status 2 1 sample_state)) = 0.
Proof.
  assert (H : 0 <= 2 <= 30) by lia.
  split.
  - exact (proj1 (set_led_status_bit sample_state 2 1 H)).
  - reflexivity.
Defined.

Lemma led_change_reported_once_witness :
  let d0 := set_led_status 1 1 sample_state in
  let d1 := update_video_and_audio sample_flags false (fun m => m) (fun m => m) d0 in
  reports 128 (filled_display sample_flags false d0)
  /\ silent_on 128 (filled_display sample_flags false d1).
Proof.
  intros d0 d1.
  assert (Hn : 0 <= 1 <= 30) by lia.
  assert (Hs : led_state (current_display sample_state) = leds_status sample_state)
    by reflexivity.
  assert (Hf : led_word_fits sample_flags (leds_status (set_led_status 1 1 sample_state)))
    by (split; reflexivity).
  assert (Hk : forall m : mame_display,
             led_state ((fun m => m) ((fun m => m) m)) = led_state m)
    by reflexivity.
  destruct (led_change_reported_once sample_flags false false
              (fun m => m) (fun m => m) sample_state 1 1
              sample_flags_distinct Hn Hs Hf Hk)
    as (_ & Hr & _ & Hs2 & _).
  split; [apply Hr; discriminate | exact Hs2].
Defined.

End DisplayFacts.
